(** * Retrieval core of the RAG pipeline: chunking, indexing, search, fusion

    Shallow embedding of [backend/app/core/rag_pipeline.py] (class
    [RAGPipeline]) together with the properties stated about it.

    Conventions of the embedding:
    - a Python [str] is a list of Unicode code points ([list N]);
    - a Python [int] is a [Z]; list indexing and slicing follow Python
      (negative indices count from the end, indexing out of range raises
      [IndexError], slicing clips);
    - a Python [float] is an exact rational ([Q]); order and arithmetic are
      the exact ones, rounding is not modelled.  The module [Doubles] has the
      fusion step once more on binary64 numbers, for the statements that
      rounding, overflow and NaN decide;
    - a Python [dict] used as an ordered map is an association list in
      insertion order;
    - a call that may raise returns an [outcome]; the [while] loop of the
      chunker runs on fuel and answers [None] when the fuel runs out;
    - the embedding model and the ChromaDB collection are collaborators behind
      the classes [EmbeddingModel] and [VectorIndex]. *)

From Stdlib Require Import String Ascii DecimalString.
From Stdlib Require Import List ZArith NArith QArith Qminmax Bool Lia Lqa.
From Stdlib Require Import Permutation Sorted.
From Stdlib Require DecimalNat DecimalFacts.
From Stdlib Require Floats.
Import ListNotations.

Set Implicit Arguments.

Local Open Scope Z_scope.

(** ** Outcomes of Python calls *)

Inductive exn : Type :=
| IndexError
| ZeroDivisionError
| CollaboratorError (code : N).

Inductive outcome (A : Type) : Type :=
| Returns (a : A)
| Raises (e : exn).

Arguments Returns {A} a.
Arguments Raises {A} e.

Definition bind {A B : Type} (m : outcome A) (k : A -> outcome B) : outcome B :=
  match m with
  | Returns a => k a
  | Raises e => Raises e
  end.

Notation "x <- m ;; k" := (bind m (fun x => k))
  (at level 61, m at next level, right associativity).

(** ** Python lists *)

Section PyList.

Context {A : Type}.

(** [len(l)] *)
Definition len (l : list A) : Z := Z.of_nat (length l).

(** [l[i]] *)
Definition getitem (l : list A) (i : Z) : outcome A :=
  let j := if i <? 0 then i + len l else i in
  if (j <? 0) || (len l <=? j) then Raises IndexError
  else match nth_error l (Z.to_nat j) with
       | Some c => Returns c
       | None => Raises IndexError
       end.

(** Clipping of a slice bound to [0 .. len l]. *)
Definition clip (l : list A) (i : Z) : Z :=
  if i <? 0 then Z.max (i + len l) 0 else Z.min i (len l).

(** [l[a:b]] *)
Definition slice (l : list A) (a b : Z) : list A :=
  let a' := clip l a in
  let b' := clip l b in
  firstn (Z.to_nat (b' - a')) (skipn (Z.to_nat a') l).

(** [l[:b]] *)
Definition slice_to (l : list A) (b : Z) : list A := slice l 0 b.

(** Truth value of a sequence: [if l:] *)
Definition truthy (l : list A) : bool :=
  match l with [] => false | _ :: _ => true end.

End PyList.

(** [range(a, b, -1)] *)
Definition range_down (a b : Z) : list Z :=
  map (fun k => a - Z.of_nat k) (seq 0 (Z.to_nat (a - b))).

(** ** Python strings *)

Module PyStr.

Definition char : Type := N.
Definition str : Type := list char.

Definition char_eqb (a b : char) : bool := N.eqb a b.

Fixpoint eqb (s t : str) : bool :=
  match s, t with
  | [], [] => true
  | a :: s', b :: t' => char_eqb a b && eqb s' t'
  | _, _ => false
  end.

Definition of_ascii (a : ascii) : char := N_of_ascii a.

Fixpoint of_string (s : string) : str :=
  match s with
  | EmptyString => []
  | String a s' => of_ascii a :: of_string s'
  end.

(** [str(i)] for a non-negative [int]. *)
Definition of_nat (i : nat) : str :=
  of_string (NilZero.string_of_uint (Nat.to_uint i)).

(** [c.isspace()]: the code points Python strips and splits on. *)
Definition isspace (c : char) : bool :=
  (((9 <=? c) && (c <=? 13)) || ((28 <=? c) && (c <=? 32))
   || (c =? 133) || (c =? 160) || (c =? 5760)
   || ((8192 <=? c) && (c <=? 8202))
   || (c =? 8232) || (c =? 8233) || (c =? 8239) || (c =? 8287)
   || (c =? 12288))%N.

Fixpoint lstrip (s : str) : str :=
  match s with
  | [] => []
  | c :: s' => if isspace c then lstrip s' else s
  end.

Definition rstrip (s : str) : str := rev (lstrip (rev s)).

(** [s.strip()] *)
Definition strip (s : str) : str := lstrip (rstrip s).

(** [s.startswith(t)] *)
Fixpoint startswith (s t : str) : bool :=
  match t, s with
  | [], _ => true
  | b :: t', a :: s' => char_eqb a b && startswith s' t'
  | _ :: _, [] => false
  end.

(** Scan of [s.count(t)] for a non-empty [t]: occurrences are counted left to
    right without overlap; [skip] is the number of characters still covered
    by the occurrence found last. *)
Fixpoint count_from (s t : str) (skip : nat) : Z :=
  match s with
  | [] => 0
  | _ :: s' =>
      match skip with
      | S k => count_from s' t k
      | O => if startswith s t
             then 1 + count_from s' t (length t - 1)
             else count_from s' t 0
      end
  end.

(** [s.count(t)] *)
Definition count (s t : str) : Z :=
  match t with
  | [] => len s + 1
  | _ :: _ => count_from s t 0
  end.

(** [t in s] *)
Fixpoint contains (s t : str) : bool :=
  startswith s t ||
  match s with
  | [] => false
  | _ :: s' => contains s' t
  end.

(** Scan of [s.split()]: [cur] is the word being read, reversed. *)
Fixpoint split_from (s : str) (cur : str) : list str :=
  match s with
  | [] => match cur with [] => [] | _ :: _ => [rev cur] end
  | c :: s' =>
      if isspace c
      then match cur with
           | [] => split_from s' []
           | _ :: _ => rev cur :: split_from s' []
           end
      else split_from s' (c :: cur)
  end.

(** [s.split()] *)
Definition split (s : str) : list str := split_from s [].

End PyStr.

Import PyStr.

(** ** The chunker: [RAGPipeline._split_text] *)

Record RAGPipeline : Type := {
  chunk_size : Z;
  chunk_overlap : Z
}.

(** The chunking parameters set by [RAGPipeline.__init__]. *)
Definition init : RAGPipeline := {| chunk_size := 500; chunk_overlap := 50 |}.

(** The characters ['.', '!', '?', '。', '！', '？']. *)
Definition sentence_endings : list char := [46; 33; 63; 12290; 65281; 65311]%N.

Definition is_sentence_ending (c : char) : bool :=
  existsb (char_eqb c) sentence_endings.

Definition SPACE : char := 32%N.
Definition NEWLINE : char := 10%N.

(** First loop of the boundary search: the new cut, or [None] when the loop
    ran to its [else]. *)
Fixpoint find_sentence_end (text : str) (text_length : Z) (idx : list Z)
  : outcome (option Z) :=
  match idx with
  | [] => Returns None
  | i :: idx' =>
      c <- getitem text i ;;
      if is_sentence_ending c && (i + 1 <? text_length)
      then Returns (Some (i + 1))
      else find_sentence_end text text_length idx'
  end.

(** Second loop of the boundary search. *)
Fixpoint find_word_boundary (text : str) (idx : list Z) : outcome (option Z) :=
  match idx with
  | [] => Returns None
  | i :: idx' =>
      c <- getitem text i ;;
      if char_eqb c SPACE then Returns (Some i)
      else
        c' <- getitem text i ;;
        if char_eqb c' NEWLINE then Returns (Some i)
        else find_word_boundary text idx'
  end.

(** The cut position [end] of the window that starts at [start]. *)
Definition find_cut (self : RAGPipeline) (text : str) (start : Z) : outcome Z :=
  let text_length := len text in
  let end_ := start + chunk_size self in
  if end_ <? text_length then
    r <- find_sentence_end text text_length
           (range_down end_ (Z.max start (end_ - 100))) ;;
    match r with
    | Some e => Returns e
    | None =>
        r' <- find_word_boundary text
                (range_down end_ (Z.max start (end_ - 50))) ;;
        match r' with
        | Some e => Returns e
        | None => Returns end_
        end
    end
  else Returns end_.

(** One iteration of the [while] loop: the next [start] and the chunks. *)
Definition split_step (self : RAGPipeline) (text : str) (start : Z)
  (chunks : list str) : outcome (Z * list str) :=
  let text_length := len text in
  end_ <- find_cut self text start ;;
  let chunk := strip (slice text start end_) in
  let chunks' := if truthy chunk then chunks ++ [chunk] else chunks in
  let start' := if end_ <? text_length then end_ - chunk_overlap self else end_ in
  Returns (start', chunks').

(** [while start < text_length: ...], one unit of fuel per iteration; [None]
    when the fuel runs out before the loop ends. *)
Fixpoint split_loop (fuel : nat) (self : RAGPipeline) (text : str) (start : Z)
  (chunks : list str) : option (outcome (list str)) :=
  if start <? len text then
    match fuel with
    | O => None
    | S fuel' =>
        match split_step self text start chunks with
        | Returns (start', chunks') => split_loop fuel' self text start' chunks'
        | Raises e => Some (Raises e)
        end
    end
  else Some (Returns chunks).

Definition _split_text_fuel (fuel : nat) (self : RAGPipeline) (text : str)
  : option (outcome (list str)) :=
  if negb (truthy text) then Some (Returns [])
  else split_loop fuel self text 0 [].

(** [_split_text], with one unit of fuel per character of the text. *)
Definition _split_text (self : RAGPipeline) (text : str)
  : option (outcome (list str)) :=
  _split_text_fuel (length text) self text.

(** ** Python floats, as exact rationals *)

(** [a < b] on floats *)
Definition Qltb (a b : Q) : bool := negb (Qle_bool b a).

(** [a / b] on floats: division by zero raises. *)
Definition fdiv (a b : Q) : outcome Q :=
  if Qeq_bool b 0 then Raises ZeroDivisionError else Returns (a / b)%Q.

(** [min(a, b)]: the first argument unless the second is smaller. *)
Definition fmin (a b : Q) : Q := if Qltb b a then b else a.

(** ** [list.sort(key=..., reverse=True)]

    Python's sort is stable, also under [reverse=True]: the result is in
    descending key order and elements of equal key keep their order.  It is
    modelled by the stable insertion sort. *)

Section StableSort.

Context {A K : Type} (ltb : K -> K -> bool) (key : A -> K).

(** [x] is put behind the elements of greater key and in front of the rest
    (which stood behind it in the list to sort). *)
Fixpoint insert_desc (x : A) (l : list A) : list A :=
  match l with
  | [] => [x]
  | y :: l' => if ltb (key x) (key y) then y :: insert_desc x l' else x :: l
  end.

Definition sort_desc (l : list A) : list A := fold_right insert_desc [] l.

End StableSort.

(** ** Python dicts in insertion order, keyed by strings *)

Section Dict.

Context {V : Type}.

Definition dict : Type := list (str * V).

(** [d[k]], as [dict.get] *)
Fixpoint dict_get (d : dict) (k : str) : option V :=
  match d with
  | [] => None
  | (k', v') :: d' => if PyStr.eqb k' k then Some v' else dict_get d' k
  end.

(** [k in d] *)
Definition dict_mem (d : dict) (k : str) : bool :=
  match dict_get d k with Some _ => true | None => false end.

(** [d[k] = v]: a present key keeps its place, a new key goes last. *)
Fixpoint dict_set (d : dict) (k : str) (v : V) : dict :=
  match d with
  | [] => [(k, v)]
  | (k', v') :: d' =>
      if PyStr.eqb k' k then (k', v) :: d' else (k', v') :: dict_set d' k v
  end.

(** [{**d, **e}] *)
Definition dict_update (d e : dict) : dict :=
  fold_left (fun acc kv => dict_set acc (fst kv) (snd kv)) e d.

(** [list(d.values())] *)
Definition dict_values (d : dict) : list V := map snd d.

Definition dict_keys (d : dict) : list str := map fst d.

End Dict.

Arguments dict V : clear implicits.

(** ** Data of the retrieval core *)

Inductive meta_value : Type :=
| MStr (s : str)
| MInt (i : Z).

Definition metadata : Type := dict meta_value.

(** A float vector. *)
Definition embedding : Type := list Q.

(** The [where] filters the pipeline builds. *)
Inductive where_clause : Type :=
| WhereDocument (document_id : str)
| WhereDocumentIn (document_ids : list str).

(** What [collection.get] answers: parallel lists. *)
Record GetResult : Type := {
  get_ids : list str;
  get_documents : list str;
  get_metadatas : list metadata
}.

(** What [collection.query] answers for the one query embedding: the rows
    [results['ids'][0]], [results['documents'][0]], ... *)
Record QueryResult : Type := {
  qr_ids : list str;
  qr_documents : list str;
  qr_metadatas : list metadata;
  qr_distances : list Q
}.

(** An entry of [processed_results] in [query]. *)
Record SemanticResult : Type := {
  sem_id : str;
  sem_document : str;
  sem_metadata : metadata;
  sem_confidence : Q;
  sem_distance : Q
}.

(** An entry of [results] in [_keyword_search]. *)
Record KeywordResult : Type := {
  kw_id : str;
  kw_document : str;
  kw_metadata : metadata;
  kw_confidence : Q;
  kw_score : Z
}.

(** A result dict of either search. *)
Definition result : Type := (SemanticResult + KeywordResult)%type.

(** [result['id']] *)
Definition result_id (r : result) : str :=
  match r with inl s => sem_id s | inr k => kw_id k end.

(** [result['confidence']] *)
Definition result_confidence (r : result) : Q :=
  match r with inl s => sem_confidence s | inr k => kw_confidence k end.

(** An entry of [result_map] in [_combine_search_results]:
    [{**result, 'semantic_confidence': .., 'keyword_confidence': ..,
      'combined_confidence': ..}] *)
Record CombinedResult : Type := {
  base : result;
  semantic_confidence : Q;
  keyword_confidence : Q;
  combined_confidence : Q
}.

(** The dict [query] returns: the answer or the error report. *)
Inductive QueryResponse : Type :=
| QueryAnswer (query_text : str) (results : list SemanticResult)
    (total_found : Z) (searched_documents : option Z)
| QueryFailure (query_text : str) (results : list SemanticResult)
    (total_found : Z) (error : exn).

(** [response['results']] *)
Definition response_results (r : QueryResponse) : list SemanticResult :=
  match r with
  | QueryAnswer _ rs _ _ => rs
  | QueryFailure _ rs _ _ => rs
  end.

(** The dict [hybrid_search] returns. *)
Inductive HybridResponse : Type :=
| HybridAnswer (query_text : str) (results : list CombinedResult)
    (total_found semantic_count keyword_count : Z)
| HybridFailure (query_text : str) (results : list CombinedResult)
    (total_found : Z) (error : exn).

Definition hybrid_results (r : HybridResponse) : list CombinedResult :=
  match r with
  | HybridAnswer _ rs _ _ _ => rs
  | HybridFailure _ rs _ _ => rs
  end.

(** ** Collaborators *)

(** [SentenceTransformer.encode] on a list of texts. *)
Class EmbeddingModel : Type := {
  encode : list str -> outcome (list embedding)
}.

(** The ChromaDB collection, with its state [C].  The reads leave the state
    as it is; [add] and [delete] answer with the next state, also when they
    raise. *)
Class VectorIndex (C : Type) : Type := {
  collection_add :
    C -> list str -> list metadata -> list str -> list embedding ->
    outcome unit * C;
  collection_get : C -> option where_clause -> outcome GetResult;
  collection_delete : C -> list str -> outcome unit * C;
  collection_query :
    C -> list embedding -> Z -> option where_clause -> outcome QueryResult
}.

(** [str.lower]: the case mapping of the Unicode database. *)
Class CaseMapping : Type := {
  lower : str -> str
}.

(** [try: body except Exception as e: handler(e)] *)
Definition try_except {A : Type} (body : outcome A) (handler : exn -> A) : A :=
  match body with
  | Returns a => a
  | Raises e => handler e
  end.

(** [range(n)] *)
Definition range (n : nat) : list Z := map Z.of_nat (seq 0 n).

(** [enumerate(l)] *)
Definition enumerate {A : Type} (l : list A) : list (Z * A) :=
  combine (range (length l)) l.

(** [if document_ids:] on an [Optional[List[str]]] *)
Definition where_of (document_ids : option (list str)) : option where_clause :=
  match document_ids with
  | Some (d :: ds) => Some (WhereDocumentIn (d :: ds))
  | _ => None
  end.

(** ** Operations that change the collection: state and exceptions *)

Section Action.

Context {C : Type}.

Definition action (A : Type) : Type := C -> outcome A * C.

Definition ret {A : Type} (a : A) : action A := fun c => (Returns a, c).

(** A computation that does not touch the collection. *)
Definition pure_ {A : Type} (m : outcome A) : action A := fun c => (m, c).

(** A read of the collection. *)
Definition read {A : Type} (f : C -> outcome A) : action A := fun c => (f c, c).

Definition bindA {A B : Type} (m : action A) (k : A -> action B) : action B :=
  fun c =>
    match m c with
    | (Returns a, c') => k a c'
    | (Raises e, c') => (Raises e, c')
    end.

(** [try: body except Exception as e: return handler(e)] *)
Definition try_exceptA {A : Type} (body : action A) (handler : exn -> A)
  : C -> A * C :=
  fun c =>
    match body c with
    | (Returns a, c') => (a, c')
    | (Raises e, c') => (handler e, c')
    end.

End Action.

Notation "x <~ m ;; k" := (bindA m (fun x => k))
  (at level 61, m at next level, right associativity).

(** ** The pipeline *)

(** [str(i)] *)
Definition str_of_int (i : Z) : str :=
  if i <? 0 then 45%N :: PyStr.of_nat (Z.to_nat (- i))
  else PyStr.of_nat (Z.to_nat i).

(** [f"{document_id}_chunk_{i}"] *)
Definition chunk_id (document_id : str) (i : Z) : str :=
  document_id ++ of_string "_chunk_" ++ str_of_int i.

(** The [chunk_metadata] dict of chunk [i]. *)
Definition chunk_metadata (document_id : str) (i : Z) (chunk : str)
  (metadata_ : option metadata) : metadata :=
  dict_update
    [ (of_string "document_id", MStr document_id);
      (of_string "chunk_index", MInt i);
      (of_string "chunk_text",
       MStr (if 100 <? len chunk then slice_to chunk 100 ++ of_string "..."
             else chunk)) ]
    (match metadata_ with
     | Some m => if truthy m then m else []
     | None => []
     end).

(** The lists the loop of [index_document] over [enumerate(chunks)] builds. *)
Definition batch_documents (chunks : list str) : list str :=
  map snd (enumerate chunks).

Definition batch_ids (document_id : str) (chunks : list str) : list str :=
  map (fun ic => chunk_id document_id (fst ic)) (enumerate chunks).

Definition batch_metadatas (document_id : str) (chunks : list str)
  (metadata_ : option metadata) : list metadata :=
  map (fun ic => chunk_metadata document_id (fst ic) (snd ic) metadata_)
    (enumerate chunks).

Section Pipeline.

Context {C : Type} {VI : VectorIndex C} {EM : EmbeddingModel} {CM : CaseMapping}.

(** The [try] block of [index_document], once the chunker has answered. *)
Definition index_document_body (split_result : outcome (list str))
  (document_id : str) (metadata_ : option metadata) : action (C := C) bool :=
  chunks <~ pure_ split_result ;;
  if negb (truthy chunks) then ret false
  else
    embeddings <~ pure_ (encode chunks) ;;
    let documents := batch_documents chunks in
    let metadatas := batch_metadatas document_id chunks metadata_ in
    let ids := batch_ids document_id chunks in
    _ <~ (fun c => collection_add c documents metadatas ids embeddings) ;;
    ret true.

(** [RAGPipeline.index_document]: the flag and the collection afterwards;
    [None] when the chunker runs out of fuel. *)
Definition index_document (self : RAGPipeline) (document_id text : str)
  (metadata_ : option metadata) (c : C) : option (bool * C) :=
  match _split_text self text with
  | Some split_result =>
      Some (try_exceptA (index_document_body split_result document_id metadata_)
              (fun _ => false) c)
  | None => None
  end.

(** [RAGPipeline.remove_document] *)
Definition remove_document (document_id : str) : C -> bool * C :=
  try_exceptA
    (results <~ read (fun c => collection_get c (Some (WhereDocument document_id))) ;;
     if truthy (get_ids results)
     then _ <~ (fun c => collection_delete c (get_ids results)) ;; ret true
     else ret false)
    (fun _ => false).

(** The loop of [query] over [range(len(results['ids'][0]))]. *)
Fixpoint process_results (results : QueryResult) (min_confidence : Q)
  (idx : list Z) (processed_results : list SemanticResult)
  : outcome (list SemanticResult) :=
  match idx with
  | [] => Returns processed_results
  | i :: idx' =>
      doc_id <- getitem (qr_ids results) i ;;
      document <- getitem (qr_documents results) i ;;
      metadata_ <- getitem (qr_metadatas results) i ;;
      distance <- getitem (qr_distances results) i ;;
      let confidence := (1 - distance)%Q in
      process_results results min_confidence idx'
        (if Qle_bool min_confidence confidence
         then processed_results ++
                [ {| sem_id := doc_id; sem_document := document;
                     sem_metadata := metadata_; sem_confidence := confidence;
                     sem_distance := distance |} ]
         else processed_results)
  end.

(** [RAGPipeline.query] *)
Definition query (c : C) (query_text : str) (n_results : Z)
  (document_ids : option (list str)) (min_confidence : Q) : QueryResponse :=
  try_except
    (query_embedding <- encode [query_text] ;;
     let where_ := where_of document_ids in
     results <- collection_query c query_embedding n_results where_ ;;
     processed_results <-
       process_results results min_confidence
         (range (length (qr_ids results))) [] ;;
     let processed_results :=
       sort_desc Qltb sem_confidence processed_results in
     Returns (QueryAnswer query_text processed_results
                (len processed_results)
                (match where_, document_ids with
                 | Some _, Some ds => Some (len ds)
                 | _, _ => None
                 end)))
    (fun e => QueryFailure query_text [] 0 e).

(** The inner loop of [_keyword_search]: the score of one document. *)
Definition term_score (doc_lower : str) (query_terms : list str) : Z :=
  fold_left
    (fun score term =>
       if contains doc_lower term then score + count doc_lower term else score)
    query_terms 0.

(** The outer loop of [_keyword_search] over [enumerate(all_docs['documents'])]. *)
Fixpoint keyword_scan (all_docs : GetResult) (query_terms : list str)
  (rows : list (Z * str)) (results : list KeywordResult)
  : outcome (list KeywordResult) :=
  match rows with
  | [] => Returns results
  | (i, doc) :: rows' =>
      let doc_lower := lower doc in
      let score := term_score doc_lower query_terms in
      if 0 <? score then
        id_ <- getitem (get_ids all_docs) i ;;
        metadata_ <- getitem (get_metadatas all_docs) i ;;
        ratio <- fdiv (inject_Z score) (inject_Z (len query_terms)) ;;
        keyword_scan all_docs query_terms rows'
          (results ++
             [ {| kw_id := id_; kw_document := doc; kw_metadata := metadata_;
                  kw_confidence := fmin ratio 1; kw_score := score |} ])
      else keyword_scan all_docs query_terms rows' results
  end.

(** The [try] block of [_keyword_search]. *)
Definition keyword_search_body (c : C) (query_text : str) (n_results : Z)
  (document_ids : option (list str)) : outcome (list KeywordResult) :=
  all_docs <- collection_get c (where_of document_ids) ;;
  let query_terms := split (lower query_text) in
  results <-
    keyword_scan all_docs query_terms (enumerate (get_documents all_docs)) [] ;;
  let results := sort_desc Z.ltb kw_score results in
  Returns (slice_to results n_results).

(** [RAGPipeline._keyword_search] *)
Definition _keyword_search (c : C) (query_text : str) (n_results : Z)
  (document_ids : option (list str)) : list KeywordResult :=
  try_except (keyword_search_body c query_text n_results document_ids)
    (fun _ => []).

(** First loop of [_combine_search_results]. *)
Definition add_semantic (semantic_weight : Q) (result_map : dict CombinedResult)
  (r : SemanticResult) : dict CombinedResult :=
  dict_set result_map (sem_id r)
    {| base := inl r;
       semantic_confidence := sem_confidence r;
       keyword_confidence := 0;
       combined_confidence := sem_confidence r * semantic_weight |}.

(** Second loop of [_combine_search_results]. *)
Definition add_keyword (keyword_weight semantic_weight : Q)
  (result_map : dict CombinedResult) (r : KeywordResult) : dict CombinedResult :=
  match dict_get result_map (kw_id r) with
  | Some existing =>
      dict_set result_map (kw_id r)
        {| base := base existing;
           semantic_confidence := semantic_confidence existing;
           keyword_confidence := kw_confidence r;
           combined_confidence :=
             semantic_confidence existing * semantic_weight
             + kw_confidence r * keyword_weight |}
  | None =>
      dict_set result_map (kw_id r)
        {| base := inr r;
           semantic_confidence := 0;
           keyword_confidence := kw_confidence r;
           combined_confidence := kw_confidence r * keyword_weight |}
  end.

(** The [result_map] after both loops, from the normalized weights. *)
Definition fuse (semantic_results : list SemanticResult)
  (keyword_results : list KeywordResult) (keyword_weight semantic_weight : Q)
  : dict CombinedResult :=
  fold_left (add_keyword keyword_weight semantic_weight) keyword_results
    (fold_left (add_semantic semantic_weight) semantic_results []).

(** [RAGPipeline._combine_search_results] *)
Definition _combine_search_results (semantic_results : list SemanticResult)
  (keyword_results : list KeywordResult) (keyword_weight semantic_weight : Q)
  : outcome (list CombinedResult) :=
  let total_weight := (keyword_weight + semantic_weight)%Q in
  keyword_weight' <- fdiv keyword_weight total_weight ;;
  semantic_weight' <- fdiv semantic_weight total_weight ;;
  let result_map :=
    fuse semantic_results keyword_results keyword_weight' semantic_weight' in
  let combined_results := dict_values result_map in
  Returns (sort_desc Qltb combined_confidence combined_results).

(** [RAGPipeline.hybrid_search] *)
Definition hybrid_search (c : C) (query_text : str) (n_results : Z)
  (document_ids : option (list str)) (keyword_weight semantic_weight : Q)
  : HybridResponse :=
  try_except
    (let semantic_results :=
       query c query_text (n_results * 2) document_ids (1 # 2) in
     let keyword_results :=
       _keyword_search c query_text (n_results * 2) document_ids in
     combined_results <-
       _combine_search_results (response_results semantic_results)
         keyword_results keyword_weight semantic_weight ;;
     let final_results := slice_to combined_results n_results in
     Returns (HybridAnswer query_text final_results (len final_results)
                (len (response_results semantic_results))
                (len keyword_results)))
    (fun e => HybridFailure query_text [] 0 e).

End Pipeline.

(** *** [RAGPipeline.get_document_chunks] *)

(** An entry of [chunks] in [get_document_chunks]. *)
Record DocumentChunk : Type := {
  dc_id : str;
  dc_document : str;
  dc_metadata : metadata
}.

(** [a < b] on strings: by code points, a proper prefix first. *)
Fixpoint str_ltb (a b : str) : bool :=
  match a, b with
  | _, [] => false
  | [], _ :: _ => true
  | x :: a', y :: b' => (x <? y)%N || ((x =? y)%N && str_ltb a' b')
  end.

(** [list.sort(key=...)] without [reverse]: ascending and stable. *)
Definition sort_asc {A K : Type} (ltb : K -> K -> bool) (key : A -> K)
  (l : list A) : list A :=
  sort_desc (fun a b => ltb b a) key l.

(** The keys when they are all of type [int]. *)
Fixpoint int_keys {A : Type} (keyed : list (meta_value * A))
  : option (list (Z * A)) :=
  match keyed with
  | [] => Some []
  | (MInt i, a) :: rest =>
      match int_keys rest with
      | Some l => Some ((i, a) :: l)
      | None => None
      end
  | (MStr _, _) :: _ => None
  end.

(** The keys when they are all of type [str]. *)
Fixpoint str_keys {A : Type} (keyed : list (meta_value * A))
  : option (list (str * A)) :=
  match keyed with
  | [] => Some []
  | (MStr s, a) :: rest =>
      match str_keys rest with
      | Some l => Some ((s, a) :: l)
      | None => None
      end
  | (MInt _, _) :: _ => None
  end.

(** The sort of a list that carries its keys.  Integers compare with
    integers and strings with strings; a list that holds keys of both types
    makes the sort compare an integer with a string, which raises
    [TypeError]: [None]. *)
Definition sort_keyed {A : Type} (keyed : list (meta_value * A))
  : option (list A) :=
  match int_keys keyed with
  | Some l => Some (map snd (sort_asc Z.ltb fst l))
  | None =>
      match str_keys keyed with
      | Some l => Some (map snd (sort_asc str_ltb fst l))
      | None => None
      end
  end.

(** The keys [x['metadata']['chunk_index']]; a missing key raises
    [KeyError]: [None]. *)
Fixpoint chunk_index_keys (chunks : list DocumentChunk)
  : option (list (meta_value * DocumentChunk)) :=
  match chunks with
  | [] => Some []
  | ch :: rest =>
      match dict_get (dc_metadata ch) (of_string "chunk_index") with
      | Some k =>
          match chunk_index_keys rest with
          | Some l => Some ((k, ch) :: l)
          | None => None
          end
      | None => None
      end
  end.

(** The loop of [get_document_chunks] over [range(len(results['ids']))]. *)
Fixpoint build_chunks (results : GetResult) (idx : list Z)
  (chunks : list DocumentChunk) : outcome (list DocumentChunk) :=
  match idx with
  | [] => Returns chunks
  | i :: idx' =>
      id_ <- getitem (get_ids results) i ;;
      document <- getitem (get_documents results) i ;;
      metadata_ <- getitem (get_metadatas results) i ;;
      build_chunks results idx'
        (chunks ++ [ {| dc_id := id_; dc_document := document;
                        dc_metadata := metadata_ |} ])
  end.

Section PipelineReads.

Context {C : Type} {VI : VectorIndex C}.

(** The [try] block of [get_document_chunks]; [None] when an exception is
    raised in it, whichever it is: the handler does not look at it. *)
Definition get_document_chunks_body (c : C) (document_id : str)
  : option (list DocumentChunk) :=
  match collection_get c (Some (WhereDocument document_id)) with
  | Returns results =>
      match build_chunks results (range (length (get_ids results))) [] with
      | Returns chunks =>
          match chunk_index_keys chunks with
          | Some keyed => sort_keyed keyed
          | None => None
          end
      | Raises _ => None
      end
  | Raises _ => None
  end.

(** [RAGPipeline.get_document_chunks] *)
Definition get_document_chunks (c : C) (document_id : str)
  : list DocumentChunk :=
  match get_document_chunks_body c document_id with
  | Some chunks => chunks
  | None => []
  end.

End PipelineReads.

(** ** Fusion in the arithmetic of the code

    [_combine_search_results] once more, with each Python [float] as the
    binary64 number it is: the sum, the quotients and the products round, and
    the sum can overflow.  For keys that are not NaN, [<] on floats is a
    strict weak order and [list.sort(reverse=True)] is the stable descending
    sort; with a NaN among the keys Python's sort still returns a permutation
    of the list, in an order that nothing is stated about here. *)

Module Doubles.

Import PrimFloat.

Local Open Scope float_scope.

(** An entry of [semantic_results]. *)
Record SemanticResult : Type := {
  sem_id : str;
  sem_document : str;
  sem_metadata : metadata;
  sem_confidence : float;
  sem_distance : float
}.

(** An entry of [keyword_results]. *)
Record KeywordResult : Type := {
  kw_id : str;
  kw_document : str;
  kw_metadata : metadata;
  kw_confidence : float;
  kw_score : Z
}.

(** An entry of [result_map]. *)
Record CombinedResult : Type := {
  base : SemanticResult + KeywordResult;
  semantic_confidence : float;
  keyword_confidence : float;
  combined_confidence : float
}.

(** [a / b] on floats: a zero divisor, of either sign, raises; every other
    quotient is the one of IEEE 754. *)
Definition true_div (a b : float) : outcome float :=
  if b =? 0 then Raises ZeroDivisionError else Returns (a / b).

(** The three statements under [# Normalize weights]: the keyword weight and
    the semantic weight afterwards. *)
Definition normalize (keyword_weight semantic_weight : float)
  : outcome (float * float) :=
  let total_weight := keyword_weight + semantic_weight in
  keyword_weight' <- true_div keyword_weight total_weight ;;
  semantic_weight' <- true_div semantic_weight total_weight ;;
  Returns (keyword_weight', semantic_weight').

(** First loop of [_combine_search_results]. *)
Definition add_semantic (semantic_weight : float)
  (result_map : dict CombinedResult) (r : SemanticResult)
  : dict CombinedResult :=
  dict_set result_map (sem_id r)
    {| base := inl r;
       semantic_confidence := sem_confidence r;
       keyword_confidence := 0;
       combined_confidence := sem_confidence r * semantic_weight |}.

(** Second loop of [_combine_search_results]. *)
Definition add_keyword (keyword_weight semantic_weight : float)
  (result_map : dict CombinedResult) (r : KeywordResult)
  : dict CombinedResult :=
  match dict_get result_map (kw_id r) with
  | Some existing =>
      dict_set result_map (kw_id r)
        {| base := base existing;
           semantic_confidence := semantic_confidence existing;
           keyword_confidence := kw_confidence r;
           combined_confidence :=
             semantic_confidence existing * semantic_weight
             + kw_confidence r * keyword_weight |}
  | None =>
      dict_set result_map (kw_id r)
        {| base := inr r;
           semantic_confidence := 0;
           keyword_confidence := kw_confidence r;
           combined_confidence := kw_confidence r * keyword_weight |}
  end.

(** The [result_map] after both loops, from the normalized weights. *)
Definition fuse (semantic_results : list SemanticResult)
  (keyword_results : list KeywordResult)
  (keyword_weight semantic_weight : float) : dict CombinedResult :=
  fold_left (add_keyword keyword_weight semantic_weight) keyword_results
    (fold_left (add_semantic semantic_weight) semantic_results []).

(** [RAGPipeline._combine_search_results] *)
Definition _combine_search_results (semantic_results : list SemanticResult)
  (keyword_results : list KeywordResult)
  (keyword_weight semantic_weight : float) : outcome (list CombinedResult) :=
  weights <- normalize keyword_weight semantic_weight ;;
  let result_map :=
    fuse semantic_results keyword_results (fst weights) (snd weights) in
  let combined_results := dict_values result_map in
  Returns (sort_desc ltb combined_confidence combined_results).

(** *** Vocabulary *)

(** The chunk id of a fused result. *)
Definition chunk_of (v : CombinedResult) : str :=
  match base v with inl s => sem_id s | inr k => kw_id k end.

(** The entry of a chunk id in the semantic results: the last one. *)
Definition last_semantic (id_ : str) (semantic_results : list SemanticResult)
  : option SemanticResult :=
  find (fun r => PyStr.eqb (sem_id r) id_) (rev semantic_results).

(** The entry of a chunk id in the keyword results: the last one. *)
Definition last_keyword (id_ : str) (keyword_results : list KeywordResult)
  : option KeywordResult :=
  find (fun r => PyStr.eqb (kw_id r) id_) (rev keyword_results).

(** How many keyword results carry the chunk id. *)
Definition keyword_entries (id_ : str) (keyword_results : list KeywordResult)
  : nat :=
  length (filter (fun r => PyStr.eqb (kw_id r) id_) keyword_results).

(** The combined score of a chunk, as the loops compute it from the entries
    of the chunk in the two lists.  A chunk of the keyword results only gets
    [keyword_confidence * w_k]; when its id stands more than once in the
    keyword results the later entries go through the branch for a known id,
    which adds [0.0 * w_s] in front. *)
Definition score (keyword_weight semantic_weight : float)
  (s : option SemanticResult) (k : option KeywordResult) (entries : nat)
  : option float :=
  match s, k with
  | Some s, None => Some (sem_confidence s * semantic_weight)
  | None, Some k =>
      Some (if (entries =? 1)%nat then kw_confidence k * keyword_weight
            else 0 * semantic_weight + kw_confidence k * keyword_weight)
  | Some s, Some k =>
      Some (sem_confidence s * semantic_weight
            + kw_confidence k * keyword_weight)
  | None, None => None
  end.

(** What [result_map] holds for the chunk [id_]. *)
Definition fused (keyword_weight semantic_weight : float)
  (s : option SemanticResult) (k : option KeywordResult) (entries : nat)
  (id_ : str) (entry : option CombinedResult) : Prop :=
  match entry with
  | Some v =>
      chunk_of v = id_ /\
      semantic_confidence v
      = match s with Some s => sem_confidence s | None => 0 end /\
      keyword_confidence v
      = match k with Some k => kw_confidence k | None => 0 end /\
      score keyword_weight semantic_weight s k entries
      = Some (combined_confidence v)
  | None => s = None /\ k = None
  end.

(** The state of [result_map] once the semantic results [done_s] and the
    keyword results [done_k] are processed. *)
Definition fusion_invariant (keyword_weight semantic_weight : float)
  (result_map : dict CombinedResult) (done_s : list SemanticResult)
  (done_k : list KeywordResult) : Prop :=
  NoDup (dict_keys result_map) /\
  forall id_,
    fused keyword_weight semantic_weight (last_semantic id_ done_s)
      (last_keyword id_ done_k) (keyword_entries id_ done_k) id_
      (dict_get result_map id_).

(** No result is followed by one of a greater score. *)
Definition descending (l : list CombinedResult) : Prop :=
  StronglySorted
    (fun a b => (combined_confidence a <? combined_confidence b) = false) l.

(** Classes of IEEE 754 values, on the specification side of a double:
    not a NaN; a zero of either sign; a zero or above; above zero. *)
Definition not_nan (x : SpecFloat.spec_float) : Prop :=
  match x with SpecFloat.S754_nan => False | _ => True end.

Definition zero_float (x : SpecFloat.spec_float) : Prop :=
  match x with SpecFloat.S754_zero _ => True | _ => False end.

Definition nonneg_float (x : SpecFloat.spec_float) : Prop :=
  match x with
  | SpecFloat.S754_zero _ | SpecFloat.S754_finite false _ _
  | SpecFloat.S754_infinity false => True
  | _ => False
  end.

Definition positive_float (x : SpecFloat.spec_float) : Prop :=
  match x with
  | SpecFloat.S754_finite false _ _ | SpecFloat.S754_infinity false => True
  | _ => False
  end.

(** *** Sample inputs *)

(** 0.1, 0.3 and 0.7 to the nearest double. *)
Definition tenth : float := 0x1.999999999999ap-4.
Definition three_tenths : float := 0x1.3333333333333p-2.
Definition seven_tenths : float := 0x1.6666666666666p-1.

(** Two semantic results and a keyword result for the first of them. *)
Definition two_semantic : list SemanticResult :=
  [ {| sem_id := of_string "x"; sem_document := of_string "cat";
       sem_metadata := []; sem_confidence := 0.75; sem_distance := 0.25 |};
    {| sem_id := of_string "y"; sem_document := of_string "dog";
       sem_metadata := []; sem_confidence := 0.75; sem_distance := 0.25 |} ].

Definition one_keyword : list KeywordResult :=
  [ {| kw_id := of_string "x"; kw_document := of_string "cat";
       kw_metadata := []; kw_confidence := 0.5; kw_score := 1 |} ].

(** 1e308, 0.5 and 0.59 to the nearest double. *)
Definition huge : float := 0x1.1ccf385ebc8ap+1023.
Definition half : float := 0.5.
Definition fifty_nine_hundredths : float := 0x1.2e147ae147ae1p-1.

(** A chunk that both searches find with confidence 1.0. *)
Definition sure_semantic : list SemanticResult :=
  [ {| sem_id := of_string "x"; sem_document := of_string "cat";
       sem_metadata := []; sem_confidence := 1; sem_distance := 0 |} ].

Definition sure_keyword : list KeywordResult :=
  [ {| kw_id := of_string "x"; kw_document := of_string "cat";
       kw_metadata := []; kw_confidence := 1; kw_score := 1 |} ].

(** A chunk that stands twice in the keyword results. *)
Definition twice_keyword : list KeywordResult :=
  [ {| kw_id := of_string "a"; kw_document := of_string "cat";
       kw_metadata := []; kw_confidence := 1; kw_score := 2 |};
    {| kw_id := of_string "a"; kw_document := of_string "cat";
       kw_metadata := []; kw_confidence := 0.5; kw_score := 1 |} ].

(** Three semantic results, the second with a confidence that is NaN. *)
Definition nan_semantic : list SemanticResult :=
  [ {| sem_id := of_string "a"; sem_document := of_string "cat";
       sem_metadata := []; sem_confidence := 1; sem_distance := 0 |};
    {| sem_id := of_string "b"; sem_document := of_string "dog";
       sem_metadata := []; sem_confidence := nan; sem_distance := nan |};
    {| sem_id := of_string "c"; sem_document := of_string "eel";
       sem_metadata := []; sem_confidence := 2; sem_distance := -1 |} ].

End Doubles.

(** ** An in-memory collection

    A small index over unit vectors, for which the cosine distance is one
    minus the dot product.  It serves to run the pipeline on concrete
    inputs. *)

Module MemIndex.

Record StoredChunk : Type := {
  sc_id : str;
  sc_document : str;
  sc_metadata : metadata;
  sc_embedding : embedding
}.

Definition t : Type := list StoredChunk.

Fixpoint dot (u v : embedding) : Q :=
  match u, v with
  | a :: u', b :: v' => a * b + dot u' v'
  | _, _ => 0
  end.

Definition cosine_distance (u v : embedding) : Q := 1 - dot u v.

Definition document_id_of (m : metadata) : option str :=
  match dict_get m (of_string "document_id") with
  | Some (MStr d) => Some d
  | _ => None
  end.

Definition matches (w : option where_clause) (ch : StoredChunk) : bool :=
  match w, document_id_of (sc_metadata ch) with
  | None, _ => true
  | Some (WhereDocument d), Some d' => PyStr.eqb d' d
  | Some (WhereDocumentIn ds), Some d' => existsb (PyStr.eqb d') ds
  | Some _, None => false
  end.

Fixpoint zip4 (documents : list str) (metadatas : list metadata)
  (ids : list str) (embeddings : list embedding) : list StoredChunk :=
  match documents, metadatas, ids, embeddings with
  | d :: ds, m :: ms, i :: is_, e :: es =>
      {| sc_id := i; sc_document := d; sc_metadata := m; sc_embedding := e |}
      :: zip4 ds ms is_ es
  | _, _, _, _ => []
  end.

Definition add (c : t) (documents : list str) (metadatas : list metadata)
  (ids : list str) (embeddings : list embedding) : outcome unit * t :=
  if (length documents =? length ids)%nat
     && (length metadatas =? length ids)%nat
     && (length embeddings =? length ids)%nat
  then (Returns tt, c ++ zip4 documents metadatas ids embeddings)
  else (Raises (CollaboratorError 1), c).

Definition get (c : t) (w : option where_clause) : outcome GetResult :=
  let rows := filter (matches w) c in
  Returns {| get_ids := map sc_id rows;
             get_documents := map sc_document rows;
             get_metadatas := map sc_metadata rows |}.

Definition delete (c : t) (ids : list str) : outcome unit * t :=
  (Returns tt,
   filter (fun ch => negb (existsb (PyStr.eqb (sc_id ch)) ids)) c).

Definition nearest (c : t) (query_embeddings : list embedding) (n_results : Z)
  (w : option where_clause) : outcome QueryResult :=
  match query_embeddings with
  | [q] =>
      if n_results <=? 0 then Raises (CollaboratorError 2)
      else
        let rows :=
          map (fun ch => (cosine_distance q (sc_embedding ch), ch))
            (filter (matches w) c) in
        let ranked :=
          firstn (Z.to_nat n_results)
            (sort_desc (fun a b => Qltb b a) fst rows) in
        Returns {| qr_ids := map (fun r => sc_id (snd r)) ranked;
                   qr_documents := map (fun r => sc_document (snd r)) ranked;
                   qr_metadatas := map (fun r => sc_metadata (snd r)) ranked;
                   qr_distances := map fst ranked |}
  | _ => Raises (CollaboratorError 3)
  end.

#[export] Instance index : VectorIndex t := {
  collection_add := add;
  collection_get := get;
  collection_delete := delete;
  collection_query := nearest
}.

(** An encoder that sends every text to the first unit vector of the plane. *)
Definition unit_encoder : EmbeddingModel := {|
  encode := fun texts => Returns (map (fun _ => [1; 0]%Q) texts)
|}.

(** An encoder that is out of reach. *)
Definition failing_encoder : EmbeddingModel := {|
  encode := fun _ => Raises (CollaboratorError 4)
|}.

(** Lower-casing of the letters A to Z only. *)
Definition ascii_lower : CaseMapping := {|
  lower := map (fun ch => if ((65 <=? ch) && (ch <=? 90))%N then (ch + 32)%N else ch)
|}.

Definition doc_metadata (document_id : string) : metadata :=
  [ (of_string "document_id", MStr (of_string document_id)) ].

Definition chunk (id_ document_id text : string) (e : embedding) : StoredChunk :=
  {| sc_id := of_string id_; sc_document := of_string text;
     sc_metadata := doc_metadata document_id; sc_embedding := e |}.

(** Three chunks of two documents; the second chunk points away from the
    query direction of [unit_encoder]. *)
Definition sample : t :=
  [ chunk "a_chunk_0" "a" "The cat sat. The Cat ran." [1; 0]%Q;
    chunk "a_chunk_1" "a" "dogs bark" [-1; 0]%Q;
    chunk "b_chunk_0" "b" "cat and dog" [3 # 5; 4 # 5]%Q ].

End MemIndex.

(** ** Vocabulary of the statements *)

(** The start of the next window of the chunker, from the cut [e] of this
    one: the last statement of the loop body. *)
Definition next_start (text : str) (self : RAGPipeline) (e : Z) : Z :=
  if e <? len text then e - chunk_overlap self else e.

(** A text without sentence ends and without white space. *)
Definition plain (text : str) : Prop :=
  forall c, In c text -> is_sentence_ending c = false /\ isspace c = false.

(** The letter [a], 1000 times. *)
Definition a1000 : str := repeat 97%N 1000.

(** A nearest neighbour as the index reports it. *)
Record Neighbour : Type := {
  nb_id : str;
  nb_document : str;
  nb_metadata : metadata;
  nb_distance : Q
}.

(** The answer of [collection.query] that reports the neighbours [nbrs]. *)
Definition pack (nbrs : list Neighbour) : QueryResult :=
  {| qr_ids := map nb_id nbrs;
     qr_documents := map nb_document nbrs;
     qr_metadatas := map nb_metadata nbrs;
     qr_distances := map nb_distance nbrs |}.

(** The result dict [query] builds for a neighbour. *)
Definition hit (n : Neighbour) : SemanticResult :=
  {| sem_id := nb_id n; sem_document := nb_document n;
     sem_metadata := nb_metadata n;
     sem_confidence := 1 - nb_distance n;
     sem_distance := nb_distance n |}.

(** The threshold test of [query]. *)
Definition keeps (min_confidence : Q) (r : SemanticResult) : bool :=
  Qle_bool min_confidence (sem_confidence r).

(** Descending order of a key: no element is below a later one. *)
Definition descending {A : Type} (key : A -> Q) (l : list A) : Prop :=
  StronglySorted (fun a b => (key b <= key a)%Q) l.

(** The elements of [l] whose key equals [v], in the order of [l]. *)
Definition tied {A : Type} (key : A -> Q) (v : Q) (l : list A) : list A :=
  filter (fun a => Qeq_bool (key a) v) l.

(** The neighbours the in-memory index reports for the sample collection and
    the query direction of [unit_encoder], nearest first. *)
Definition sample_neighbours : list Neighbour :=
  map (fun ch =>
         {| nb_id := MemIndex.sc_id ch;
            nb_document := MemIndex.sc_document ch;
            nb_metadata := MemIndex.sc_metadata ch;
            nb_distance :=
              MemIndex.cosine_distance [1; 0]%Q (MemIndex.sc_embedding ch) |})
    [ MemIndex.chunk "a_chunk_0" "a" "The cat sat. The Cat ran." [1; 0]%Q;
      MemIndex.chunk "b_chunk_0" "b" "cat and dog" [3 # 5; 4 # 5]%Q;
      MemIndex.chunk "a_chunk_1" "a" "dogs bark" [-1; 0]%Q ].

(** A stored chunk as [collection.get] reports it. *)
Record StoredDoc : Type := {
  st_id : str;
  st_document : str;
  st_metadata : metadata
}.

(** The answer of [collection.get] that reports the chunks [docs]. *)
Definition pack_docs (docs : list StoredDoc) : GetResult :=
  {| get_ids := map st_id docs;
     get_documents := map st_document docs;
     get_metadatas := map st_metadata docs |}.

(** The sum, over the query terms, of the number of occurrences of the term
    in the text. *)
Definition occurrences (doc_lower : str) (query_terms : list str) : Z :=
  fold_right Z.add 0 (map (count doc_lower) query_terms).

(** The score of a stored chunk for the query terms. *)
Definition doc_score {CM : CaseMapping} (query_terms : list str)
  (d : StoredDoc) : Z :=
  occurrences (lower (st_document d)) query_terms.

(** The result dict of keyword search for a stored chunk. *)
Definition keyword_hit {CM : CaseMapping} (query_terms : list str)
  (d : StoredDoc) : KeywordResult :=
  {| kw_id := st_id d; kw_document := st_document d;
     kw_metadata := st_metadata d;
     kw_confidence :=
       fmin (inject_Z (doc_score query_terms d)
             / inject_Z (len query_terms)) 1;
     kw_score := doc_score query_terms d |}.

(** The chunks of the sample collection, as [collection.get] reports them. *)
Definition sample_docs : list StoredDoc :=
  map (fun ch =>
         {| st_id := MemIndex.sc_id ch;
            st_document := MemIndex.sc_document ch;
            st_metadata := MemIndex.sc_metadata ch |})
    MemIndex.sample.

(** The entry of a chunk id in the semantic results: the last one, which is
    the one the fusion keeps. *)
Definition last_semantic (id_ : str) (semantic_results : list SemanticResult)
  : option SemanticResult :=
  find (fun r => PyStr.eqb (sem_id r) id_) (rev semantic_results).

(** The entry of a chunk id in the keyword results. *)
Definition last_keyword (id_ : str) (keyword_results : list KeywordResult)
  : option KeywordResult :=
  find (fun r => PyStr.eqb (kw_id r) id_) (rev keyword_results).

(** The chunk id of a fused result. *)
Definition chunk_of (v : CombinedResult) : str := result_id (base v).

(** What the fusion holds for the chunk [id_], given its entries in the two
    result lists and the normalized weights. *)
Definition fused (keyword_weight semantic_weight : Q)
  (s : option SemanticResult) (k : option KeywordResult) (id_ : str)
  (entry : option CombinedResult) : Prop :=
  match s, k, entry with
  | None, None, None => True
  | Some s, None, Some v =>
      chunk_of v = id_ /\
      semantic_confidence v = sem_confidence s /\
      keyword_confidence v = 0%Q /\
      (combined_confidence v == sem_confidence s * semantic_weight)%Q
  | None, Some k, Some v =>
      chunk_of v = id_ /\
      semantic_confidence v = 0%Q /\
      keyword_confidence v = kw_confidence k /\
      (combined_confidence v == kw_confidence k * keyword_weight)%Q
  | Some s, Some k, Some v =>
      chunk_of v = id_ /\
      semantic_confidence v = sem_confidence s /\
      keyword_confidence v = kw_confidence k /\
      (combined_confidence v
       == sem_confidence s * semantic_weight
          + kw_confidence k * keyword_weight)%Q
  | _, _, _ => False
  end.

(** The state of [result_map] once the semantic results [done_s] and the
    keyword results [done_k] are processed. *)
Definition fusion_invariant (keyword_weight semantic_weight : Q)
  (result_map : dict CombinedResult) (done_s : list SemanticResult)
  (done_k : list KeywordResult) : Prop :=
  NoDup (dict_keys result_map) /\
  forall id_,
    fused keyword_weight semantic_weight (last_semantic id_ done_s)
      (last_keyword id_ done_k) id_ (dict_get result_map id_).

(** Two semantic results of equal confidence and a keyword result for the
    first of them. *)
Definition two_semantic : list SemanticResult :=
  [ {| sem_id := of_string "x"; sem_document := of_string "cat";
       sem_metadata := []; sem_confidence := 4 # 5; sem_distance := 1 # 5 |};
    {| sem_id := of_string "y"; sem_document := of_string "dog";
       sem_metadata := []; sem_confidence := 4 # 5; sem_distance := 1 # 5 |} ].

Definition one_keyword : list KeywordResult :=
  [ {| kw_id := of_string "x"; kw_document := of_string "cat";
       kw_metadata := []; kw_confidence := 1 # 2; kw_score := 1 |} ].

(** The fusion of the two sample lists under the weights 0.3 and 0.7. *)
Definition fused_sample : list CombinedResult :=
  match _combine_search_results two_semantic one_keyword (3 # 10) (7 # 10) with
  | Returns out => out
  | Raises _ => []
  end.

Definition blank_entry : CombinedResult :=
  {| base := inr {| kw_id := []; kw_document := []; kw_metadata := [];
                    kw_confidence := 0; kw_score := 0 |};
     semantic_confidence := 0; keyword_confidence := 0;
     combined_confidence := 0 |}.

(** The contract of the collection that removal relies on: once the ids that
    [get] reports for a filter are deleted, [get] reports none for it. *)
Definition delete_contract {C : Type} (VI : VectorIndex C) : Prop :=
  forall (c c' : C) (w : option where_clause) (r r' : GetResult),
    collection_get c w = Returns r ->
    collection_delete c (get_ids r) = (Returns tt, c') ->
    collection_get c' w = Returns r' ->
    get_ids r' = [].

(** The range [0, 1] of a confidence. *)
Definition unit_interval (q : Q) : Prop := (0 <= q <= 1)%Q.

(** A chunk as the chunker emits it: not empty, no white space at either
    end. *)
Definition stripped (s : str) : Prop :=
  s <> [] /\
  (forall ch, hd_error s = Some ch -> isspace ch = false) /\
  (forall ch, hd_error (rev s) = Some ch -> isspace ch = false).

(** [s] is a contiguous part of [text]. *)
Definition infix_of (s text : str) : Prop :=
  exists before after, text = before ++ s ++ after.

(** A text of white space only (the empty text included). *)
Definition blank (text : str) : Prop :=
  forall ch, In ch text -> isspace ch = true.

(** The three entries [index_document] itself puts in the metadata of chunk
    [i], before the entries of the caller are merged in. *)
Definition builtin_metadata (document_id : str) (i : Z) (chunk : str)
  : metadata :=
  [ (of_string "document_id", MStr document_id);
    (of_string "chunk_index", MInt i);
    (of_string "chunk_text",
     MStr (if 100 <? len chunk then slice_to chunk 100 ++ of_string "..."
           else chunk)) ].

(** The value the caller of [index_document] supplies for a key. *)
Definition caller_value (metadata_ : option metadata) (k : str)
  : option meta_value :=
  match metadata_ with
  | Some m => dict_get m k
  | None => None
  end.

(** The caller's metadata is a dict: no key twice. *)
Definition is_dict (metadata_ : option metadata) : Prop :=
  match metadata_ with
  | Some m => NoDup (dict_keys m)
  | None => True
  end.

(** The characters [0] to [9]. *)
Definition is_digit (ch : char) : Prop := (48 <= ch <= 57)%N.

(** The entry [get_document_chunks] builds for a stored chunk. *)
Definition document_chunk (d : StoredDoc) : DocumentChunk :=
  {| dc_id := st_id d; dc_document := st_document d;
     dc_metadata := st_metadata d |}.

(** The integer [chunk_index] of an entry, when it has one. *)
Definition chunk_index_of (ch : DocumentChunk) : option Z :=
  match dict_get (dc_metadata ch) (of_string "chunk_index") with
  | Some (MInt i) => Some i
  | _ => None
  end.

(** An encoder that answers with no vector at all. *)
Definition empty_encoder : EmbeddingModel := {|
  encode := fun _ => Returns []
|}.

(** The [chunk_index] of an entry that has an integer one. *)
Definition chunk_index_value (ch : DocumentChunk) : Z :=
  match chunk_index_of ch with
  | Some i => i
  | None => 0
  end.

(** Two chunks of a document [d], stored with the second chunk first. *)
Definition shuffled : MemIndex.t :=
  [ {| MemIndex.sc_id := of_string "d_chunk_1";
       MemIndex.sc_document := of_string "world";
       MemIndex.sc_metadata :=
         [ (of_string "document_id", MStr (of_string "d"));
           (of_string "chunk_index", MInt 1) ];
       MemIndex.sc_embedding := [1; 0]%Q |};
    {| MemIndex.sc_id := of_string "d_chunk_0";
       MemIndex.sc_document := of_string "hello";
       MemIndex.sc_metadata :=
         [ (of_string "document_id", MStr (of_string "d"));
           (of_string "chunk_index", MInt 0) ];
       MemIndex.sc_embedding := [1; 0]%Q |} ].

Definition stored (ch : MemIndex.StoredChunk) : StoredDoc :=
  {| st_id := MemIndex.sc_id ch;
     st_document := MemIndex.sc_document ch;
     st_metadata := MemIndex.sc_metadata ch |}.

(** * Properties *)

(** ** Lists and strings *)

Lemma getitem_in_range {A : Type} (l : list A) (i : Z) :
  0 <= i < len l ->
  exists x, getitem l i = Returns x /\ nth_error l (Z.to_nat i) = Some x.
Proof.
  intros [Hlo Hhi]. unfold getitem.
  destruct (Z.ltb_spec i 0) as [Hneg | _]; [lia |].
  destruct (Z.ltb_spec i 0) as [Hneg | _]; [lia |].
  destruct (Z.leb_spec (len l) i) as [Hout | _]; [lia |].
  simpl. destruct (nth_error l (Z.to_nat i)) as [x |] eqn:E.
  - exists x. split; reflexivity.
  - apply nth_error_None in E. unfold len in Hhi. lia.
Qed.

Lemma getitem_range_member {A : Type} (l : list A) (i : Z) (x : A) :
  0 <= i < len l -> getitem l i = Returns x -> In x l.
Proof.
  intros Hi Hget. destruct (getitem_in_range l Hi) as [y [Hy Hnth]].
  rewrite Hy in Hget. injection Hget as <-.
  eapply nth_error_In. exact Hnth.
Qed.

Lemma range_down_bounds (a b i : Z) : In i (range_down a b) -> b < i <= a.
Proof.
  unfold range_down. intros H. apply in_map_iff in H.
  destruct H as [k [<- Hk]]. apply in_seq in Hk. lia.
Qed.

Lemma len_nonneg {A : Type} (l : list A) : 0 <= len l.
Proof. unfold len. lia. Qed.

Lemma lstrip_plain (s : str) :
  (forall c, In c s -> isspace c = false) -> lstrip s = s.
Proof.
  destruct s as [| c s']; intros H; simpl.
  - reflexivity.
  - rewrite (H c (in_eq c s')). reflexivity.
Qed.

Lemma strip_plain (s : str) :
  (forall c, In c s -> isspace c = false) -> strip s = s.
Proof.
  intros H. unfold strip, rstrip.
  rewrite (lstrip_plain (rev s)).
  - rewrite rev_involutive. apply lstrip_plain. exact H.
  - intros c Hc. apply H. apply in_rev. exact Hc.
Qed.

Lemma slice_window {A : Type} (l : list A) (a b : Z) :
  0 <= a <= len l -> a <= b ->
  slice l a b = firstn (Z.to_nat (b - a)) (skipn (Z.to_nat a) l).
Proof.
  intros Ha Hb. unfold slice, clip.
  destruct (Z.ltb_spec a 0); [lia |].
  destruct (Z.ltb_spec b 0); [lia |].
  rewrite (Z.min_l a (len l)) by lia.
  destruct (Z.le_gt_cases b (len l)) as [Hle | Hgt].
  - rewrite Z.min_l by lia. reflexivity.
  - rewrite Z.min_r by lia.
    rewrite !firstn_all2; [reflexivity | | ];
      rewrite length_skipn; unfold len in *; lia.
Qed.

Lemma firstn_member {A : Type} (n : nat) (l : list A) (x : A) :
  In x (firstn n l) -> In x l.
Proof.
  intros H. rewrite <- (firstn_skipn n l). apply in_or_app. left. exact H.
Qed.

Lemma skipn_member {A : Type} (n : nat) (l : list A) (x : A) :
  In x (skipn n l) -> In x l.
Proof.
  intros H. rewrite <- (firstn_skipn n l). apply in_or_app. right. exact H.
Qed.

Lemma slice_member {A : Type} (l : list A) (a b : Z) (x : A) :
  In x (slice l a b) -> In x l.
Proof.
  unfold slice. intros H.
  apply (skipn_member (Z.to_nat (clip l a))).
  eapply firstn_member. exact H.
Qed.

(** ** The chunker *)

Section Chunker.

Variable text : str.

Lemma find_sentence_end_total (idx : list Z) :
  (forall i, In i idx -> 0 <= i < len text) ->
  exists r, find_sentence_end text (len text) idx = Returns r /\
            match r with
            | Some e => e < len text /\ In (e - 1) idx
            | None => True
            end.
Proof.
  induction idx as [| i idx IH]; intros Hidx; simpl.
  - exists None. split; [reflexivity | exact I].
  - destruct (getitem_in_range text (Hidx i (in_eq i idx))) as [c [Hc _]].
    rewrite Hc. simpl.
    destruct (is_sentence_ending c && (i + 1 <? len text)) eqn:E.
    + exists (Some (i + 1)). split; [reflexivity |].
      apply andb_true_iff in E. destruct E as [_ E]. apply Z.ltb_lt in E.
      split; [exact E | left; lia].
    + destruct IH as [r [Hr Hspec]].
      { intros j Hj. apply Hidx. right. exact Hj. }
      exists r. split; [exact Hr |].
      destruct r as [e |]; [| exact I].
      destruct Hspec as [He Hin]. split; [exact He | right; exact Hin].
Qed.

Lemma find_word_boundary_total (idx : list Z) :
  (forall i, In i idx -> 0 <= i < len text) ->
  exists r, find_word_boundary text idx = Returns r /\
            match r with
            | Some e => In e idx
            | None => True
            end.
Proof.
  induction idx as [| i idx IH]; intros Hidx; simpl.
  - exists None. split; [reflexivity | exact I].
  - destruct (getitem_in_range text (Hidx i (in_eq i idx))) as [c [Hc _]].
    rewrite Hc. simpl.
    destruct (char_eqb c SPACE).
    + exists (Some i). split; [reflexivity | left; reflexivity].
    + destruct (char_eqb c NEWLINE).
      * exists (Some i). split; [reflexivity | left; reflexivity].
      * destruct IH as [r [Hr Hspec]].
        { intros j Hj. apply Hidx. right. exact Hj. }
        exists r. split; [exact Hr |].
        destruct r as [e |]; [right; exact Hspec | exact I].
Qed.

(** The cut of a window of the configured pipeline: it exists, lies less than
    100 characters before the raw cut and at most one after it, and stays
    inside the text when the raw cut does. *)
Lemma find_cut_init (start : Z) :
  0 <= start ->
  exists e, find_cut init text start = Returns e /\
            start + 400 < e <= start + 501 /\
            (start + 500 < len text -> e < len text) /\
            (len text <= start + 500 -> e = start + 500).
Proof.
  intros Hstart. unfold find_cut.
  change (chunk_size init) with 500.
  destruct (Z.ltb_spec (start + 500) (len text)) as [Hin | Hout].
  - destruct (find_sentence_end_total
                (range_down (start + 500) (Z.max start (start + 500 - 100))))
      as [r [Hr Hspec]].
    { intros i Hi. apply range_down_bounds in Hi. lia. }
    rewrite Hr. simpl. destruct r as [e |].
    + destruct Hspec as [He Hi]. apply range_down_bounds in Hi.
      exists e. repeat split; try lia.
    + destruct (find_word_boundary_total
                  (range_down (start + 500) (Z.max start (start + 500 - 50))))
        as [r' [Hr' Hspec']].
      { intros i Hi. apply range_down_bounds in Hi. lia. }
      rewrite Hr'. simpl. destruct r' as [e |].
      * apply range_down_bounds in Hspec'.
        exists e. repeat split; try lia.
      * exists (start + 500). repeat split; try lia. 
  - exists (start + 500). repeat split; try lia.
Qed.

Lemma split_step_init (start : Z) (chunks : list str) :
  0 <= start ->
  exists e chunks',
    find_cut init text start = Returns e /\
    split_step init text start chunks = Returns (next_start text init e, chunks') /\
    start < next_start text init e.
Proof.
  intros Hstart.
  destruct (find_cut_init Hstart) as [e [He [Hrange [Hin Hout]]]].
  exists e. eexists. split; [exact He |]. split.
  - unfold split_step. rewrite He. simpl. reflexivity.
  - unfold next_start. change (chunk_overlap init) with 50.
    destruct (e <? len text); lia.
Qed.

Lemma split_loop_total (fuel : nat) :
  forall start chunks,
    0 <= start -> len text - start <= Z.of_nat fuel ->
    exists out, split_loop fuel init text start chunks = Some (Returns out).
Proof.
  induction fuel as [| fuel IH]; intros start chunks Hstart Hfuel; simpl.
  - destruct (Z.ltb_spec start (len text)); [lia |].
    exists chunks. reflexivity.
  - destruct (Z.ltb_spec start (len text)) as [Hlt | Hge].
    + destruct (split_step_init chunks Hstart) as [e [chunks' [_ [Hstep Hadv]]]].
      rewrite Hstep. apply IH; lia.
    + exists chunks. reflexivity.
Qed.

Lemma split_loop_more_fuel (self : RAGPipeline) (fuel : nat) :
  forall fuel' start chunks r,
    split_loop fuel self text start chunks = Some r ->
    (fuel <= fuel')%nat ->
    split_loop fuel' self text start chunks = Some r.
Proof.
  induction fuel as [| fuel IH]; intros fuel' start chunks r Hrun Hle.
  - simpl in Hrun. destruct fuel'; simpl;
      destruct (start <? len text); congruence.
  - destruct fuel' as [| fuel']; [lia |].
    simpl in *. destruct (start <? len text); [| exact Hrun].
    destruct (split_step self text start chunks) as [[start' chunks'] | e];
      [| exact Hrun].
    apply IH; [exact Hrun | lia].
Qed.

End Chunker.

Lemma split_text_returns (text : str) :
  exists chunks, _split_text init text = Some (Returns chunks).
Proof.
  unfold _split_text, _split_text_fuel.
  destruct (negb (truthy text)).
  - exists []. reflexivity.
  - apply split_loop_total; unfold len; lia.
Qed.

(** C9.  With the parameters [chunk_size = 500] and [chunk_overlap = 50] set
    by [__init__], the splitting loop ends on every text.  In each iteration
    the cut exists, lies at most 100 characters before the raw cut (and 100 is
    less than [chunk_size - chunk_overlap]), no overlap is taken off a cut at
    the end of the text, and the start of the window strictly advances; so
    [_split_text] returns a list of chunks for every text, and with any larger
    amount of fuel it returns the same list. *)
Theorem split_text_terminates (text : str) :
  (forall start chunks,
     0 <= start < len text ->
     exists e chunks',
       find_cut init text start = Returns e /\
       start + chunk_size init - 100 <= e /\
       100 < chunk_size init - chunk_overlap init /\
       split_step init text start chunks
         = Returns (next_start text init e, chunks') /\
       (len text <= e -> next_start text init e = e) /\
       start < next_start text init e) /\
  (exists chunks, _split_text init text = Some (Returns chunks)) /\
  (forall fuel,
     (length text <= fuel)%nat ->
     _split_text_fuel fuel init text = _split_text init text).
Proof.
  pose proof (split_text_returns text) as Htotal.
  split; [| split].
  - intros start chunks [Hstart _].
    destruct (split_step_init text chunks Hstart)
      as [e [chunks' [Hcut [Hstep Hadv]]]].
    destruct (find_cut_init text Hstart) as [e' [Hcut' [Hrange _]]].
    assert (e' = e) by congruence. subst e'.
    exists e, chunks'. repeat split; try assumption.
    + change (chunk_size init) with 500. lia.
    + intros Hend. unfold next_start.
      destruct (Z.ltb_spec e (len text)); [lia | reflexivity].
  - exact Htotal.
  - intros fuel Hfuel. destruct Htotal as [chunks Hrun]. rewrite Hrun.
    unfold _split_text, _split_text_fuel in *.
    destruct (negb (truthy text)); [exact Hrun |].
    eapply split_loop_more_fuel; eassumption.
Qed.

Lemma split_text_terminates_witness :
  let text := of_string "One. Two! Three" in
  (exists e chunks',
     find_cut init text 0 = Returns e /\
     0 + chunk_size init - 100 <= e /\
     100 < chunk_size init - chunk_overlap init /\
     split_step init text 0 [] = Returns (next_start text init e, chunks') /\
     (len text <= e -> next_start text init e = e) /\
     0 < next_start text init e) /\
  _split_text_fuel 40 init text = _split_text init text.
Proof.
  intros text.
  destruct (split_text_terminates text) as [Hstep [_ Hfuel]].
  split.
  - apply (Hstep 0 []). vm_compute. split; [discriminate | reflexivity].
  - apply Hfuel. vm_compute. lia.
Defined.

Section PlainText.

Variable text : str.
Hypothesis Hplain : plain text.

Lemma find_sentence_end_plain (idx : list Z) :
  (forall i, In i idx -> 0 <= i < len text) ->
  find_sentence_end text (len text) idx = Returns None.
Proof.
  induction idx as [| i idx IH]; intros Hidx; simpl.
  - reflexivity.
  - destruct (getitem_in_range text (Hidx i (in_eq i idx))) as [c [Hc Hnth]].
    rewrite Hc. simpl.
    destruct (Hplain c (nth_error_In _ _ Hnth)) as [Hend _].
    rewrite Hend. simpl. apply IH. intros j Hj. apply Hidx. right. exact Hj.
Qed.

Lemma isspace_blank (c : char) :
  isspace c = false -> char_eqb c SPACE = false /\ char_eqb c NEWLINE = false.
Proof.
  intros Hc. unfold char_eqb, SPACE, NEWLINE.
  split; apply N.eqb_neq; intros ->; vm_compute in Hc; discriminate.
Qed.

Lemma find_word_boundary_plain (idx : list Z) :
  (forall i, In i idx -> 0 <= i < len text) ->
  find_word_boundary text idx = Returns None.
Proof.
  induction idx as [| i idx IH]; intros Hidx; simpl.
  - reflexivity.
  - destruct (getitem_in_range text (Hidx i (in_eq i idx))) as [c [Hc Hnth]].
    rewrite Hc. simpl.
    destruct (Hplain c (nth_error_In _ _ Hnth)) as [_ Hsp].
    destruct (isspace_blank c Hsp) as [H1 H2].
    rewrite H1, H2. apply IH. intros j Hj. apply Hidx. right. exact Hj.
Qed.

Lemma find_cut_plain (start : Z) :
  0 <= start -> find_cut init text start = Returns (start + 500).
Proof.
  intros Hstart. unfold find_cut. change (chunk_size init) with 500.
  destruct (Z.ltb_spec (start + 500) (len text)) as [Hin | Hout];
    [| reflexivity].
  rewrite find_sentence_end_plain.
  - simpl. rewrite find_word_boundary_plain; [reflexivity |].
    intros i Hi. apply range_down_bounds in Hi. lia.
  - intros i Hi. apply range_down_bounds in Hi. lia.
Qed.

Lemma split_step_plain (start : Z) (chunks : list str) :
  0 <= start < len text ->
  split_step init text start chunks
  = Returns (next_start text init (start + 500),
             chunks ++ [firstn 500 (skipn (Z.to_nat start) text)]).
Proof.
  intros Hstart. unfold split_step.
  rewrite find_cut_plain by lia. simpl bind.
  rewrite strip_plain.
  - rewrite slice_window by lia.
    replace (Z.to_nat (start + 500 - start)) with 500%nat by lia.
    destruct (firstn 500 (skipn (Z.to_nat start) text)) as [| c w] eqn:E.
    + apply (f_equal (@length _)) in E.
      rewrite length_firstn, length_skipn in E. unfold len in Hstart.
      cbn [length] in E. lia.
    + reflexivity.
  - intros c Hc. apply slice_member in Hc. apply Hplain. exact Hc.
Qed.

End PlainText.

Lemma split_loop_step_plain (text : str) (fuel : nat) (start : Z)
  (chunks : list str) :
  plain text -> 0 <= start < len text ->
  split_loop (S fuel) init text start chunks
  = split_loop fuel init text (next_start text init (start + 500))
      (chunks ++ [firstn 500 (skipn (Z.to_nat start) text)]).
Proof.
  intros Hplain Hstart. cbn [split_loop].
  destruct (Z.ltb_spec start (len text)); [| lia].
  rewrite (split_step_plain Hplain) by assumption. reflexivity.
Qed.

Lemma split_loop_done (self : RAGPipeline) (text : str) (fuel : nat)
  (start : Z) (chunks : list str) :
  len text <= start ->
  split_loop fuel self text start chunks = Some (Returns chunks).
Proof.
  intros Hend. destruct fuel; cbn [split_loop];
    destruct (Z.ltb_spec start (len text)); (lia || reflexivity).
Qed.

Lemma split_loop_plain_1000 (text : str) :
  length text = 1000%nat -> plain text ->
  split_loop 3 init text 0 []
  = Some (Returns [firstn 500 text; firstn 500 (skipn 450 text); skipn 900 text]).
Proof.
  intros Hlen Hplain.
  assert (Hl : len text = 1000) by (unfold len; rewrite Hlen; reflexivity).
  assert (H1 : next_start text init (0 + 500) = 450)
    by (unfold next_start; rewrite Hl; reflexivity).
  assert (H2 : next_start text init (450 + 500) = 900)
    by (unfold next_start; rewrite Hl; reflexivity).
  assert (H3 : next_start text init (900 + 500) = 1400)
    by (unfold next_start; rewrite Hl; reflexivity).
  rewrite split_loop_step_plain, H1 by (assumption || lia).
  rewrite split_loop_step_plain, H2 by (assumption || lia).
  rewrite split_loop_step_plain, H3 by (assumption || lia).
  rewrite split_loop_done by lia.
  change (Z.to_nat 0) with 0%nat. change (Z.to_nat 450) with 450%nat.
  change (Z.to_nat 900) with 900%nat.
  rewrite skipn_0.
  rewrite (firstn_all2 (n := 500) (skipn 900 text))
    by (rewrite length_skipn; lia).
  reflexivity.
Qed.

(** C2.  A text of exactly 1000 characters without sentence ends and without
    white space is split, with [chunk_size = 500] and [chunk_overlap = 50],
    into exactly three chunks: the characters 0..499, 450..949 and 900..999.
    The second chunk starts at index 450; the window then moves on to 900,
    which gives the third chunk. *)
Theorem split_text_1000_plain (text : str) :
  length text = 1000%nat -> plain text ->
  _split_text init text
  = Some (Returns [firstn 500 text; firstn 500 (skipn 450 text);
                   skipn 900 text]).
Proof.
  intros Hlen Hplain. unfold _split_text, _split_text_fuel.
  destruct text as [| c text']; [discriminate Hlen |].
  cbn [truthy negb].
  apply split_loop_more_fuel with (fuel := 3%nat).
  - apply split_loop_plain_1000; assumption.
  - rewrite Hlen. lia.
Qed.

Lemma a1000_plain : plain a1000.
Proof.
  intros c Hc. apply repeat_spec in Hc. subst c. split; reflexivity.
Qed.

Lemma split_text_1000_plain_witness :
  length a1000 = 1000%nat /\ plain a1000 /\
  _split_text init a1000
  = Some (Returns [firstn 500 a1000; firstn 500 (skipn 450 a1000);
                   skipn 900 a1000]).
Proof.
  split; [reflexivity |]. split; [exact a1000_plain |].
  apply (@split_text_1000_plain a1000); [reflexivity | exact a1000_plain].
Defined.

(** C2, with two chunks: not so.  The 1000 characters [a1000] give three
    chunks. *)
Lemma split_text_1000_two_chunks_cex :
  ~ (forall text : str,
       length text = 1000%nat -> plain text ->
       exists c1 c2,
         _split_text init text = Some (Returns [c1; c2]) /\
         c2 = firstn (length c2) (skipn 450 text)).
Proof.
  intros H.
  destruct (H a1000 eq_refl a1000_plain) as [c1 [c2 [Hrun _]]].
  vm_compute in Hrun. discriminate Hrun.
Qed.

(** ** The stable descending sort *)

Section StableSortFacts.

Context {A K : Type} (ltb : K -> K -> bool) (key : A -> K).

Lemma insert_desc_perm (x : A) (l : list A) :
  Permutation (insert_desc ltb key x l) (x :: l).
Proof.
  induction l as [| y l IH]; simpl.
  - apply Permutation_refl.
  - destruct (ltb (key x) (key y)).
    + eapply perm_trans; [apply perm_skip; exact IH | apply perm_swap].
    + apply Permutation_refl.
Qed.

Lemma sort_desc_perm (l : list A) : Permutation (sort_desc ltb key l) l.
Proof.
  induction l as [| x l IH]; simpl.
  - apply perm_nil.
  - eapply perm_trans; [apply insert_desc_perm | apply perm_skip; exact IH].
Qed.

Lemma sort_desc_member (l : list A) (x : A) :
  In x (sort_desc ltb key l) <-> In x l.
Proof.
  split; apply Permutation_in;
    [apply sort_desc_perm | apply Permutation_sym, sort_desc_perm].
Qed.

Lemma sort_desc_length (l : list A) :
  length (sort_desc ltb key l) = length l.
Proof. apply Permutation_length, sort_desc_perm. Qed.

(** Elements that the order does not separate keep their order. *)
Section Stable.

Variable p : A -> bool.
Hypothesis p_tied :
  forall a b, p a = true -> p b = true -> ltb (key a) (key b) = false.

Lemma insert_desc_filter (x : A) (l : list A) :
  filter p (insert_desc ltb key x l) = filter p (x :: l).
Proof.
  induction l as [| y l IH].
  - reflexivity.
  - cbn [insert_desc]. destruct (ltb (key x) (key y)) eqn:E; [| reflexivity].
    cbn [filter] in *. rewrite IH.
    destruct (p x) eqn:Px, (p y) eqn:Py; try reflexivity.
    rewrite (p_tied Px Py) in E. discriminate E.
Qed.

Lemma sort_desc_stable (l : list A) :
  filter p (sort_desc ltb key l) = filter p l.
Proof.
  induction l as [| x l IH].
  - reflexivity.
  - cbn [sort_desc fold_right]. fold (sort_desc ltb key l).
    rewrite insert_desc_filter. cbn [filter]. rewrite IH. reflexivity.
Qed.

End Stable.

(** Order, for a strict weak order [ltb]. *)
Section Ordered.

Hypothesis ltb_asym : forall a b, ltb a b = true -> ltb b a = false.
Hypothesis ltb_negtrans :
  forall a b c, ltb a b = false -> ltb b c = false -> ltb a c = false.

Let not_below (x y : A) : Prop := ltb (key x) (key y) = false.

Lemma insert_desc_sorted (x : A) (l : list A) :
  StronglySorted not_below l ->
  StronglySorted not_below (insert_desc ltb key x l).
Proof.
  induction 1 as [| y l Hsorted IH Hall]; simpl.
  - constructor; constructor.
  - destruct (ltb (key x) (key y)) eqn:E.
    + constructor; [exact IH |].
      apply Forall_forall. intros z Hz.
      apply (Permutation_in _ (insert_desc_perm x l)) in Hz.
      destruct Hz as [<- | Hz].
      * apply ltb_asym. exact E.
      * rewrite Forall_forall in Hall. apply Hall. exact Hz.
    + constructor; [constructor; assumption |].
      constructor; [exact E |].
      apply Forall_forall. intros z Hz.
      rewrite Forall_forall in Hall.
      apply ltb_negtrans with (b := key y); [exact E | apply Hall; exact Hz].
Qed.

Lemma sort_desc_sorted (l : list A) :
  StronglySorted not_below (sort_desc ltb key l).
Proof.
  induction l as [| x l IH]; simpl.
  - constructor.
  - apply insert_desc_sorted. exact IH.
Qed.

End Ordered.

End StableSortFacts.

(** *** Float keys *)

Lemma Qltb_lt (a b : Q) : Qltb a b = true <-> (a < b)%Q.
Proof.
  unfold Qltb. rewrite negb_true_iff, <- not_true_iff_false, Qle_bool_iff.
  split.
  - apply Qnot_le_lt.
  - apply Qlt_not_le.
Qed.

Lemma Qltb_ge (a b : Q) : Qltb a b = false <-> (b <= a)%Q.
Proof.
  unfold Qltb. rewrite negb_false_iff. apply Qle_bool_iff.
Qed.

Lemma StronglySorted_weaken {A : Type} (R S : A -> A -> Prop) (l : list A) :
  (forall a b, R a b -> S a b) -> StronglySorted R l -> StronglySorted S l.
Proof.
  intros HRS. induction 1 as [| x l Hsorted IH Hall]; constructor.
  - exact IH.
  - eapply Forall_impl; [| exact Hall]. intros b. apply HRS.
Qed.

Lemma sort_desc_Q_descending {A : Type} (key : A -> Q) (l : list A) :
  descending key (sort_desc Qltb key l).
Proof.
  unfold descending.
  eapply StronglySorted_weaken; [| apply sort_desc_sorted ].
  - intros a b Hab. apply Qltb_ge. exact Hab.
  - intros a b Hab. apply Qltb_lt in Hab. apply Qltb_ge.
    apply Qlt_le_weak. exact Hab.
  - intros a b c0 Hab Hbc. apply Qltb_ge in Hab, Hbc. apply Qltb_ge.
    eapply Qle_trans; eassumption.
Qed.

Lemma sort_desc_Q_tied {A : Type} (key : A -> Q) (v : Q) (l : list A) :
  tied key v (sort_desc Qltb key l) = tied key v l.
Proof.
  unfold tied. apply sort_desc_stable.
  intros a b Ha Hb. apply Qeq_bool_iff in Ha, Hb. apply Qltb_ge.
  rewrite Ha, Hb. apply Qle_refl.
Qed.

(** ** Semantic search *)

Lemma getitem_map_nth {A B : Type} (f : A -> B) (l : list A) (k : nat) (x : A) :
  nth_error l k = Some x -> getitem (map f l) (Z.of_nat k) = Returns (f x).
Proof.
  intros Hx. unfold getitem, len. rewrite length_map.
  assert (Hk : (k < length l)%nat) by (apply nth_error_Some; congruence).
  destruct (Z.ltb_spec (Z.of_nat k) 0); [lia |].
  destruct (Z.ltb_spec (Z.of_nat k) 0); [lia |].
  destruct (Z.leb_spec (Z.of_nat (length l)) (Z.of_nat k)); [lia |].
  simpl. rewrite Nat2Z.id, nth_error_map, Hx. reflexivity.
Qed.

Lemma skipn_nth_cons {A : Type} (l : list A) :
  forall k x, nth_error l k = Some x -> skipn k l = x :: skipn (S k) l.
Proof.
  induction l as [| y l IH]; intros [| k] x Hx; simpl in *; try discriminate.
  - injection Hx as ->. reflexivity.
  - apply IH. exact Hx.
Qed.

Section SemanticSearch.

Context {C : Type} {VI : VectorIndex C} {EM : EmbeddingModel}.

Lemma process_results_pack (nbrs : list Neighbour) (min_confidence : Q) :
  forall n k acc,
    (k + n = length nbrs)%nat ->
    process_results (pack nbrs) min_confidence (map Z.of_nat (seq k n)) acc
    = Returns (acc ++ filter (keeps min_confidence) (map hit (skipn k nbrs))).
Proof.
  induction n as [| n IH]; intros k acc Hk.
  - rewrite skipn_all2 by lia. simpl. rewrite app_nil_r. reflexivity.
  - destruct (nth_error nbrs k) as [x |] eqn:Hx;
      [| apply nth_error_None in Hx; lia].
    cbn [seq map process_results pack qr_ids qr_documents qr_metadatas
         qr_distances].
    rewrite (getitem_map_nth nb_id _ _ Hx). cbn [bind].
    rewrite (getitem_map_nth nb_document _ _ Hx). cbn [bind].
    rewrite (getitem_map_nth nb_metadata _ _ Hx). cbn [bind].
    rewrite (getitem_map_nth nb_distance _ _ Hx). cbn [bind].
    fold (pack nbrs). rewrite IH by lia.
    rewrite (skipn_nth_cons _ _ Hx). cbn [map filter].
    unfold keeps at 2. unfold hit at 2. cbn [sem_confidence].
    destruct (Qle_bool min_confidence (1 - nb_distance x)).
    + rewrite <- app_assoc. reflexivity.
    + reflexivity.
Qed.

(** What [query] answers when the index reports the neighbours [nbrs]. *)
Lemma query_answer (c : C) (query_text : str) (n_results : Z)
  (document_ids : option (list str)) (min_confidence : Q)
  (query_embedding : list embedding) (nbrs : list Neighbour) :
  encode [query_text] = Returns query_embedding ->
  collection_query c query_embedding n_results (where_of document_ids)
  = Returns (pack nbrs) ->
  response_results (query c query_text n_results document_ids min_confidence)
  = sort_desc Qltb sem_confidence
      (filter (keeps min_confidence) (map hit nbrs)).
Proof.
  intros Henc Hq. unfold query. rewrite Henc. cbn [bind]. rewrite Hq.
  cbn [bind]. unfold range.
  change (qr_ids (pack nbrs)) with (map nb_id nbrs). rewrite length_map.
  rewrite (process_results_pack nbrs min_confidence (length nbrs) 0 [])
    by reflexivity.
  reflexivity.
Qed.

End SemanticSearch.

(** C4.  When the index reports the neighbours [nbrs], [query] returns exactly
    those whose confidence, one minus the distance, is at least
    [min_confidence]: the results are a permutation of the kept neighbours,
    none has a confidence below [min_confidence], they are in descending order
    of confidence, and results of equal confidence stand in the order in which
    they were retrieved. *)
Theorem query_threshold_and_order {C : Type} {VI : VectorIndex C}
  {EM : EmbeddingModel} (c : C) (query_text : str) (n_results : Z)
  (document_ids : option (list str)) (min_confidence : Q)
  (query_embedding : list embedding) (nbrs : list Neighbour) :
  encode [query_text] = Returns query_embedding ->
  collection_query c query_embedding n_results (where_of document_ids)
  = Returns (pack nbrs) ->
  let kept := filter (keeps min_confidence) (map hit nbrs) in
  let results :=
    response_results (query c query_text n_results document_ids min_confidence)
  in
  Permutation results kept /\
  (forall r, In r results <->
             In r (map hit nbrs) /\ (min_confidence <= sem_confidence r)%Q) /\
  (forall r, In r results -> ~ (sem_confidence r < min_confidence)%Q) /\
  (forall r, In r results ->
             (sem_confidence r == 1 - sem_distance r)%Q) /\
  descending sem_confidence results /\
  (forall v, tied sem_confidence v results = tied sem_confidence v kept).
Proof.
  intros Henc Hq kept results.
  assert (Hres : results = sort_desc Qltb sem_confidence kept)
    by (apply (query_answer _ _ _ _ _ Henc Hq)).
  assert (Hmem : forall r, In r results <->
                   In r (map hit nbrs) /\ (min_confidence <= sem_confidence r)%Q).
  { intros r. rewrite Hres, sort_desc_member. unfold kept.
    rewrite filter_In. unfold keeps. rewrite Qle_bool_iff. reflexivity. }
  split; [rewrite Hres; apply sort_desc_perm |].
  split; [exact Hmem |].
  split; [| split; [| split]].
  - intros r Hr Hlt. apply Hmem in Hr. destruct Hr as [_ Hle].
    exact (Qlt_not_le _ _ Hlt Hle).
  - intros r Hr. apply Hmem in Hr. destruct Hr as [Hr _].
    apply in_map_iff in Hr. destruct Hr as [n [<- _]]. reflexivity.
  - rewrite Hres. apply sort_desc_Q_descending.
  - intros v. rewrite Hres. apply sort_desc_Q_tied.
Qed.

Lemma query_threshold_and_order_witness :
  let results :=
    response_results
      (query (VI := MemIndex.index) (EM := MemIndex.unit_encoder)
         MemIndex.sample (of_string "cat") 5 None (1 # 2)) in
  let kept := filter (keeps (1 # 2)) (map hit sample_neighbours) in
  Permutation results kept /\
  (forall r, In r results <->
             In r (map hit sample_neighbours) /\ (1 # 2 <= sem_confidence r)%Q) /\
  (forall r, In r results -> ~ (sem_confidence r < 1 # 2)%Q) /\
  (forall r, In r results -> (sem_confidence r == 1 - sem_distance r)%Q) /\
  descending sem_confidence results /\
  (forall v, tied sem_confidence v results = tied sem_confidence v kept).
Proof.
  apply (@query_threshold_and_order _ MemIndex.index MemIndex.unit_encoder
           MemIndex.sample (of_string "cat") 5 None (1 # 2)
           [[1; 0]%Q] sample_neighbours);
    reflexivity.
Defined.

(** ** Keyword search *)

Lemma contains_false_count_from (t : str) :
  forall s skip, contains s t = false -> count_from s t skip = 0.
Proof.
  induction s as [| c s IH]; intros skip Hc.
  - reflexivity.
  - cbn [contains] in Hc. apply orb_false_iff in Hc. destruct Hc as [Hstart Hrest].
    cbn [count_from]. destruct skip as [| k].
    + rewrite Hstart. apply IH. exact Hrest.
    + apply IH. exact Hrest.
Qed.

Lemma contains_false_count (s t : str) : contains s t = false -> count s t = 0.
Proof.
  destruct t as [| b t].
  - destruct s; discriminate.
  - intros H. unfold count. apply contains_false_count_from. exact H.
Qed.

Lemma count_from_nonneg (t : str) : forall s skip, 0 <= count_from s t skip.
Proof.
  induction s as [| c s IH]; intros skip; cbn [count_from].
  - lia.
  - destruct skip.
    + destruct (startswith (c :: s) t); [specialize (IH (length t - 1)%nat) |
                                         specialize (IH 0%nat)]; lia.
    + apply IH.
Qed.

Lemma count_nonneg (s t : str) : 0 <= count s t.
Proof.
  destruct t; unfold count; [pose proof (len_nonneg s); lia |].
  apply count_from_nonneg.
Qed.

Lemma term_score_from (doc_lower : str) (query_terms : list str) :
  forall z,
    fold_left
      (fun score term =>
         if contains doc_lower term then score + count doc_lower term
         else score) query_terms z
    = z + occurrences doc_lower query_terms.
Proof.
  unfold occurrences.
  induction query_terms as [| t ts IH]; intros z; simpl.
  - lia.
  - rewrite IH. destruct (contains doc_lower t) eqn:E.
    + lia.
    + rewrite (contains_false_count _ _ E). lia.
Qed.

(** The score the loop computes is the sum of the occurrence counts. *)
Lemma term_score_occurrences (doc_lower : str) (query_terms : list str) :
  term_score doc_lower query_terms = occurrences doc_lower query_terms.
Proof. unfold term_score. rewrite term_score_from. lia. Qed.

Lemma occurrences_nonneg (doc_lower : str) (query_terms : list str) :
  0 <= occurrences doc_lower query_terms.
Proof.
  unfold occurrences. induction query_terms as [| t ts IH]; simpl.
  - lia.
  - pose proof (count_nonneg doc_lower t). lia.
Qed.

Lemma fdiv_returns (a b q : Q) :
  fdiv a b = Returns q -> ~ (b == 0)%Q /\ q = (a / b)%Q.
Proof.
  unfold fdiv. destruct (Qeq_bool b 0) eqn:E; [discriminate |].
  intros H. injection H as <-. split; [| reflexivity].
  apply Qeq_bool_neq. exact E.
Qed.

Lemma fdiv_nonzero (a b : Q) : ~ (b == 0)%Q -> fdiv a b = Returns (a / b)%Q.
Proof.
  intros Hb. unfold fdiv. destruct (Qeq_bool b 0) eqn:E; [| reflexivity].
  apply Qeq_bool_iff in E. contradiction.
Qed.

Lemma fmin_Qmin (a b : Q) : (fmin a b == Qmin a b)%Q.
Proof.
  unfold fmin. destruct (Qltb b a) eqn:E.
  - apply Qltb_lt in E. symmetry. apply Q.min_r. apply Qlt_le_weak. exact E.
  - apply Qltb_ge in E. symmetry. apply Q.min_l. exact E.
Qed.

Lemma fmin_unit (q : Q) : (0 < q)%Q -> (0 < fmin q 1 <= 1)%Q.
Proof.
  intros Hq. unfold fmin. destruct (Qltb 1 q) eqn:E.
  - split; [reflexivity | apply Qle_refl].
  - apply Qltb_ge in E. split; assumption.
Qed.

Lemma ratio_positive (score n : Z) :
  0 < score -> 0 < n -> (0 < inject_Z score / inject_Z n)%Q.
Proof.
  intros Hs Hn. apply Qlt_shift_div_l.
  - change 0%Q with (inject_Z 0). rewrite <- Zlt_Qlt. exact Hn.
  - rewrite Qmult_0_l. change 0%Q with (inject_Z 0). rewrite <- Zlt_Qlt.
    exact Hs.
Qed.

Lemma inject_Z_nonzero (n : Z) : n <> 0 -> ~ (inject_Z n == 0)%Q.
Proof.
  intros Hn H. apply Hn. unfold Qeq in H. simpl in H. lia.
Qed.

Lemma split_from_blank :
  forall s, (forall c, In c s -> isspace c = true) -> split_from s [] = [].
Proof.
  induction s as [| c s IH]; intros H; simpl.
  - reflexivity.
  - rewrite (H c (in_eq c s)). apply IH. intros d Hd. apply H. right. exact Hd.
Qed.

Lemma slice_to_firstn {A : Type} (l : list A) (n : Z) :
  0 <= n -> slice_to l n = firstn (Z.to_nat n) l.
Proof.
  intros Hn. unfold slice_to. rewrite slice_window.
  - rewrite Z.sub_0_r. reflexivity.
  - pose proof (len_nonneg l). lia.
  - exact Hn.
Qed.

Lemma Z_ltb_descending (l : list KeywordResult) :
  StronglySorted (fun a b => kw_score b <= kw_score a)
    (sort_desc Z.ltb kw_score l).
Proof.
  eapply StronglySorted_weaken; [| apply sort_desc_sorted].
  - intros a b Hab. apply Z.ltb_ge. exact Hab.
  - intros a b Hab. apply Z.ltb_lt in Hab. apply Z.ltb_ge. lia.
  - intros a b c0 Hab Hbc. apply Z.ltb_ge in Hab, Hbc. apply Z.ltb_ge. lia.
Qed.

Section KeywordSearch.

Context {C : Type} {VI : VectorIndex C} {CM : CaseMapping}.

(** The scan never takes the division with a zero divisor, and whatever it
    adds has a positive score and a confidence in (0, 1]. *)
Lemma keyword_scan_invariant (all_docs : GetResult) (query_terms : list str) :
  forall rows acc,
    match keyword_scan all_docs query_terms rows acc with
    | Returns out =>
        forall r, In r out ->
                  In r acc \/
                  (0 < kw_score r /\ (0 < kw_confidence r <= 1)%Q)
    | Raises e => e = IndexError
    end.
Proof.
  induction rows as [| [i doc] rows IH]; intros acc; cbn [keyword_scan].
  - intros r Hr. left. exact Hr.
  - cbv zeta. destruct (Z.ltb_spec 0 (term_score (lower doc) query_terms))
      as [Hpos | Hzero]; [| apply IH].
    assert (Hterms : 0 < len query_terms).
    { destruct query_terms; [cbv in Hpos; discriminate | unfold len; simpl; lia]. }
    destruct (getitem (get_ids all_docs) i) as [id_ | e] eqn:Hid; cbn [bind].
    2:{ unfold getitem in Hid.
        destruct ((_ <? 0) || _) in Hid; [congruence |].
        destruct (nth_error _ _) in Hid; congruence. }
    destruct (getitem (get_metadatas all_docs) i) as [md | e] eqn:Hmd; cbn [bind].
    2:{ unfold getitem in Hmd.
        destruct ((_ <? 0) || _) in Hmd; [congruence |].
        destruct (nth_error _ _) in Hmd; congruence. }
    rewrite fdiv_nonzero by (apply inject_Z_nonzero; lia). cbn [bind].
    match goal with |- context [keyword_scan _ _ rows ?a] =>
      specialize (IH a) end.
    destruct (keyword_scan all_docs query_terms rows _) as [out | e];
      [| exact IH].
    intros r Hr. destruct (IH r Hr) as [Hacc | Hnew]; [| right; exact Hnew].
    apply in_app_or in Hacc. destruct Hacc as [Hacc | [<- | []]];
      [left; exact Hacc | right].
    cbn [kw_score kw_confidence]. split; [exact Hpos |].
    apply fmin_unit. apply ratio_positive; assumption.
Qed.

Lemma keyword_scan_no_terms (all_docs : GetResult) :
  forall rows acc, keyword_scan all_docs [] rows acc = Returns acc.
Proof.
  induction rows as [| [i doc] rows IH]; intros acc; cbn [keyword_scan].
  - reflexivity.
  - cbv zeta. change (term_score (lower doc) []) with 0.
    change (0 <? 0) with false. cbv iota. apply IH.
Qed.

Lemma keyword_scan_pack (docs : list StoredDoc) (query_terms : list str) :
  query_terms <> [] ->
  forall n k acc,
    (k + n = length docs)%nat ->
    keyword_scan (pack_docs docs) query_terms
      (combine (map Z.of_nat (seq k n)) (map st_document (skipn k docs))) acc
    = Returns
        (acc ++ map (keyword_hit query_terms)
                  (filter (fun d => 0 <? doc_score query_terms d)
                     (skipn k docs))).
Proof.
  intros Hterms.
  assert (Hn : ~ (inject_Z (len query_terms) == 0)%Q).
  { apply inject_Z_nonzero. destruct query_terms; [congruence |].
    unfold len; simpl; lia. }
  induction n as [| n IH]; intros k acc Hk.
  - rewrite skipn_all2 by lia. simpl. rewrite app_nil_r. reflexivity.
  - destruct (nth_error docs k) as [d |] eqn:Hd;
      [| apply nth_error_None in Hd; lia].
    rewrite (skipn_nth_cons _ _ Hd).
    cbn [seq map combine keyword_scan filter]. cbv zeta.
    rewrite term_score_occurrences. fold (doc_score query_terms d).
    destruct (0 <? doc_score query_terms d) eqn:Hs.
    + cbn [pack_docs get_ids get_metadatas].
      rewrite (getitem_map_nth st_id _ _ Hd). cbn [bind].
      rewrite (getitem_map_nth st_metadata _ _ Hd). cbn [bind].
      rewrite (fdiv_nonzero _ Hn). cbn [bind].
      fold (pack_docs docs). fold (keyword_hit query_terms d).
      rewrite IH by lia. cbn [map]. rewrite <- app_assoc. reflexivity.
    + apply IH. lia.
Qed.

End KeywordSearch.

(** C7.  For a query with at least one term, [_keyword_search] scores each
    stored chunk by the sum, over the lower-cased query terms, of the number
    of occurrences of the term in the lower-cased chunk text; it drops the
    chunks of score 0, gives each other chunk the confidence
    [min(score / number of terms, 1.0)], sorts by the raw score in descending
    order and returns the first [n_results] of that list. *)
Theorem keyword_search_ranking {C : Type} {VI : VectorIndex C}
  {CM : CaseMapping} (c : C) (query_text : str) (n_results : Z)
  (document_ids : option (list str)) (docs : list StoredDoc) :
  collection_get c (where_of document_ids) = Returns (pack_docs docs) ->
  split (lower query_text) <> [] ->
  0 <= n_results ->
  let query_terms := split (lower query_text) in
  let hits :=
    map (keyword_hit query_terms)
      (filter (fun d => 0 <? doc_score query_terms d) docs) in
  let ranked := sort_desc Z.ltb kw_score hits in
  _keyword_search c query_text n_results document_ids
  = firstn (Z.to_nat n_results) ranked /\
  Permutation ranked hits /\
  (forall r, In r ranked <->
             exists d, In d docs /\ doc_score query_terms d <> 0 /\
                       r = keyword_hit query_terms d) /\
  (forall d,
     kw_score (keyword_hit query_terms d)
     = fold_right Z.add 0 (map (count (lower (st_document d))) query_terms) /\
     (kw_confidence (keyword_hit query_terms d)
      == Qmin (inject_Z (kw_score (keyword_hit query_terms d))
               / inject_Z (len query_terms)) 1)%Q) /\
  StronglySorted (fun a b => kw_score b <= kw_score a) ranked.
Proof.
  intros Hget Hterms Hn query_terms hits ranked.
  split; [| split; [| split; [| split]]].
  - unfold _keyword_search, keyword_search_body. rewrite Hget. cbn [bind].
    unfold enumerate, range.
    change (get_documents (pack_docs docs)) with (map st_document docs).
    rewrite length_map.
    pose proof (keyword_scan_pack docs Hterms (length docs) 0 [])
      as Hscan.
    rewrite skipn_0 in Hscan. rewrite Hscan by reflexivity.
    cbn [bind try_except app]. apply slice_to_firstn. exact Hn.
  - apply sort_desc_perm.
  - intros r. unfold ranked. rewrite sort_desc_member. unfold hits.
    rewrite in_map_iff. split.
    + intros [d [<- Hd]]. apply filter_In in Hd. destruct Hd as [Hd Hs].
      apply Z.ltb_lt in Hs. exists d. repeat split; [exact Hd | lia].
    + intros [d [Hd [Hs ->]]]. exists d. split; [reflexivity |].
      apply filter_In. split; [exact Hd |]. apply Z.ltb_lt.
      pose proof (occurrences_nonneg (lower (st_document d)) query_terms).
      unfold doc_score in *. lia.
  - intros d. split; [reflexivity |]. apply fmin_Qmin.
  - apply Z_ltb_descending.
Qed.

Lemma keyword_search_ranking_witness :
  let query_terms := [of_string "cat"; of_string "dog"] in
  let hits :=
    map (keyword_hit (CM := MemIndex.ascii_lower) query_terms)
      (filter (fun d => 0 <? doc_score (CM := MemIndex.ascii_lower) query_terms d)
         sample_docs) in
  let ranked := sort_desc Z.ltb kw_score hits in
  _keyword_search (VI := MemIndex.index) (CM := MemIndex.ascii_lower)
    MemIndex.sample (of_string "Cat dog") 2 None
  = firstn 2 ranked /\
  StronglySorted (fun a b => kw_score b <= kw_score a) ranked.
Proof.
  destruct (@keyword_search_ranking _ MemIndex.index MemIndex.ascii_lower
              MemIndex.sample (of_string "Cat dog") 2 None sample_docs)
    as [Hrun [_ [_ [_ Hsorted]]]].
  - reflexivity.
  - vm_compute. discriminate.
  - lia.
  - split; [exact Hrun | exact Hsorted].
Defined.

(** C10.  For a query text that splits into zero terms, [_keyword_search]
    returns the empty list, and it does so by the normal return of its [try]
    block whenever the collection answers: no exception is raised inside.
    The scan never raises [ZeroDivisionError] for any query, because a score
    is positive only when there is at least one term.  The empty and the
    white-space-only texts split into zero terms. *)
Theorem keyword_search_no_terms {C : Type} {VI : VectorIndex C}
  {CM : CaseMapping} (c : C) (query_text : str) (n_results : Z)
  (document_ids : option (list str)) :
  split (lower query_text) = [] ->
  _keyword_search c query_text n_results document_ids = [] /\
  (forall all_docs,
     collection_get c (where_of document_ids) = Returns all_docs ->
     keyword_search_body c query_text n_results document_ids = Returns []) /\
  (forall all_docs query_terms rows acc,
     keyword_scan all_docs query_terms rows acc <> Raises ZeroDivisionError) /\
  (forall doc_lower query_terms,
     0 < term_score doc_lower query_terms -> query_terms <> []) /\
  (forall text : str,
     (forall ch, In ch text -> isspace ch = true) -> split text = []).
Proof.
  intros Hterms.
  assert (Hbody : forall all_docs,
             collection_get c (where_of document_ids) = Returns all_docs ->
             keyword_search_body c query_text n_results document_ids
             = Returns []).
  { intros all_docs Hget. unfold keyword_search_body.
    rewrite Hget. cbn [bind]. rewrite Hterms, keyword_scan_no_terms.
    cbn [bind sort_desc fold_right]. unfold slice_to, slice.
    rewrite skipn_nil, firstn_nil. reflexivity. }
  split; [| split; [exact Hbody | split; [| split]]].
  - unfold _keyword_search.
    destruct (collection_get c (where_of document_ids)) as [all_docs | e] eqn:Hget.
    + rewrite (Hbody all_docs eq_refl). reflexivity.
    + unfold keyword_search_body. rewrite Hget. reflexivity.
  - intros all_docs query_terms rows acc Hraise.
    pose proof (keyword_scan_invariant all_docs query_terms rows acc)
      as Hinv.
    rewrite Hraise in Hinv. discriminate Hinv.
  - intros doc_lower query_terms Hpos ->. cbv in Hpos. discriminate Hpos.
  - intros text Hblank. apply split_from_blank. exact Hblank.
Qed.

Lemma keyword_search_no_terms_witness :
  _keyword_search (VI := MemIndex.index) (CM := MemIndex.ascii_lower)
    MemIndex.sample (of_string "  ") 5 None = [].
Proof.
  apply (@keyword_search_no_terms _ MemIndex.index MemIndex.ascii_lower
           MemIndex.sample (of_string "  ") 5 None).
  reflexivity.
Defined.

(** ** Dicts *)

Lemma str_eqb_eq (s t : str) : PyStr.eqb s t = true <-> s = t.
Proof.
  revert t. induction s as [| a s IH]; intros [| b t]; simpl;
    try (split; [discriminate | discriminate]).
  - split; reflexivity.
  - unfold char_eqb. rewrite andb_true_iff, N.eqb_eq, IH.
    split; [intros [-> ->]; reflexivity | intros H; injection H; auto].
Qed.

Lemma str_eqb_refl (s : str) : PyStr.eqb s s = true.
Proof. apply str_eqb_eq. reflexivity. Qed.

Lemma str_eqb_neq (s t : str) : PyStr.eqb s t = false <-> s <> t.
Proof.
  rewrite <- str_eqb_eq. destruct (PyStr.eqb s t); split; congruence.
Qed.

Section DictFacts.

Context {V : Type}.
Implicit Types (d : dict V) (k : str) (v : V).

Lemma dict_get_set_same d k v : dict_get (dict_set d k v) k = Some v.
Proof.
  induction d as [| [k' v'] d IH]; simpl.
  - rewrite str_eqb_refl. reflexivity.
  - destruct (PyStr.eqb k' k) eqn:E; simpl; rewrite E; [reflexivity | exact IH].
Qed.

Lemma dict_get_set_other d k k' v :
  k <> k' -> dict_get (dict_set d k v) k' = dict_get d k'.
Proof.
  intros Hk. induction d as [| [k0 v0] d IH]; simpl.
  - apply str_eqb_neq in Hk. rewrite Hk. reflexivity.
  - destruct (PyStr.eqb k0 k) eqn:E; simpl.
    + apply str_eqb_eq in E. subst k0.
      apply str_eqb_neq in Hk. rewrite Hk. reflexivity.
    + destruct (PyStr.eqb k0 k'); [reflexivity | exact IH].
Qed.

Lemma dict_get_member d k v : dict_get d k = Some v -> In (k, v) d.
Proof.
  induction d as [| [k' v'] d IH]; simpl; [discriminate |].
  destruct (PyStr.eqb k' k) eqn:E.
  - apply str_eqb_eq in E. intros H. injection H as ->. left. congruence.
  - intros H. right. apply IH. exact H.
Qed.

Lemma dict_get_none d k : dict_get d k = None <-> ~ In k (dict_keys d).
Proof.
  induction d as [| [k' v'] d IH]; simpl.
  - split; [intros _ [] | reflexivity].
  - destruct (PyStr.eqb k' k) eqn:E.
    + apply str_eqb_eq in E. split; [discriminate | intros H; elim H; auto].
    + apply str_eqb_neq in E. rewrite IH. split.
      * intros H [H' | H']; contradiction.
      * intros H H'. apply H. right. exact H'.
Qed.

Lemma dict_member_get d k v :
  NoDup (dict_keys d) -> In (k, v) d -> dict_get d k = Some v.
Proof.
  induction d as [| [k' v'] d IH]; simpl; intros Hnd Hin; [contradiction |].
  inversion Hnd as [| ? ? Hk' Hnd']; subst.
  destruct Hin as [Heq | Hin].
  - injection Heq as -> ->. rewrite str_eqb_refl. reflexivity.
  - destruct (PyStr.eqb k' k) eqn:E.
    + apply str_eqb_eq in E. subst k'. elim Hk'.
      apply in_map_iff. exists (k, v). split; [reflexivity | exact Hin].
    + apply IH; assumption.
Qed.

Lemma dict_keys_set d k v :
  dict_keys (dict_set d k v)
  = if dict_mem d k then dict_keys d else dict_keys d ++ [k].
Proof.
  unfold dict_mem. induction d as [| [k' v'] d IH]; simpl.
  - reflexivity.
  - destruct (PyStr.eqb k' k) eqn:E; simpl.
    + reflexivity.
    + rewrite IH. destruct (dict_get d k); reflexivity.
Qed.

Lemma dict_set_nodup d k v :
  NoDup (dict_keys d) -> NoDup (dict_keys (dict_set d k v)).
Proof.
  intros Hnd. rewrite dict_keys_set. unfold dict_mem.
  destruct (dict_get d k) eqn:E; [exact Hnd |].
  apply dict_get_none in E.
  apply (Permutation_NoDup (l := k :: dict_keys d)).
  - apply Permutation_cons_append.
  - constructor; assumption.
Qed.

Lemma dict_set_values (P : V -> Prop) d k v :
  Forall P (dict_values d) -> P v -> Forall P (dict_values (dict_set d k v)).
Proof.
  intros Hd Hv. induction d as [| [k' v'] d IH]; simpl.
  - constructor; [exact Hv | constructor].
  - inversion Hd as [| ? ? Hv' Hd']; subst.
    destruct (PyStr.eqb k' k); simpl; constructor; auto.
Qed.

Lemma dict_get_values (P : V -> Prop) d k v :
  Forall P (dict_values d) -> dict_get d k = Some v -> P v.
Proof.
  intros Hd Hget. apply dict_get_member in Hget.
  rewrite Forall_forall in Hd. apply Hd.
  apply in_map_iff. exists (k, v). split; [reflexivity | exact Hget].
Qed.

End DictFacts.

Lemma fold_left_invariant {A B : Type} (f : B -> A -> B)
  (P : B -> list A -> Prop) :
  (forall b done a, P b done -> P (f b a) (done ++ [a])) ->
  forall todo b done, P b done -> P (fold_left f todo b) (done ++ todo).
Proof.
  intros Hstep. induction todo as [| a todo IH]; intros b done Hb; simpl.
  - rewrite app_nil_r. exact Hb.
  - replace (done ++ a :: todo) with ((done ++ [a]) ++ todo)
      by (rewrite <- app_assoc; reflexivity).
    apply IH. apply Hstep. exact Hb.
Qed.

Lemma find_last {A : Type} (f : A -> bool) (l : list A) (a : A) :
  find f (rev (l ++ [a])) = if f a then Some a else find f (rev l).
Proof. rewrite rev_app_distr. reflexivity. Qed.

(** ** Fusion *)

Section Fusion.

Variables keyword_weight semantic_weight : Q.

Let invariant := fusion_invariant keyword_weight semantic_weight.

Lemma add_semantic_step (result_map : dict CombinedResult)
  (done_s : list SemanticResult) (r : SemanticResult) :
  invariant result_map done_s [] ->
  invariant (add_semantic semantic_weight result_map r) (done_s ++ [r]) [].
Proof.
  intros [Hnd Hinv]. split; [apply dict_set_nodup; exact Hnd |].
  intros id_. unfold last_semantic. rewrite find_last.
  fold (last_semantic id_ done_s). unfold add_semantic.
  destruct (PyStr.eqb (sem_id r) id_) eqn:E.
  - apply str_eqb_eq in E. subst id_. rewrite dict_get_set_same.
    cbn. repeat split; reflexivity.
  - apply str_eqb_neq in E. rewrite dict_get_set_other by exact E.
    apply Hinv.
Qed.

Lemma add_keyword_step (result_map : dict CombinedResult)
  (done_s : list SemanticResult) (done_k : list KeywordResult)
  (r : KeywordResult) :
  invariant result_map done_s done_k ->
  invariant (add_keyword keyword_weight semantic_weight result_map r)
    done_s (done_k ++ [r]).
Proof.
  intros [Hnd Hinv]. split.
  - unfold add_keyword. destruct (dict_get result_map (kw_id r));
      apply dict_set_nodup; exact Hnd.
  - intros id_. unfold last_keyword. rewrite find_last.
    fold (last_keyword id_ done_k). unfold add_keyword.
    destruct (PyStr.eqb (kw_id r) id_) eqn:E.
    + apply str_eqb_eq in E. subst id_. specialize (Hinv (kw_id r)).
      destruct (dict_get result_map (kw_id r)) as [existing |] eqn:G;
        rewrite dict_get_set_same;
        destruct (last_semantic (kw_id r) done_s) as [s |],
                 (last_keyword (kw_id r) done_k) as [k |];
        cbn in Hinv |- *; try contradiction;
        match type of Hinv with
        | _ /\ _ => destruct Hinv as [Hid [Hs [Hk Hc]]]
        | _ => idtac
        end;
        unfold chunk_of in *; cbn [base];
        repeat split; try assumption; try reflexivity;
        try (rewrite Hs; reflexivity).
      rewrite Hs. ring.
    + apply str_eqb_neq in E. specialize (Hinv id_).
      destruct (dict_get result_map (kw_id r));
        rewrite dict_get_set_other by exact E; exact Hinv.
Qed.

Lemma fuse_invariant (semantic_results : list SemanticResult)
  (keyword_results : list KeywordResult) :
  invariant
    (fuse semantic_results keyword_results keyword_weight semantic_weight)
    semantic_results keyword_results.
Proof.
  unfold fuse.
  apply (fold_left_invariant
           (add_keyword keyword_weight semantic_weight)
           (fun d done => invariant d semantic_results done)
           (fun d done a => @add_keyword_step d semantic_results done a)
           keyword_results _ []).
  apply (fold_left_invariant
           (add_semantic semantic_weight)
           (fun d done => invariant d done [])
           (fun d done a => @add_semantic_step d done a)
           semantic_results [] []).
  split; [constructor | intros id_; exact I].
Qed.

Lemma fused_chunk (s : option SemanticResult) (k : option KeywordResult)
  (id_ : str) (v : CombinedResult) :
  fused keyword_weight semantic_weight s k id_ (Some v) -> chunk_of v = id_.
Proof.
  destruct s, k; cbn; try contradiction; intros [H _]; exact H.
Qed.

Lemma fuse_entry (semantic_results : list SemanticResult)
  (keyword_results : list KeywordResult) (v : CombinedResult) :
  In v (dict_values
          (fuse semantic_results keyword_results keyword_weight
             semantic_weight)) ->
  fused keyword_weight semantic_weight
    (last_semantic (chunk_of v) semantic_results)
    (last_keyword (chunk_of v) keyword_results) (chunk_of v) (Some v).
Proof.
  intros Hv. destruct (fuse_invariant semantic_results keyword_results)
    as [Hnd Hinv].
  apply in_map_iff in Hv. destruct Hv as [[id_ v'] [Hsnd Hin]].
  simpl in Hsnd. subst v'.
  specialize (Hinv id_). rewrite (dict_member_get _ _ _ Hnd Hin) in Hinv.
  rewrite (fused_chunk _ _ _ _ Hinv). exact Hinv.
Qed.

Lemma fuse_chunks (semantic_results : list SemanticResult)
  (keyword_results : list KeywordResult) :
  let d := fuse semantic_results keyword_results keyword_weight
             semantic_weight in
  map chunk_of (dict_values d) = dict_keys d.
Proof.
  intros d. destruct (fuse_invariant semantic_results keyword_results)
    as [Hnd Hinv]. fold d in Hnd, Hinv.
  unfold dict_values, dict_keys. rewrite map_map. apply map_ext_in.
  intros [id_ v] Hin. simpl. specialize (Hinv id_).
  rewrite (dict_member_get _ _ _ Hnd Hin) in Hinv.
  exact (fused_chunk _ _ _ _ Hinv).
Qed.

End Fusion.

Lemma last_semantic_none (id_ : str) (semantic_results : list SemanticResult) :
  last_semantic id_ semantic_results = None <->
  ~ In id_ (map sem_id semantic_results).
Proof.
  unfold last_semantic. split.
  - intros Hnone Hin. apply in_map_iff in Hin. destruct Hin as [r [Hid Hr]].
    apply in_rev in Hr. pose proof (find_none _ _ Hnone r Hr) as H.
    simpl in H. rewrite Hid, str_eqb_refl in H. discriminate H.
  - intros Hnot. destruct (find _ _) as [r |] eqn:E; [| reflexivity].
    apply find_some in E. destruct E as [Hr Hid]. apply str_eqb_eq in Hid.
    elim Hnot. apply in_map_iff. exists r. split; [exact Hid |].
    apply in_rev. exact Hr.
Qed.

Lemma last_keyword_none (id_ : str) (keyword_results : list KeywordResult) :
  last_keyword id_ keyword_results = None <->
  ~ In id_ (map kw_id keyword_results).
Proof.
  unfold last_keyword. split.
  - intros Hnone Hin. apply in_map_iff in Hin. destruct Hin as [r [Hid Hr]].
    apply in_rev in Hr. pose proof (find_none _ _ Hnone r Hr) as H.
    simpl in H. rewrite Hid, str_eqb_refl in H. discriminate H.
  - intros Hnot. destruct (find _ _) as [r |] eqn:E; [| reflexivity].
    apply find_some in E. destruct E as [Hr Hid]. apply str_eqb_eq in Hid.
    elim Hnot. apply in_map_iff. exists r. split; [exact Hid |].
    apply in_rev. exact Hr.
Qed.

Lemma combine_returns (semantic_results : list SemanticResult)
  (keyword_results : list KeywordResult) (keyword_weight semantic_weight : Q) :
  ~ (keyword_weight + semantic_weight == 0)%Q ->
  _combine_search_results semantic_results keyword_results keyword_weight
    semantic_weight
  = Returns
      (sort_desc Qltb combined_confidence
         (dict_values
            (fuse semantic_results keyword_results
               (keyword_weight / (keyword_weight + semantic_weight))
               (semantic_weight / (keyword_weight + semantic_weight))))).
Proof.
  intros Hsum. unfold _combine_search_results. cbv zeta.
  rewrite !fdiv_nonzero by exact Hsum. reflexivity.
Qed.

Lemma StronglySorted_nth {A : Type} (R : A -> A -> Prop) (l : list A) :
  StronglySorted R l ->
  forall i j a b,
    (j < i)%nat -> nth_error l j = Some b -> nth_error l i = Some a -> R b a.
Proof.
  induction 1 as [| x l Hsorted IH Hall]; intros i j a b Hji Hb Ha.
  - destruct j; discriminate Hb.
  - destruct i as [| i]; [lia |]. simpl in Ha. destruct j as [| j].
    + simpl in Hb. injection Hb as ->.
      rewrite Forall_forall in Hall. apply Hall.
      eapply nth_error_In. exact Ha.
    + simpl in Hb. apply (IH i j); [lia | assumption | assumption].
Qed.

(** C8.  Under non-negative weights that sum to 1, a chunk that is in both
    result lists, with the non-negative confidences [s] and [k], has the
    combined score [s * w_s + k * w_k]; this is at least the combined score of
    a chunk that is in one list only with the same confidence there ([s] for a
    semantic-only chunk, [k] for a keyword-only chunk).  So in the fused
    output the chunk of one list stands in front of the chunk of both lists
    only when their combined scores are equal. *)
Theorem fusion_dominance (semantic_results : list SemanticResult)
  (keyword_results : list KeywordResult) (keyword_weight semantic_weight : Q)
  (out : list CombinedResult) (a b : CombinedResult)
  (s : SemanticResult) (k : KeywordResult) :
  (0 <= keyword_weight)%Q -> (0 <= semantic_weight)%Q ->
  (keyword_weight + semantic_weight == 1)%Q ->
  _combine_search_results semantic_results keyword_results keyword_weight
    semantic_weight = Returns out ->
  In a out -> In b out ->
  last_semantic (chunk_of a) semantic_results = Some s ->
  last_keyword (chunk_of a) keyword_results = Some k ->
  (0 <= sem_confidence s)%Q -> (0 <= kw_confidence k)%Q ->
  (exists s',
      last_semantic (chunk_of b) semantic_results = Some s' /\
      last_keyword (chunk_of b) keyword_results = None /\
      (sem_confidence s' == sem_confidence s)%Q) \/
  (exists k',
      last_semantic (chunk_of b) semantic_results = None /\
      last_keyword (chunk_of b) keyword_results = Some k' /\
      (kw_confidence k' == kw_confidence k)%Q) ->
  (combined_confidence a
   == sem_confidence s * semantic_weight + kw_confidence k * keyword_weight)%Q /\
  (combined_confidence b <= combined_confidence a)%Q /\
  (forall i j,
     nth_error out i = Some a -> nth_error out j = Some b -> (j < i)%nat ->
     (combined_confidence a == combined_confidence b)%Q).
Proof.
  intros Hk Hs Hsum Hrun Ha Hb Has Hak Hs0 Hk0 Hcase.
  rewrite combine_returns in Hrun by lra. injection Hrun as <-.
  set (wk := (keyword_weight / (keyword_weight + semantic_weight))%Q) in *.
  set (ws := (semantic_weight / (keyword_weight + semantic_weight))%Q) in *.
  assert (Hwk : (wk == keyword_weight)%Q).
  { unfold wk. rewrite Hsum. field. }
  assert (Hws : (ws == semantic_weight)%Q).
  { unfold ws. rewrite Hsum. field. }
  pose proof (sort_desc_Q_descending combined_confidence
                (dict_values (fuse semantic_results keyword_results wk ws)))
    as Hdesc.
  assert (Hfa := Ha). assert (Hfb := Hb).
  apply sort_desc_member in Hfa, Hfb.
  apply fuse_entry in Hfa, Hfb.
  rewrite Has, Hak in Hfa. cbn in Hfa. destruct Hfa as [_ [_ [_ Hca]]].
  rewrite Hwk, Hws in Hca.
  assert (Hpk : (0 <= kw_confidence k * keyword_weight)%Q)
    by (apply Qmult_le_0_compat; assumption).
  assert (Hps : (0 <= sem_confidence s * semantic_weight)%Q)
    by (apply Qmult_le_0_compat; assumption).
  assert (Hle : (combined_confidence b <= combined_confidence a)%Q).
  { destruct Hcase as [[s' [Hbs [Hbk Heq]]] | [k' [Hbs [Hbk Heq]]]];
      rewrite Hbs, Hbk in Hfb; cbn in Hfb; destruct Hfb as [_ [_ [_ Hcb]]];
      rewrite Hca, Hcb, Heq; [rewrite Hws | rewrite Hwk]; lra. }
  split; [exact Hca |]. split; [exact Hle |].
  intros i j Hi Hj Hji. apply Qle_antisym; [| exact Hle].
  exact (StronglySorted_nth Hdesc Hji Hj Hi).
Qed.

Lemma fusion_dominance_witness :
  (combined_confidence (nth 1 fused_sample blank_entry)
   <= combined_confidence (nth 0 fused_sample blank_entry))%Q.
Proof.
  refine (proj1 (proj2
    (@fusion_dominance two_semantic one_keyword (3 # 10) (7 # 10)
       fused_sample (nth 0 fused_sample blank_entry)
       (nth 1 fused_sample blank_entry)
       (nth 0 two_semantic (hit {| nb_id := []; nb_document := [];
                                   nb_metadata := []; nb_distance := 0 |}))
       (nth 0 one_keyword
          {| kw_id := []; kw_document := []; kw_metadata := [];
             kw_confidence := 0; kw_score := 0 |})
       _ _ _ _ _ _ _ _ _ _ _))).
  - discriminate.
  - discriminate.
  - reflexivity.
  - reflexivity.
  - left. reflexivity.
  - right. left. reflexivity.
  - reflexivity.
  - reflexivity.
  - discriminate.
  - discriminate.
  - left. eexists. split; [reflexivity |]. split; reflexivity.
Defined.

(** ** Confidence values *)

Section Confidence.

Context {C : Type} {VI : VectorIndex C} {EM : EmbeddingModel} {CM : CaseMapping}.

Lemma process_results_invariant (results : QueryResult) (min_confidence : Q) :
  forall idx acc,
    match process_results results min_confidence idx acc with
    | Returns out =>
        forall r, In r out ->
                  In r acc \/
                  (sem_confidence r = (1 - sem_distance r)%Q /\
                   (min_confidence <= sem_confidence r)%Q)
    | Raises _ => True
    end.
Proof.
  induction idx as [| i idx IH]; intros acc; cbn [process_results].
  - intros r Hr. left. exact Hr.
  - destruct (getitem (qr_ids results) i); cbn [bind]; [| exact I].
    destruct (getitem (qr_documents results) i); cbn [bind]; [| exact I].
    destruct (getitem (qr_metadatas results) i); cbn [bind]; [| exact I].
    destruct (getitem (qr_distances results) i) as [distance |]; cbn [bind];
      [| exact I].
    cbv zeta.
    match goal with |- context [process_results _ _ idx ?a] =>
      specialize (IH a) end.
    destruct (process_results results min_confidence idx _) as [out |];
      [| exact I].
    intros r Hr. destruct (IH r Hr) as [Hacc | Hnew]; [| right; exact Hnew].
    destruct (Qle_bool min_confidence (1 - distance)) eqn:E;
      [| left; exact Hacc].
    apply in_app_or in Hacc. destruct Hacc as [Hacc | [<- | []]];
      [left; exact Hacc | right].
    cbn [sem_confidence sem_distance]. split; [reflexivity |].
    apply Qle_bool_iff. exact E.
Qed.

Lemma query_results_sound (c : C) (query_text : str) (n_results : Z)
  (document_ids : option (list str)) (min_confidence : Q) (r : SemanticResult) :
  In r (response_results
          (query c query_text n_results document_ids min_confidence)) ->
  sem_confidence r = (1 - sem_distance r)%Q /\
  (min_confidence <= sem_confidence r)%Q.
Proof.
  unfold query.
  destruct (encode [query_text]) as [emb | e]; cbn [bind try_except];
    [| intros []].
  destruct (collection_query c emb n_results (where_of document_ids))
    as [results | e]; cbn [bind try_except]; [| intros []].
  pose proof (process_results_invariant results min_confidence
                (range (length (qr_ids results))) []) as Hinv.
  destruct (process_results results min_confidence _ []) as [out | e];
    cbn [bind try_except response_results]; [| intros []].
  intros Hr. apply sort_desc_member in Hr.
  destruct (Hinv r Hr) as [[] | H]. exact H.
Qed.

Lemma keyword_results_sound (c : C) (query_text : str) (n_results : Z)
  (document_ids : option (list str)) (r : KeywordResult) :
  In r (_keyword_search c query_text n_results document_ids) ->
  (0 < kw_confidence r <= 1)%Q.
Proof.
  unfold _keyword_search, keyword_search_body.
  destruct (collection_get c (where_of document_ids)) as [all_docs | e];
    cbn [bind try_except]; [| intros []].
  pose proof (keyword_scan_invariant all_docs (split (lower query_text))
                (enumerate (get_documents all_docs)) []) as Hinv.
  destruct (keyword_scan all_docs _ _ []) as [out | e];
    cbn [bind try_except]; [| intros []].
  intros Hr. apply slice_member in Hr. apply sort_desc_member in Hr.
  destruct (Hinv r Hr) as [[] | [_ H]]. exact H.
Qed.

End Confidence.

Section FusionBases.

Variables (Ps : SemanticResult -> Prop) (Pk : KeywordResult -> Prop).

Let sound (v : CombinedResult) : Prop :=
  match base v with inl s => Ps s | inr k => Pk k end.

Lemma fuse_bases (keyword_weight semantic_weight : Q)
  (semantic_results : list SemanticResult)
  (keyword_results : list KeywordResult) :
  (forall s, In s semantic_results -> Ps s) ->
  (forall k, In k keyword_results -> Pk k) ->
  Forall sound
    (dict_values
       (fuse semantic_results keyword_results keyword_weight semantic_weight)).
Proof.
  intros Hs Hk. unfold fuse.
  assert (H1 : forall l d,
             (forall s, In s l -> Ps s) -> Forall sound (dict_values d) ->
             Forall sound
               (dict_values (fold_left (add_semantic semantic_weight) l d))).
  { induction l as [| r l IH]; intros d Hl Hd; simpl; [exact Hd |].
    apply IH; [intros s Hin; apply Hl; right; exact Hin |].
    apply dict_set_values; [exact Hd |]. apply Hl. left. reflexivity. }
  assert (H2 : forall l d,
             (forall k, In k l -> Pk k) -> Forall sound (dict_values d) ->
             Forall sound
               (dict_values
                  (fold_left (add_keyword keyword_weight semantic_weight) l d))).
  { induction l as [| r l IH]; intros d Hl Hd; simpl; [exact Hd |].
    apply IH; [intros k Hin; apply Hl; right; exact Hin |].
    unfold add_keyword. destruct (dict_get d (kw_id r)) as [existing |] eqn:G.
    - apply dict_set_values; [exact Hd |].
      change (sound existing). eapply dict_get_values; eassumption.
    - apply dict_set_values; [exact Hd |]. apply Hl. left. reflexivity. }
  apply H2; [exact Hk |]. apply H1; [exact Hs | constructor].
Qed.

End FusionBases.

Lemma hybrid_results_sound {C : Type} {VI : VectorIndex C}
  {EM : EmbeddingModel} {CM : CaseMapping} (c : C) (query_text : str)
  (n_results : Z) (document_ids : option (list str))
  (keyword_weight semantic_weight : Q) (v : CombinedResult) :
  In v (hybrid_results
          (hybrid_search c query_text n_results document_ids keyword_weight
             semantic_weight)) ->
  match base v with
  | inl s =>
      sem_confidence s = (1 - sem_distance s)%Q /\
      (1 # 2 <= sem_confidence s)%Q
  | inr k => (0 < kw_confidence k <= 1)%Q
  end.
Proof.
  unfold hybrid_search, _combine_search_results. cbv zeta.
  destruct (fdiv keyword_weight (keyword_weight + semantic_weight))
    as [wk | e]; cbn [bind try_except hybrid_results]; [| intros []].
  destruct (fdiv semantic_weight (keyword_weight + semantic_weight))
    as [ws | e]; cbn [bind try_except hybrid_results]; [| intros []].
  intros Hv. apply slice_member in Hv. apply sort_desc_member in Hv.
  pose proof (@fuse_bases
                (fun s => sem_confidence s = (1 - sem_distance s)%Q /\
                          (1 # 2 <= sem_confidence s)%Q)
                (fun k => (0 < kw_confidence k <= 1)%Q)
                wk ws
                (response_results
                   (query c query_text (n_results * 2) document_ids (1 # 2)))
                (_keyword_search c query_text (n_results * 2) document_ids))
    as Hall.
  rewrite Forall_forall in Hall. apply Hall.
  - intros s Hs. apply (query_results_sound _ _ _ _ _ _ Hs).
  - intros k Hk. apply (keyword_results_sound _ _ _ _ _ Hk).
  - exact Hv.
Qed.

(** C1.  Every result of [query] has the confidence one minus its
    distance, and this is at least [min_confidence]; [query] does not clamp,
    so the confidence is in [0, 1] when [min_confidence] is not negative and
    the distance the index reported is not negative.  Every result of keyword
    search has a confidence in (0, 1], clamped from above by [min(., 1.0)].
    Every result of hybrid search carries the confidence of a semantic result
    obtained with [min_confidence = 0.5] or, for a chunk of the keyword
    results only, of a keyword result. *)
Theorem confidence_bounds {C : Type} {VI : VectorIndex C}
  {EM : EmbeddingModel} {CM : CaseMapping} (c : C) (query_text : str)
  (n_results : Z) (document_ids : option (list str)) :
  (forall min_confidence r,
     In r (response_results
             (query c query_text n_results document_ids min_confidence)) ->
     sem_confidence r = (1 - sem_distance r)%Q /\
     (min_confidence <= sem_confidence r)%Q /\
     ((0 <= min_confidence)%Q -> (0 <= sem_distance r)%Q ->
      unit_interval (sem_confidence r))) /\
  (forall r,
     In r (_keyword_search c query_text n_results document_ids) ->
     (0 < kw_confidence r)%Q /\ unit_interval (kw_confidence r)) /\
  (forall keyword_weight semantic_weight v,
     In v (hybrid_results
             (hybrid_search c query_text n_results document_ids keyword_weight
                semantic_weight)) ->
     match base v with
     | inl s =>
         sem_confidence s = (1 - sem_distance s)%Q /\
         (1 # 2 <= sem_confidence s)%Q /\
         ((0 <= sem_distance s)%Q -> unit_interval (sem_confidence s))
     | inr k => (0 < kw_confidence k)%Q /\ unit_interval (kw_confidence k)
     end).
Proof.
  split; [| split].
  - intros min_confidence r Hr.
    destruct (query_results_sound _ _ _ _ _ _ Hr) as [Hconf Hmin].
    split; [exact Hconf |]. split; [exact Hmin |].
    intros H0 Hd. unfold unit_interval. rewrite Hconf in *. split; lra.
  - intros r Hr. destruct (keyword_results_sound _ _ _ _ _ Hr) as [Hpos Hle].
    split; [exact Hpos |]. split; [apply Qlt_le_weak; exact Hpos | exact Hle].
  - intros keyword_weight semantic_weight v Hv.
    pose proof (hybrid_results_sound _ _ _ _ _ _ _ Hv) as H.
    destruct (base v) as [s | k].
    + destruct H as [Hconf Hmin]. split; [exact Hconf |].
      split; [exact Hmin |]. intros Hd. unfold unit_interval.
      rewrite Hconf in *. split; lra.
    + destruct H as [Hpos Hle]. split; [exact Hpos |].
      split; [apply Qlt_le_weak; exact Hpos | exact Hle].
Qed.

Lemma confidence_bounds_witness :
  let r := hit (nth 1 sample_neighbours
                  {| nb_id := []; nb_document := []; nb_metadata := [];
                     nb_distance := 0 |}) in
  unit_interval (sem_confidence r).
Proof.
  intros r.
  destruct (@confidence_bounds _ MemIndex.index MemIndex.unit_encoder
              MemIndex.ascii_lower MemIndex.sample (of_string "cat") 5 None)
    as [Hquery _].
  destruct (Hquery (1 # 2) r) as [_ [_ Hunit]].
  - right. left. reflexivity.
  - apply Hunit; discriminate.
Defined.

(** C1, with the interval [0, 1] for every result of [query]: not so.  On the
    sample collection the chunk that points away from the query has the cosine
    distance 2, and with [min_confidence = -1] it is returned with the
    confidence -1. *)
Lemma query_confidence_outside_unit_cex :
  ~ (forall (c : MemIndex.t) (query_text : str) (n_results : Z)
       (document_ids : option (list str)) (min_confidence : Q)
       (r : SemanticResult),
       In r (response_results
               (query (VI := MemIndex.index) (EM := MemIndex.unit_encoder)
                  c query_text n_results document_ids min_confidence)) ->
       unit_interval (sem_confidence r)).
Proof.
  intros H.
  specialize (H MemIndex.sample (of_string "cat") 5 None (-1)%Q
                (hit (nth 2 sample_neighbours
                        {| nb_id := []; nb_document := []; nb_metadata := [];
                           nb_distance := 0 |}))).
  destruct H as [Hlow _].
  - right. right. left. reflexivity.
  - vm_compute in Hlow. apply Hlow. reflexivity.
Qed.

(** ** Indexing and removal *)

(** C5.  [index_document] always returns a flag and never raises.  The flag is
    [True] exactly when the chunker produced at least one chunk and the bulk
    [add] to the collection completed without raising (which needs the
    embedding call before it to have returned).  When the chunker produces no
    chunk, as for the empty text, the flag is [False] and the collection is
    left as it was. *)
Theorem index_document_flag {C : Type} {VI : VectorIndex C}
  {EM : EmbeddingModel} (c : C) (document_id text : str)
  (metadata_ : option metadata) :
  exists chunks flag c',
    _split_text init text = Some (Returns chunks) /\
    index_document init document_id text metadata_ c = Some (flag, c') /\
    (flag = true <->
     chunks <> [] /\
     exists embeddings,
       encode chunks = Returns embeddings /\
       fst (collection_add c (batch_documents chunks)
              (batch_metadatas document_id chunks metadata_)
              (batch_ids document_id chunks) embeddings)
       = Returns tt) /\
    (chunks = [] -> flag = false /\ c' = c) /\
    (text = [] -> chunks = []).
Proof.
  destruct (split_text_returns text) as [chunks Hsplit].
  exists chunks.
  assert (Hempty : text = [] -> chunks = []).
  { intros ->. change (Some (Returns (@nil str)) = Some (Returns chunks))
      in Hsplit. injection Hsplit as <-. reflexivity. }
  unfold index_document. rewrite Hsplit.
  unfold try_exceptA, index_document_body, bindA, pure_, ret.
  destruct chunks as [| ch chunks]; cbn [truthy negb].
  - exists false, c. split; [reflexivity |]. split; [reflexivity |].
    split; [| split; [intros _; split; reflexivity | exact Hempty]].
    split; [discriminate | intros [H _]; elim H; reflexivity].
  - destruct (encode (ch :: chunks)) as [embeddings | e] eqn:Henc.
    + destruct (collection_add c (batch_documents (ch :: chunks))
                  (batch_metadatas document_id (ch :: chunks) metadata_)
                  (batch_ids document_id (ch :: chunks)) embeddings)
        as [[[] | e] c'] eqn:Hadd.
      * exists true, c'. split; [reflexivity |]. split; [reflexivity |].
        split; [| split; [discriminate | exact Hempty]].
        split; [| reflexivity]. intros _. split; [discriminate |].
        exists embeddings. split; [reflexivity |]. rewrite Hadd. reflexivity.
      * exists false, c'. split; [reflexivity |]. split; [reflexivity |].
        split; [| split; [discriminate | exact Hempty]].
        split; [discriminate |]. intros [_ [embs [Hembs Hok]]].
        injection Hembs as <-. rewrite Hadd in Hok. discriminate Hok.
    + exists false, c. split; [reflexivity |]. split; [reflexivity |].
      split; [| split; [discriminate | exact Hempty]].
      split; [discriminate |]. intros [_ [embs [Hembs _]]]. discriminate Hembs.
Qed.

Lemma index_document_flag_witness :
  index_document (VI := MemIndex.index) (EM := MemIndex.unit_encoder) init
    (of_string "c") [] None MemIndex.sample
  = Some (false, MemIndex.sample).
Proof.
  destruct (@index_document_flag _ MemIndex.index MemIndex.unit_encoder
              MemIndex.sample (of_string "c") [] None)
    as [chunks [flag [c' [_ [Hrun [_ [Hnone Hempty]]]]]]].
  destruct (Hnone (Hempty eq_refl)) as [-> ->]. exact Hrun.
Defined.

Lemma remove_document_nothing {C : Type} {VI : VectorIndex C} (c : C)
  (document_id : str) (r : GetResult) :
  collection_get c (Some (WhereDocument document_id)) = Returns r ->
  get_ids r = [] ->
  remove_document document_id c = (false, c).
Proof.
  intros Hget Hids. unfold remove_document, try_exceptA, bindA, read, ret.
  rewrite Hget, Hids. reflexivity.
Qed.

Lemma remove_document_get_fails {C : Type} {VI : VectorIndex C} (c : C)
  (document_id : str) (e : exn) :
  collection_get c (Some (WhereDocument document_id)) = Raises e ->
  remove_document document_id c = (false, c).
Proof.
  intros Hget. unfold remove_document, try_exceptA, bindA, read, ret.
  rewrite Hget. reflexivity.
Qed.

(** C6.  [remove_document] returns [False] and leaves the collection as it is
    when the collection reports no chunk of the document.  So, for a
    collection that keeps the contract of [delete], when a first call has
    removed the chunks of the document or has found none, a second call for
    the same document returns [False] and leaves the collection as it is. *)
Theorem remove_document_idempotent {C : Type} {VI : VectorIndex C} (c : C)
  (document_id : str) :
  delete_contract VI ->
  (forall r,
     collection_get c (Some (WhereDocument document_id)) = Returns r ->
     get_ids r = [] ->
     remove_document document_id c = (false, c)) /\
  (let first := remove_document document_id c in
   fst first = true \/
   (exists r,
       collection_get c (Some (WhereDocument document_id)) = Returns r /\
       get_ids r = []) ->
   remove_document document_id (snd first) = (false, snd first)).
Proof.
  intros Hcontract. split; [apply remove_document_nothing |].
  intros first Hfirst.
  assert (Hsecond :
            forall c1,
              (forall r', collection_get c1 (Some (WhereDocument document_id))
                          = Returns r' -> get_ids r' = []) ->
              remove_document document_id c1 = (false, c1)).
  { intros c1 Hnone.
    destruct (collection_get c1 (Some (WhereDocument document_id)))
      as [r' | e] eqn:Hget'.
    - apply (remove_document_nothing _ _ Hget'). apply Hnone. reflexivity.
    - apply (remove_document_get_fails _ _ Hget'). }
  apply Hsecond. intros r' Hget'.
  unfold first in *. clear first.
  unfold remove_document, try_exceptA, bindA, read, ret in Hfirst, Hget'.
  destruct (collection_get c (Some (WhereDocument document_id)))
    as [r | e] eqn:Hget.
  - destruct (get_ids r) as [| i ids] eqn:Hids; cbn [truthy] in *.
    + cbn [snd] in Hget'. rewrite Hget in Hget'. congruence.
    + destruct (collection_delete c (i :: ids)) as [[[] | e] c1] eqn:Hdel;
        cbn [fst snd] in *.
      * rewrite <- Hids in Hdel.
        exact (Hcontract _ _ _ _ _ Hget Hdel Hget').
      * destruct Hfirst as [Hfalse | [r0 [Hr0 Hnone]]]; [discriminate |].
        congruence.
  - cbn [fst snd] in *.
    destruct Hfirst as [Hfalse | [r0 [Hr0 _]]]; discriminate.
Qed.

Lemma mem_index_contract : delete_contract MemIndex.index.
Proof.
  intros c c' w r r' Hget Hdel Hget'.
  cbn [collection_get collection_delete MemIndex.index] in *.
  unfold MemIndex.get in Hget, Hget'. unfold MemIndex.delete in Hdel.
  injection Hget as <-. cbn [get_ids] in Hdel.
  injection Hdel as <-. injection Hget' as <-. cbn [get_ids].
  destruct (filter (MemIndex.matches w) (filter _ c)) as [| ch rest] eqn:E;
    [reflexivity |].
  exfalso.
  assert (Hin : In ch (ch :: rest)) by (left; reflexivity).
  rewrite <- E in Hin. apply filter_In in Hin. destruct Hin as [Hin Hmatch].
  apply filter_In in Hin. destruct Hin as [Hin Hkept].
  apply negb_true_iff in Hkept.
  assert (Hthere : existsb (PyStr.eqb (MemIndex.sc_id ch))
                     (map MemIndex.sc_id (filter (MemIndex.matches w) c))
                   = true).
  { apply existsb_exists. exists (MemIndex.sc_id ch).
    split; [| apply str_eqb_refl].
    apply in_map. apply filter_In. split; assumption. }
  congruence.
Qed.

Lemma remove_document_idempotent_witness :
  let first :=
    remove_document (VI := MemIndex.index) (of_string "a") MemIndex.sample in
  fst first = true /\
  remove_document (VI := MemIndex.index) (of_string "a") (snd first)
  = (false, snd first).
Proof.
  intros first. split; [reflexivity |].
  destruct (@remove_document_idempotent _ MemIndex.index MemIndex.sample
              (of_string "a") mem_index_contract) as [_ Hsecond].
  apply Hsecond. left. reflexivity.
Defined.

(** * Fusion in double arithmetic *)

(** ** The order of doubles *)

Ltac compare_cases :=
  repeat match goal with
  | |- context [PosDef.Pos.compare_cont Eq ?a ?b] =>
      change (PosDef.Pos.compare_cont Eq a b) with (Pos.compare a b)
  | H : context [PosDef.Pos.compare_cont Eq ?a ?b] |- _ =>
      change (PosDef.Pos.compare_cont Eq a b) with (Pos.compare a b) in H
  | |- context [Z.compare ?a ?b] => destruct (Z.compare_spec a b)
  | |- context [Pos.compare ?a ?b] => destruct (Pos.compare_spec a b)
  | H : context [Z.compare ?a ?b] |- _ => destruct (Z.compare_spec a b)
  | H : context [Pos.compare ?a ?b] |- _ => destruct (Pos.compare_spec a b)
  end.

Section DoubleOrder.

Import SpecFloat FloatOps FloatAxioms PrimFloat.

Lemma SFltb_asym (a b : spec_float) : SFltb a b = true -> SFltb b a = false.
Proof.
  unfold SFltb, SFcompare.
  destruct a as [sa | sa | | sa ma ea], b as [sb | sb | | sb mb eb];
    try destruct sa; try destruct sb; simpl; try congruence;
    compare_cases; simpl; subst; try congruence; try lia.
Qed.

Lemma SFltb_negtrans (a b c : spec_float) :
  Doubles.not_nan a -> Doubles.not_nan b -> Doubles.not_nan c ->
  SFltb a b = false -> SFltb b c = false -> SFltb a c = false.
Proof.
  unfold SFltb, SFcompare, Doubles.not_nan.
  destruct a as [sa | sa | | sa ma ea], b as [sb | sb | | sb mb eb],
           c as [sc | sc | | sc mc ec];
    try destruct sa; try destruct sb; try destruct sc; simpl;
    try contradiction; try congruence; intros _ _ _;
    compare_cases; simpl; subst; try congruence; try lia.
Qed.

Lemma is_nan_spec (x : float) :
  is_nan x = false -> Doubles.not_nan (Prim2SF x).
Proof.
  unfold is_nan. intros H. apply negb_false_iff in H.
  rewrite eqb_spec in H. unfold SFeqb, SFcompare in H.
  destruct (Prim2SF x); simpl; try exact I. discriminate H.
Qed.

(** [<] on doubles is asymmetric, and on doubles other than NaN it is a
    strict weak order. *)
Lemma float_ltb_asym (x y : float) :
  (x <? y)%float = true -> (y <? x)%float = false.
Proof. rewrite !ltb_spec. apply SFltb_asym. Qed.

Lemma float_ltb_negtrans (x y z : float) :
  is_nan x = false -> is_nan y = false -> is_nan z = false ->
  (x <? y)%float = false -> (y <? z)%float = false -> (x <? z)%float = false.
Proof.
  intros Hx Hy Hz. rewrite !ltb_spec.
  apply SFltb_negtrans; apply is_nan_spec; assumption.
Qed.

End DoubleOrder.

(** The stable descending sort orders the keys of a class on which [ltb] is
    a strict weak order. *)
Section OrderedOn.

Context {A K : Type} (ltb : K -> K -> bool) (key : A -> K) (P : K -> Prop).

Hypothesis ltb_asym_on : forall a b, ltb a b = true -> ltb b a = false.
Hypothesis ltb_negtrans_on :
  forall a b c, P a -> P b -> P c ->
    ltb a b = false -> ltb b c = false -> ltb a c = false.

Let not_below (x y : A) : Prop := ltb (key x) (key y) = false.

Lemma insert_desc_sorted_on (x : A) (l : list A) :
  P (key x) -> Forall (fun y => P (key y)) l ->
  StronglySorted not_below l ->
  StronglySorted not_below (insert_desc ltb key x l).
Proof.
  intros Px Pl Hsorted. induction Hsorted as [| y l Hsorted IH Hall]; simpl.
  - constructor; constructor.
  - inversion Pl as [| y' l' Py Pl']; subst.
    destruct (ltb (key x) (key y)) eqn:E.
    + constructor; [apply IH; exact Pl' |].
      apply Forall_forall. intros z Hz.
      apply (Permutation_in _ (insert_desc_perm ltb key x l)) in Hz.
      destruct Hz as [<- | Hz].
      * apply ltb_asym_on. exact E.
      * rewrite Forall_forall in Hall. apply Hall. exact Hz.
    + constructor; [constructor; assumption |].
      constructor; [exact E |].
      apply Forall_forall. intros z Hz.
      rewrite Forall_forall in Hall, Pl'.
      apply ltb_negtrans_on with (b := key y);
        [exact Px | exact Py | apply Pl'; exact Hz | exact E |
         apply Hall; exact Hz].
Qed.

Lemma sort_desc_sorted_on (l : list A) :
  Forall (fun y => P (key y)) l ->
  StronglySorted not_below (sort_desc ltb key l).
Proof.
  induction l as [| x l IH]; intros Pl; simpl.
  - constructor.
  - inversion Pl as [| x' l' Px Pl']; subst.
    apply insert_desc_sorted_on; [exact Px | | apply IH; exact Pl'].
    apply Forall_forall. intros z Hz.
    apply (Permutation_in _ (sort_desc_perm ltb key l)) in Hz.
    rewrite Forall_forall in Pl'. apply Pl'. exact Hz.
Qed.

End OrderedOn.

(** ** The sum of the weights *)

Section DoubleRounding.

Import SpecFloat FloatOps FloatAxioms PrimFloat.

Lemma digits2_pos_bounds (m : positive) :
  2 ^ (Zpos (digits2_pos m) - 1) <= Zpos m < 2 ^ Zpos (digits2_pos m).
Proof.
  induction m as [m IH | m IH |]; cbn [digits2_pos].
  - rewrite Pos2Z.inj_succ.
    replace (Z.succ (Zpos (digits2_pos m)) - 1) with (Zpos (digits2_pos m))
      by lia.
    rewrite Z.pow_succ_r by lia.
    replace (2 ^ Zpos (digits2_pos m))
      with (2 * 2 ^ (Zpos (digits2_pos m) - 1)) in *
      by (rewrite <- Z.pow_succ_r by lia; f_equal; lia).
    lia.
  - rewrite Pos2Z.inj_succ.
    replace (Z.succ (Zpos (digits2_pos m)) - 1) with (Zpos (digits2_pos m))
      by lia.
    rewrite Z.pow_succ_r by lia.
    replace (2 ^ Zpos (digits2_pos m))
      with (2 * 2 ^ (Zpos (digits2_pos m) - 1)) in *
      by (rewrite <- Z.pow_succ_r by lia; f_equal; lia).
    lia.
  - simpl. lia.
Qed.

Lemma shr_1_m (mrs : shr_record) :
  0 <= shr_m mrs -> shr_m (shr_1 mrs) = shr_m mrs / 2.
Proof.
  destruct mrs as [m r s]. cbn [shr_m]. intros Hm.
  destruct m as [| p | p]; [reflexivity | | lia].
  destruct p as [p | p |]; cbn [shr_1 shr_m].
  - rewrite Pos2Z.inj_xI. apply Z.div_unique with (r := 1); lia.
  - rewrite Pos2Z.inj_xO. apply Z.div_unique with (r := 0); lia.
  - reflexivity.
Qed.

Lemma iter_shr_1_m (p : positive) :
  forall mrs : shr_record,
    0 <= shr_m mrs ->
    shr_m (iter_pos shr_1 p mrs) = shr_m mrs / 2 ^ Zpos p.
Proof.
  induction p as [p IH | p IH |]; intros mrs Hm; cbn [iter_pos].
  - assert (H1 : 0 <= shr_m (shr_1 mrs))
      by (rewrite shr_1_m by exact Hm; apply Z.div_pos; lia).
    assert (H2 : 0 <= shr_m (iter_pos shr_1 p (shr_1 mrs)))
      by (rewrite IH by exact H1; apply Z.div_pos; [exact H1 | lia]).
    rewrite IH by exact H2. rewrite IH by exact H1.
    rewrite shr_1_m by exact Hm.
    rewrite !Z.div_div by lia. f_equal.
    replace (Zpos p~1) with (1 + Zpos p + Zpos p) by lia.
    rewrite !Z.pow_add_r by lia. change (2 ^ 1) with 2. ring.
  - assert (H1 : 0 <= shr_m (iter_pos shr_1 p mrs))
      by (rewrite IH by exact Hm; apply Z.div_pos; [exact Hm | lia]).
    rewrite IH by exact H1. rewrite IH by exact Hm.
    rewrite Z.div_div by lia. f_equal.
    replace (Zpos p~0) with (Zpos p + Zpos p) by lia.
    rewrite Z.pow_add_r by lia. reflexivity.
  - rewrite shr_1_m by exact Hm. reflexivity.
Qed.

Lemma shr_record_of_loc_m (m : Z) (l : location) :
  shr_m (shr_record_of_loc m l) = m.
Proof. destruct l as [| []]; reflexivity. Qed.

(** Rounding to the format keeps a positive mantissa positive, as long as
    the exponent is not below the least one. *)
Lemma shr_fexp_positive (m : positive) (e : Z) (l : location) :
  emin <= e ->
  0 < shr_m (fst (shr_fexp prec emax (Zpos m) e l)) /\
  emin <= snd (shr_fexp prec emax (Zpos m) e l).
Proof.
  intros He. unfold shr_fexp, shr. cbn [Zdigits2].
  pose proof (digits2_pos_bounds m) as Hd.
  set (d := Zpos (digits2_pos m)) in *.
  destruct (fexp prec emax (d + e) - e) as [| p | p] eqn:En; cbn [fst snd].
  - rewrite shr_record_of_loc_m. lia.
  - unfold fexp, SpecFloat.emin, prec, emax in *.
    rewrite iter_shr_1_m by (rewrite shr_record_of_loc_m; lia).
    rewrite shr_record_of_loc_m. split; [| lia].
    apply Z.div_str_pos. split; [apply Z.pow_pos_nonneg; lia |].
    apply Z.le_trans with (m := 2 ^ (d - 1)); [| lia].
    apply Z.pow_le_mono_r; lia.
  - rewrite shr_record_of_loc_m. lia.
Qed.

Lemma round_nearest_even_positive (m : Z) (l : location) :
  0 < m -> 0 < round_nearest_even m l.
Proof.
  intros Hm. destruct l as [| []]; cbn [round_nearest_even]; try lia.
  destruct (Z.even m); lia.
Qed.

Lemma binary_round_aux_positive (m : positive) (e : Z) (l : location) :
  emin <= e ->
  Doubles.positive_float (binary_round_aux prec emax false (Zpos m) e l).
Proof.
  intros He. unfold binary_round_aux.
  destruct (shr_fexp_positive m l He) as [Hm1 He1].
  destruct (shr_fexp prec emax (Zpos m) e l) as [mrs1 e1]. cbn [fst snd] in *.
  pose proof (round_nearest_even_positive (loc_of_shr_record mrs1) Hm1) as Hr.
  destruct (round_nearest_even (shr_m mrs1) (loc_of_shr_record mrs1))
    as [| m2 | m2]; try lia.
  destruct (shr_fexp_positive m2 loc_Exact He1) as [Hm2 _].
  destruct (shr_fexp prec emax (Zpos m2) e1 loc_Exact) as [mrs2 e2].
  cbn [fst] in Hm2.
  destruct (shr_m mrs2) as [| m3 | m3]; try lia.
  destruct (e2 <=? emax - prec); exact I.
Qed.

Lemma binary_round_positive (m : positive) (e : Z) :
  emin <= e -> Doubles.positive_float (binary_round prec emax false m e).
Proof.
  intros He. unfold binary_round, shl_align.
  destruct (fexp prec emax (Zpos (digits2_pos m) + e) - e) eqn:En;
    apply binary_round_aux_positive; try exact He.
  unfold fexp, SpecFloat.emin, prec, emax in *. lia.
Qed.

Lemma valid_exponent (s : bool) (m : positive) (e : Z) :
  valid_binary (S754_finite s m e) = true -> emin <= e.
Proof.
  unfold SpecFloat.valid_binary, bounded, canonical_mantissa.
  intros H. apply andb_prop in H. destruct H as [H _].
  apply Z.eqb_eq in H. unfold fexp, SpecFloat.emin, prec, emax in *. lia.
Qed.

Lemma SFadd_positive (x y : spec_float) :
  valid_binary x = true -> valid_binary y = true ->
  Doubles.nonneg_float x -> Doubles.nonneg_float y ->
  ~ (Doubles.zero_float x /\ Doubles.zero_float y) ->
  Doubles.positive_float (SF64add x y).
Proof.
  intros Vx Vy Hx Hy Hz.
  destruct x as [sx | sx | | sx mx ex], y as [sy | sy | | sy my ey];
    try destruct sx; try destruct sy; cbn in Hx, Hy |- *;
    try contradiction; try exact I;
    try (elim Hz; split; exact I).
  apply valid_exponent in Vx, Vy.
  apply binary_round_positive.
  change (IntDef.Z.min ex ey) with (Z.min ex ey). lia.
Qed.

Lemma leb_zero_spec (x : float) :
  (0 <=? x)%float = true -> Doubles.nonneg_float (Prim2SF x).
Proof.
  rewrite leb_spec.
  change (Prim2SF 0%float) with (S754_zero false).
  destruct (Prim2SF x) as [s | s | | s m e]; try destruct s;
    cbn; try discriminate; intros _; exact I.
Qed.

Lemma eqb_zero_spec (x : float) :
  (x =? 0)%float = true <-> Doubles.zero_float (Prim2SF x).
Proof.
  rewrite eqb_spec.
  change (Prim2SF 0%float) with (S754_zero false).
  destruct (Prim2SF x) as [s | s | | s m e]; try destruct s; cbn;
    split; try discriminate; try contradiction; auto.
Qed.

(** The sum of two doubles that are zero or above and not both zero is not
    zero: it is a positive double or infinite. *)
Lemma nonneg_sum_nonzero (x y : float) :
  (0 <=? x)%float = true -> (0 <=? y)%float = true ->
  ((x =? 0) && (y =? 0))%float = false ->
  (x + y =? 0)%float = false.
Proof.
  intros Hx Hy Hz.
  apply leb_zero_spec in Hx, Hy.
  assert (Hnz : ~ (Doubles.zero_float (Prim2SF x) /\
                   Doubles.zero_float (Prim2SF y))).
  { intros [Zx Zy]. apply eqb_zero_spec in Zx, Zy. rewrite Zx, Zy in Hz.
    discriminate Hz. }
  pose proof (@SFadd_positive (Prim2SF x) (Prim2SF y) (Prim2SF_valid x)
                (Prim2SF_valid y) Hx Hy Hnz) as Hpos.
  rewrite <- add_spec in Hpos.
  destruct (x + y =? 0)%float eqn:E; [| reflexivity].
  apply eqb_zero_spec in E.
  destruct (Prim2SF (x + y)); cbn in *; contradiction.
Qed.

End DoubleRounding.

(** ** The two loops *)

Section DoubleFusion.

Import PrimFloat.
Import Doubles.

Local Open Scope float_scope.

Lemma normalize_returns (keyword_weight semantic_weight : float) :
  (keyword_weight + semantic_weight =? 0) = false ->
  normalize keyword_weight semantic_weight
  = Returns (keyword_weight / (keyword_weight + semantic_weight),
             semantic_weight / (keyword_weight + semantic_weight)).
Proof.
  intros Hsum. unfold normalize, true_div. cbv zeta. rewrite Hsum.
  reflexivity.
Qed.

Lemma keyword_entries_last (id_ : str) (keyword_results : list KeywordResult) :
  last_keyword id_ keyword_results = None <->
  keyword_entries id_ keyword_results = 0%nat.
Proof.
  unfold last_keyword, keyword_entries. rewrite length_zero_iff_nil. split.
  - intros Hnone.
    destruct (filter _ keyword_results) as [| r l] eqn:E; [reflexivity |].
    assert (Hr : In r (filter (fun r => PyStr.eqb (kw_id r) id_)
                         keyword_results)) by (rewrite E; left; reflexivity).
    apply filter_In in Hr. destruct Hr as [Hr Hid].
    apply in_rev in Hr. pose proof (find_none _ _ Hnone r Hr) as H.
    simpl in H. congruence.
  - intros Hnil. destruct (find _ _) as [r |] eqn:E; [| reflexivity].
    apply find_some in E. destruct E as [Hr Hid]. apply in_rev in Hr.
    assert (Hin : In r (filter (fun r => PyStr.eqb (kw_id r) id_)
                          keyword_results))
      by (apply filter_In; split; assumption).
    rewrite Hnil in Hin. destruct Hin.
Qed.

Lemma keyword_entries_app (id_ : str) (done_k : list KeywordResult)
  (r : KeywordResult) :
  keyword_entries id_ (done_k ++ [r])
  = (keyword_entries id_ done_k
     + if PyStr.eqb (kw_id r) id_ then 1 else 0)%nat.
Proof.
  unfold keyword_entries. rewrite filter_app, length_app. cbn [filter].
  destruct (PyStr.eqb (kw_id r) id_); reflexivity.
Qed.

Variables keyword_weight semantic_weight : float.

Let invariant := fusion_invariant keyword_weight semantic_weight.

Lemma double_add_semantic_step (result_map : dict CombinedResult)
  (done_s : list SemanticResult) (r : SemanticResult) :
  invariant result_map done_s [] ->
  invariant (add_semantic semantic_weight result_map r) (done_s ++ [r]) [].
Proof.
  intros [Hnd Hinv]. split; [apply dict_set_nodup; exact Hnd |].
  intros id_. unfold last_semantic. rewrite find_last.
  fold (last_semantic id_ done_s). unfold add_semantic.
  destruct (PyStr.eqb (sem_id r) id_) eqn:E.
  - apply str_eqb_eq in E. subst id_. rewrite dict_get_set_same.
    cbn. repeat split; reflexivity.
  - apply str_eqb_neq in E. rewrite dict_get_set_other by exact E.
    apply Hinv.
Qed.

Lemma double_add_keyword_step (result_map : dict CombinedResult)
  (done_s : list SemanticResult) (done_k : list KeywordResult)
  (r : KeywordResult) :
  invariant result_map done_s done_k ->
  invariant (add_keyword keyword_weight semantic_weight result_map r)
    done_s (done_k ++ [r]).
Proof.
  intros [Hnd Hinv]. split.
  - unfold add_keyword. destruct (dict_get result_map (kw_id r));
      apply dict_set_nodup; exact Hnd.
  - intros id_. unfold last_keyword. rewrite find_last.
    fold (last_keyword id_ done_k). rewrite keyword_entries_app.
    unfold add_keyword. specialize (Hinv id_).
    destruct (PyStr.eqb (kw_id r) id_) eqn:E.
    + apply str_eqb_eq in E. subst id_.
      pose proof (keyword_entries_last (kw_id r) done_k) as Hn.
      destruct (dict_get result_map (kw_id r)) as [existing |] eqn:G;
        rewrite dict_get_set_same.
      * destruct Hinv as [Hid [Hs [Hk Hc]]].
        unfold fused, chunk_of in *. cbn [base semantic_confidence
          keyword_confidence combined_confidence].
        split; [exact Hid |]. split; [exact Hs |]. split; [reflexivity |].
        rewrite Hs.
        destruct (last_semantic (kw_id r) done_s) as [s |]; [reflexivity |].
        destruct (last_keyword (kw_id r) done_k) as [k |];
          [| discriminate Hc].
        destruct (keyword_entries (kw_id r) done_k) as [| n];
          [destruct Hn as [_ Hn]; discriminate (Hn eq_refl) |].
        cbn [score]. rewrite Nat.add_1_r. reflexivity.
      * destruct Hinv as [Hs Hk]. rewrite Hs.
        destruct Hn as [Hn _]. rewrite (Hn Hk).
        unfold fused, chunk_of. cbn. repeat split; reflexivity.
    + apply str_eqb_neq in E. rewrite Nat.add_0_r.
      destruct (dict_get result_map (kw_id r));
        rewrite dict_get_set_other by exact E; exact Hinv.
Qed.

Lemma double_fuse_invariant (semantic_results : list SemanticResult)
  (keyword_results : list KeywordResult) :
  invariant
    (fuse semantic_results keyword_results keyword_weight semantic_weight)
    semantic_results keyword_results.
Proof.
  unfold fuse.
  apply (fold_left_invariant
           (add_keyword keyword_weight semantic_weight)
           (fun d done => invariant d semantic_results done)
           (fun d done a => @double_add_keyword_step d semantic_results done a)
           keyword_results _ []).
  apply (fold_left_invariant
           (add_semantic semantic_weight)
           (fun d done => invariant d done [])
           (fun d done a => @double_add_semantic_step d done a)
           semantic_results [] []).
  split; [constructor | intros id_; split; reflexivity].
Qed.

Lemma double_fuse_entry (semantic_results : list SemanticResult)
  (keyword_results : list KeywordResult) (v : CombinedResult) :
  In v (dict_values
          (fuse semantic_results keyword_results keyword_weight
             semantic_weight)) ->
  fused keyword_weight semantic_weight
    (last_semantic (chunk_of v) semantic_results)
    (last_keyword (chunk_of v) keyword_results)
    (keyword_entries (chunk_of v) keyword_results) (chunk_of v) (Some v).
Proof.
  intros Hv. destruct (double_fuse_invariant semantic_results keyword_results)
    as [Hnd Hinv].
  apply in_map_iff in Hv. destruct Hv as [[id_ v'] [Hsnd Hin]].
  simpl in Hsnd. subst v'.
  specialize (Hinv id_). rewrite (dict_member_get _ _ _ Hnd Hin) in Hinv.
  assert (Hid : chunk_of v = id_) by apply Hinv.
  rewrite Hid. exact Hinv.
Qed.

Lemma double_fuse_chunks (semantic_results : list SemanticResult)
  (keyword_results : list KeywordResult) :
  let d := fuse semantic_results keyword_results keyword_weight
             semantic_weight in
  map chunk_of (dict_values d) = dict_keys d.
Proof.
  intros d. destruct (double_fuse_invariant semantic_results keyword_results)
    as [Hnd Hinv]. fold d in Hnd, Hinv.
  unfold dict_values, dict_keys. rewrite map_map. apply map_ext_in.
  intros [id_ v] Hin. simpl. specialize (Hinv id_).
  rewrite (dict_member_get _ _ _ Hnd Hin) in Hinv. apply Hinv.
Qed.

End DoubleFusion.

(** ** Scores and order of the fused results *)

Section DoubleScores.

Import PrimFloat.
Import Doubles.

Local Open Scope float_scope.

Lemma double_last_semantic_none (id_ : str)
  (semantic_results : list SemanticResult) :
  last_semantic id_ semantic_results = None <->
  ~ In id_ (map sem_id semantic_results).
Proof.
  unfold last_semantic. split.
  - intros Hnone Hin. apply in_map_iff in Hin. destruct Hin as [r [Hid Hr]].
    apply in_rev in Hr. pose proof (find_none _ _ Hnone r Hr) as H.
    simpl in H. rewrite Hid, str_eqb_refl in H. discriminate H.
  - intros Hnot. destruct (find _ _) as [r |] eqn:E; [| reflexivity].
    apply find_some in E. destruct E as [Hr Hid]. apply str_eqb_eq in Hid.
    elim Hnot. apply in_map_iff. exists r. split; [exact Hid |].
    apply in_rev. exact Hr.
Qed.

Lemma double_last_keyword_none (id_ : str)
  (keyword_results : list KeywordResult) :
  last_keyword id_ keyword_results = None <->
  ~ In id_ (map kw_id keyword_results).
Proof.
  unfold last_keyword. split.
  - intros Hnone Hin. apply in_map_iff in Hin. destruct Hin as [r [Hid Hr]].
    apply in_rev in Hr. pose proof (find_none _ _ Hnone r Hr) as H.
    simpl in H. rewrite Hid, str_eqb_refl in H. discriminate H.
  - intros Hnot. destruct (find _ _) as [r |] eqn:E; [| reflexivity].
    apply find_some in E. destruct E as [Hr Hid]. apply str_eqb_eq in Hid.
    elim Hnot. apply in_map_iff. exists r. split; [exact Hid |].
    apply in_rev. exact Hr.
Qed.

Lemma double_combine_returns (semantic_results : list SemanticResult)
  (keyword_results : list KeywordResult)
  (keyword_weight semantic_weight : float) :
  (keyword_weight + semantic_weight =? 0) = false ->
  _combine_search_results semantic_results keyword_results keyword_weight
    semantic_weight
  = Returns
      (sort_desc ltb combined_confidence
         (dict_values
            (fuse semantic_results keyword_results
               (keyword_weight / (keyword_weight + semantic_weight))
               (semantic_weight / (keyword_weight + semantic_weight))))).
Proof.
  intros Hsum. unfold _combine_search_results.
  rewrite normalize_returns by exact Hsum. reflexivity.
Qed.

(** C3.  For weights that are zero or above and not both zero,
    [_combine_search_results] divides each weight by the sum of the two, which
    is not zero, and returns one entry per chunk id of the two lists.  With
    [w_k'] and [w_s'] the two quotients, the combined score of a chunk is its
    semantic confidence times [w_s'] when it is in the semantic results only,
    its keyword confidence times [w_k'] when it is in the keyword results
    only (after the term [0.0 * w_s'] when its id stands more than once in
    the keyword results), and the sum of the two products when it is in
    both; sums, quotients and products are those of doubles, and an id that
    a list holds several times counts with its last entry.  The entries are
    in descending order of the combined score whenever no combined score is
    NaN. *)
Theorem combine_search_results_double_scores
  (semantic_results : list SemanticResult)
  (keyword_results : list KeywordResult)
  (keyword_weight semantic_weight : float) :
  (0 <=? keyword_weight) = true -> (0 <=? semantic_weight) = true ->
  ((keyword_weight =? 0) && (semantic_weight =? 0))%bool = false ->
  let wk := keyword_weight / (keyword_weight + semantic_weight) in
  let ws := semantic_weight / (keyword_weight + semantic_weight) in
  normalize keyword_weight semantic_weight = Returns (wk, ws) /\
  exists out,
    _combine_search_results semantic_results keyword_results keyword_weight
      semantic_weight = Returns out /\
    NoDup (map chunk_of out) /\
    (forall id_,
       In id_ (map chunk_of out) <->
       In id_ (map sem_id semantic_results) \/
       In id_ (map kw_id keyword_results)) /\
    (forall v,
       In v out ->
       match last_semantic (chunk_of v) semantic_results,
             last_keyword (chunk_of v) keyword_results with
       | Some s, None => combined_confidence v = sem_confidence s * ws
       | None, Some k =>
           combined_confidence v
           = if (keyword_entries (chunk_of v) keyword_results =? 1)%nat
             then kw_confidence k * wk
             else 0 * ws + kw_confidence k * wk
       | Some s, Some k =>
           combined_confidence v
           = sem_confidence s * ws + kw_confidence k * wk
       | None, None => False
       end) /\
    ((forall v, In v out -> is_nan (combined_confidence v) = false) ->
     descending out).
Proof.
  intros Hk Hs Hnot wk ws.
  pose proof (@nonneg_sum_nonzero _ _ Hk Hs Hnot) as Hsum.
  split; [apply normalize_returns; exact Hsum |].
  eexists. split; [apply double_combine_returns; exact Hsum |].
  fold wk ws.
  set (d := fuse semantic_results keyword_results wk ws).
  assert (Hperm : Permutation (sort_desc ltb combined_confidence
                                 (dict_values d))
                    (dict_values d)) by apply sort_desc_perm.
  destruct (double_fuse_invariant wk ws semantic_results keyword_results)
    as [Hnd Hinv]. fold d in Hnd, Hinv.
  assert (Hids : Permutation
                   (map chunk_of
                      (sort_desc ltb combined_confidence (dict_values d)))
                   (dict_keys d)).
  { pose proof (double_fuse_chunks wk ws semantic_results keyword_results)
      as Hc.
    cbv zeta in Hc. fold d in Hc. rewrite <- Hc.
    apply Permutation_map. exact Hperm. }
  split; [apply (Permutation_NoDup (Permutation_sym Hids)); exact Hnd |].
  split; [| split].
  - intros id_. split.
    + intros Hin. apply (Permutation_in _ Hids) in Hin.
      specialize (Hinv id_).
      destruct (last_semantic id_ semantic_results) eqn:Es.
      * left. destruct (in_dec (list_eq_dec N.eq_dec) id_
                          (map sem_id semantic_results)) as [Hyes | Hno];
          [exact Hyes |].
        apply double_last_semantic_none in Hno. congruence.
      * right. destruct (in_dec (list_eq_dec N.eq_dec) id_
                           (map kw_id keyword_results)) as [Hyes | Hno];
          [exact Hyes |].
        apply double_last_keyword_none in Hno. rewrite Hno in Hinv.
        destruct (dict_get d id_) eqn:G; cbn in Hinv.
        -- destruct Hinv as [_ [_ [_ Hc]]]. discriminate Hc.
        -- apply dict_get_none in G. contradiction.
    + intros Hin. apply (Permutation_in _ (Permutation_sym Hids)).
      destruct (in_dec (list_eq_dec N.eq_dec) id_ (dict_keys d))
        as [Hyes | Hno]; [exact Hyes |].
      apply dict_get_none in Hno. specialize (Hinv id_). rewrite Hno in Hinv.
      destruct Hinv as [Es Ek].
      apply double_last_semantic_none in Es.
      apply double_last_keyword_none in Ek.
      destruct Hin; contradiction.
  - intros v Hv. apply (Permutation_in _ Hperm) in Hv.
    pose proof (double_fuse_entry wk ws semantic_results keyword_results v Hv)
      as Hf.
    destruct Hf as [_ [_ [_ Hc]]].
    destruct (last_semantic (chunk_of v) semantic_results),
             (last_keyword (chunk_of v) keyword_results);
      cbn in Hc; try discriminate Hc; injection Hc as Hc; symmetry;
      exact Hc.
  - intros Hnan. unfold descending.
    apply (sort_desc_sorted_on ltb combined_confidence
             (fun x => is_nan x = false) float_ltb_asym float_ltb_negtrans).
    apply Forall_forall. intros v Hv. apply Hnan.
    apply (Permutation_in _ (Permutation_sym Hperm)). exact Hv.
Qed.

Lemma combine_search_results_double_scores_witness :
  exists out,
    _combine_search_results two_semantic one_keyword three_tenths
      seven_tenths = Returns out /\
    map chunk_of out = [of_string "x"; of_string "y"] /\
    descending out.
Proof.
  destruct (@combine_search_results_double_scores two_semantic one_keyword
              three_tenths seven_tenths)
    as [_ [out [Hrun [_ [_ [_ Hdesc]]]]]]; try reflexivity.
  exists out. split; [exact Hrun |].
  vm_compute in Hrun. injection Hrun as Hout.
  split.
  - rewrite <- Hout. reflexivity.
  - apply Hdesc. rewrite <- Hout. intros v [<- | [<- | []]]; reflexivity.
Defined.

(** C3, with weights normalized to sum 1: not so.  The weights 0.1 and 0.3
    become 0.25 and 0.7499999999999999, whose sum is 0.9999999999999999. *)
Lemma normalized_weights_sum_cex :
  ~ (forall keyword_weight semantic_weight : float,
       (0 <=? keyword_weight) = true -> (0 <=? semantic_weight) = true ->
       ((keyword_weight =? 0) && (semantic_weight =? 0))%bool = false ->
       exists wk ws,
         normalize keyword_weight semantic_weight = Returns (wk, ws) /\
         (wk + ws =? 1) = true).
Proof.
  intros H.
  destruct (H tenth three_tenths) as [wk [ws [Hrun Hsum]]];
    try reflexivity.
  vm_compute in Hrun. injection Hrun as <- <-.
  vm_compute in Hsum. discriminate Hsum.
Qed.

(** When the sum of the weights overflows, both quotients are zero. *)
Lemma normalized_weights_overflow :
  normalize huge huge = Returns (0, 0).
Proof. reflexivity. Qed.

(** X18.  The combined score is not bounded by 1: with the weights 0.5 and
    0.59 a chunk that both searches find with confidence 1.0 gets the score
    1.0000000000000002. *)
Lemma combined_confidence_above_one :
  exists v,
    _combine_search_results sure_semantic sure_keyword half
      fifty_nine_hundredths = Returns [v] /\
    semantic_confidence v = 1 /\ keyword_confidence v = 1 /\
    (1 <? combined_confidence v) = true.
Proof. eexists. repeat split. Qed.

(** A chunk that stands twice in the keyword results, and not in the
    semantic ones, has the term [0.0 * w_s'] in its score: with the weights 1
    and infinity, [w_k'] is 0 and [w_s'] is NaN, and the score is NaN where
    [keyword_confidence * w_k'] is 0. *)
Lemma repeated_keyword_score :
  exists v,
    _combine_search_results [] twice_keyword 1 infinity = Returns [v] /\
    normalize 1 infinity = Returns (0, nan) /\
    is_nan (combined_confidence v) = true /\
    keyword_confidence v * 0 = 0.
Proof. eexists. repeat split. Qed.

(** With a NaN among the combined scores the output need not be descending:
    the scores 0.7, NaN and 1.4 stay in this order. *)
Lemma nan_score_not_descending :
  exists out,
    _combine_search_results nan_semantic [] three_tenths seven_tenths
    = Returns out /\
    map chunk_of out = [of_string "a"; of_string "b"; of_string "c"] /\
    ~ descending out.
Proof.
  eexists. split; [reflexivity |]. split; [reflexivity |].
  intros H. apply StronglySorted_inv in H. destruct H as [_ H].
  rewrite Forall_forall in H.
  specialize (H _ (or_intror (or_introl eq_refl))).
  vm_compute in H. discriminate H.
Qed.

End DoubleScores.

(** * Further properties of the pipeline *)

(** ** Stripping *)

Lemma lstrip_head (s : str) (ch : char) :
  hd_error (lstrip s) = Some ch -> isspace ch = false.
Proof.
  induction s as [| c s IH]; simpl; [discriminate |].
  destruct (isspace c) eqn:E; [exact IH |].
  simpl. intros H. injection H as <-. exact E.
Qed.

Lemma lstrip_suffix (s : str) : exists before, s = before ++ lstrip s.
Proof.
  induction s as [| c s [before IH]]; simpl.
  - exists []. reflexivity.
  - destruct (isspace c).
    + exists (c :: before). simpl. rewrite <- IH. reflexivity.
    + exists []. reflexivity.
Qed.

Lemma rstrip_prefix (s : str) : exists after, s = rstrip s ++ after.
Proof.
  unfold rstrip. destruct (lstrip_suffix (rev s)) as [before H].
  exists (rev before). rewrite <- rev_app_distr, <- H, rev_involutive.
  reflexivity.
Qed.

Lemma hd_error_app {A : Type} (l l' : list A) :
  l <> [] -> hd_error (l ++ l') = hd_error l.
Proof. destruct l; [congruence | reflexivity]. Qed.

Lemma strip_stripped (s : str) : truthy (strip s) = true -> stripped (strip s).
Proof.
  intros Hne. unfold stripped. split; [| split].
  - destruct (strip s); [discriminate | discriminate].
  - intros ch. unfold strip. apply lstrip_head.
  - intros ch Hch. unfold strip in *.
    destruct (lstrip_suffix (rstrip s)) as [before Hsuf].
    assert (Hrev : rev (rstrip s)
                   = rev (lstrip (rstrip s)) ++ rev before).
    { rewrite <- rev_app_distr, <- Hsuf. reflexivity. }
    assert (Hnz : rev (lstrip (rstrip s)) <> []).
    { intros H0. apply (f_equal (@rev _)) in H0.
      rewrite rev_involutive in H0. simpl in H0. rewrite H0 in Hne.
      discriminate Hne. }
    rewrite <- (hd_error_app (rev before) Hnz), <- Hrev in Hch.
    unfold rstrip in Hch. rewrite rev_involutive in Hch.
    exact (lstrip_head _ Hch).
Qed.

Lemma strip_infix (s : str) : infix_of (strip s) s.
Proof.
  unfold strip. destruct (rstrip_prefix s) as [after Ha].
  destruct (lstrip_suffix (rstrip s)) as [before Hb].
  exists before, after. rewrite app_assoc, <- Hb. exact Ha.
Qed.

Lemma slice_infix {A : Type} (l : list A) (a b : Z) :
  exists before after, l = before ++ slice l a b ++ after.
Proof.
  unfold slice.
  exists (firstn (Z.to_nat (clip l a)) l),
         (skipn (Z.to_nat (clip l b - clip l a))
            (skipn (Z.to_nat (clip l a)) l)).
  rewrite firstn_skipn, firstn_skipn. reflexivity.
Qed.

Lemma infix_length (s text : str) :
  infix_of s text -> (length s <= length text)%nat.
Proof.
  intros [before [after ->]]. rewrite !length_app. lia.
Qed.

Lemma infix_trans (s t u : str) : infix_of s t -> infix_of t u -> infix_of s u.
Proof.
  intros [b1 [a1 ->]] [b2 [a2 ->]].
  exists (b2 ++ b1), (a1 ++ a2). rewrite <- !app_assoc. reflexivity.
Qed.

Lemma slice_length_window {A : Type} (l : list A) (a b : Z) :
  0 <= a -> 0 <= b -> Z.of_nat (length (slice l a b)) <= Z.max 0 (b - a).
Proof.
  intros Ha Hb. unfold slice. rewrite length_firstn.
  pose proof (len_nonneg l) as Hl. unfold clip.
  destruct (Z.ltb_spec a 0); [lia |].
  destruct (Z.ltb_spec b 0); lia.
Qed.

Lemma strip_blank (s : str) : blank s -> strip s = [].
Proof.
  intros Hb. unfold strip, rstrip.
  assert (Hl : forall t : str, blank t -> lstrip t = []).
  { induction t as [| c t IH]; intros Ht; simpl; [reflexivity |].
    rewrite (Ht c (in_eq c t)). apply IH. intros d Hd. apply Ht.
    right. exact Hd. }
  rewrite (Hl (rev s)); [reflexivity |].
  intros c Hc. apply Hb. apply in_rev. exact Hc.
Qed.

(** ** The chunker, continued *)

Section ChunkerInvariant.

Variables (self : RAGPipeline) (text : str).

(** What holds of the window starts, and what holds of the chunks. *)
Variables (J : Z -> Prop) (P : str -> Prop).

Hypothesis window :
  forall start e,
    J start -> find_cut self text start = Returns e ->
    J (next_start text self e) /\
    (truthy (strip (slice text start e)) = true ->
     P (strip (slice text start e))).

Lemma split_loop_invariant (fuel : nat) :
  forall start acc out,
    J start -> Forall P acc ->
    split_loop fuel self text start acc = Some (Returns out) ->
    Forall P out.
Proof.
  induction fuel as [| fuel IH]; intros start acc out Hj Hacc Hrun;
    cbn [split_loop] in Hrun.
  - destruct (start <? len text); [discriminate |].
    injection Hrun as <-. exact Hacc.
  - destruct (start <? len text); [| injection Hrun as <-; exact Hacc].
    unfold split_step in Hrun.
    destruct (find_cut self text start) as [e | err] eqn:Hcut;
      cbn [bind] in Hrun; [| discriminate].
    destruct (window Hj Hcut) as [Hnext Hchunk].
    apply (IH _ _ _ Hnext) in Hrun; [exact Hrun |].
    destruct (truthy (strip (slice text start e))) eqn:Ht; [| exact Hacc].
    apply Forall_app. split; [exact Hacc |].
    constructor; [apply Hchunk; reflexivity | constructor].
Qed.

End ChunkerInvariant.

(** X1.  Whatever the parameters of the pipeline, every chunk that
    [_split_text] returns is stripped: it is not empty and has no white space
    at its start or at its end. *)
Theorem split_text_chunks_stripped (fuel : nat) (self : RAGPipeline)
  (text : str) (chunks : list str) :
  _split_text_fuel fuel self text = Some (Returns chunks) ->
  Forall stripped chunks.
Proof.
  unfold _split_text_fuel. destruct (negb (truthy text)).
  - intros H. injection H as <-. constructor.
  - apply (@split_loop_invariant self text (fun _ => True) stripped).
    + intros start e _ _. split; [exact I | apply strip_stripped].
    + exact I.
    + constructor.
Qed.

Lemma split_text_chunks_stripped_witness :
  Forall stripped [of_string "One."; of_string "Two"].
Proof.
  apply (@split_text_chunks_stripped 9 {| chunk_size := 5; chunk_overlap := 0 |}
           (of_string " One.  Two ")).
  reflexivity.
Defined.

Lemma split_step_init_shape (text : str) (start : Z) (chunks : list str) :
  0 <= start ->
  exists e,
    find_cut init text start = Returns e /\
    start + 400 < e <= start + 501 /\
    split_step init text start chunks
    = Returns (next_start text init e,
               if truthy (strip (slice text start e))
               then chunks ++ [strip (slice text start e)] else chunks) /\
    start + 350 < next_start text init e.
Proof.
  intros Hstart.
  destruct (find_cut_init text Hstart) as [e [He [Hrange _]]].
  exists e. split; [exact He |]. split; [exact Hrange |]. split.
  - unfold split_step. rewrite He. reflexivity.
  - unfold next_start. change (chunk_overlap init) with 50.
    destruct (e <? len text); lia.
Qed.

Lemma split_loop_init_invariant (text : str) (P : str -> Prop) :
  (forall start e,
     0 <= start -> start + 400 < e <= start + 501 ->
     truthy (strip (slice text start e)) = true ->
     P (strip (slice text start e))) ->
  forall fuel start acc out,
    0 <= start -> Forall P acc ->
    split_loop fuel init text start acc = Some (Returns out) ->
    Forall P out.
Proof.
  intros Hwindow fuel.
  apply (@split_loop_invariant init text (fun start => 0 <= start) P).
  intros start e Hstart Hcut.
  destruct (split_step_init_shape text [] Hstart)
    as [e' [Hcut' [Hrange [_ Hnext]]]].
  assert (e' = e) by congruence. subst e'.
  split; [lia | apply Hwindow; assumption].
Qed.

(** X2.  With the parameters of [__init__], [_split_text] returns, for every
    text, a list of chunks each of which is a contiguous part of the text of
    at most 501 characters: the window of 500 plus the one character by which
    a sentence end at the raw cut moves the cut forward. *)
Theorem split_text_chunks_bounded (text : str) :
  exists chunks,
    _split_text init text = Some (Returns chunks) /\
    Forall (fun chunk => infix_of chunk text /\ (length chunk <= 501)%nat)
      chunks.
Proof.
  destruct (split_text_returns text) as [chunks Hrun].
  exists chunks. split; [exact Hrun |].
  unfold _split_text, _split_text_fuel in Hrun.
  destruct (negb (truthy text)); [injection Hrun as <-; constructor |].
  revert Hrun. apply split_loop_init_invariant; [| lia | constructor].
  intros start e Hstart Hrange _. split.
  - apply infix_trans with (t := slice text start e); [apply strip_infix |].
    apply slice_infix.
  - pose proof (infix_length (strip_infix (slice text start e))) as H1.
    pose proof (slice_length_window text (a := start) (b := e)) as H2. lia.
Qed.

(** X3.  A text of white space only yields no chunk, so [index_document]
    answers [False] for it and leaves the collection as it was, whatever the
    collaborators are. *)
Theorem blank_text_not_indexed {C : Type} {VI : VectorIndex C}
  {EM : EmbeddingModel} (c : C) (document_id text : str)
  (metadata_ : option metadata) :
  blank text ->
  _split_text init text = Some (Returns []) /\
  index_document init document_id text metadata_ c = Some (false, c).
Proof.
  intros Hblank.
  assert (Hsplit : _split_text init text = Some (Returns [])).
  { destruct (split_text_returns text) as [chunks Hrun]. rewrite Hrun.
    unfold _split_text, _split_text_fuel in Hrun.
    destruct (negb (truthy text)); [symmetry; exact Hrun |].
    apply (@split_loop_init_invariant text (fun _ => False)) in Hrun;
      [| | lia | constructor].
    - destruct chunks as [| ch chunks]; [reflexivity |].
      inversion Hrun as [| ? ? Hfalse _]. contradiction.
    - intros start e _ _ Htruthy. rewrite strip_blank in Htruthy.
      + discriminate Htruthy.
      + intros ch Hch. apply Hblank. eapply slice_member. exact Hch. }
  split; [exact Hsplit |].
  unfold index_document. rewrite Hsplit. reflexivity.
Qed.

Lemma blank_text_not_indexed_witness :
  index_document (VI := MemIndex.index) (EM := MemIndex.unit_encoder) init
    (of_string "c") [32; 10; 9; 12288]%N None MemIndex.sample
  = Some (false, MemIndex.sample).
Proof.
  apply (@blank_text_not_indexed _ MemIndex.index MemIndex.unit_encoder
           MemIndex.sample (of_string "c") [32; 10; 9; 12288]%N None).
  intros ch Hch. simpl in Hch.
  destruct Hch as [<- | [<- | [<- | [<- | []]]]]; reflexivity.
Defined.

(** X4.  A text of at most 500 characters is not split: [_split_text] returns
    the stripped text as the only chunk, or no chunk when nothing is left
    after stripping. *)
Theorem short_text_single_chunk (text : str) :
  len text <= 500 ->
  _split_text init text
  = Some (Returns (if truthy (strip text) then [strip text] else [])).
Proof.
  intros Hshort. unfold _split_text, _split_text_fuel.
  destruct text as [| c text']; [reflexivity |].
  set (text := c :: text') in *. cbn [truthy negb].
  assert (Hpos : 0 < len text) by (unfold len, text; simpl; lia).
  change (length text) with (S (length text')).
  cbn [split_loop]. destruct (Z.ltb_spec 0 (len text)); [| lia].
  assert (Hcut : find_cut init text 0 = Returns 500).
  { unfold find_cut. change (chunk_size init) with 500.
    destruct (Z.ltb_spec (0 + 500) (len text)); [lia | reflexivity]. }
  unfold split_step. rewrite Hcut. cbn [bind].
  assert (Hslice : slice text 0 500 = text).
  { rewrite slice_window by lia. rewrite skipn_0.
    apply firstn_all2. unfold len in Hshort. lia. }
  rewrite Hslice.
  destruct (Z.ltb_spec 500 (len text)); [lia |].
  rewrite split_loop_done by lia.
  destruct (truthy (strip text)); reflexivity.
Qed.

Lemma short_text_single_chunk_witness :
  _split_text init (of_string "  Hello world. ")
  = Some (Returns [of_string "Hello world."]).
Proof.
  apply (@short_text_single_chunk (of_string "  Hello world. ")).
  vm_compute. discriminate.
Defined.

Lemma split_loop_count (text : str) (fuel : nat) :
  forall start acc out,
    0 <= start ->
    split_loop fuel init text start acc = Some (Returns out) ->
    (length acc <= length out)%nat /\
    351 * (Z.of_nat (length out) - Z.of_nat (length acc))
    < Z.max 0 (len text - start) + 351.
Proof.
  induction fuel as [| fuel IH]; intros start acc out Hstart Hrun;
    cbn [split_loop] in Hrun.
  - destruct (start <? len text); [discriminate |].
    injection Hrun as <-. lia.
  - destruct (Z.ltb_spec start (len text)) as [Hlt | Hge];
      [| injection Hrun as <-; lia].
    destruct (split_step_init_shape text acc Hstart)
      as [e [_ [_ [Hstep Hnext]]]].
    rewrite Hstep in Hrun. apply IH in Hrun; [| lia].
    destruct Hrun as [Hmono Hcount].
    destruct (truthy (strip (slice text start e)));
      [rewrite length_app in *; cbn [length] in * |]; lia.
Qed.

(** X5.  The number of chunks is bounded by the length of the text: each
    window starts more than 350 characters after the one before, so [n] chunks
    need a text of more than [351 * (n - 1)] characters. *)
Theorem split_text_chunk_count (text : str) :
  exists chunks,
    _split_text init text = Some (Returns chunks) /\
    351 * (len chunks - 1) < len text.
Proof.
  destruct (split_text_returns text) as [chunks Hrun].
  exists chunks. split; [exact Hrun |].
  unfold _split_text, _split_text_fuel in Hrun.
  destruct (negb (truthy text)).
  - injection Hrun as <-. unfold len. simpl. lia.
  - apply split_loop_count in Hrun; [| lia]. unfold len in *.
    cbn [length] in Hrun. lia.
Qed.

(** ** Chunk ids and chunk metadata *)

Lemma of_string_inj (s t : string) : of_string s = of_string t -> s = t.
Proof.
  revert t. induction s as [| a s IH]; intros [| b t] H; simpl in H;
    try discriminate; [reflexivity |].
  injection H as Hab Hst. f_equal; [| apply IH; exact Hst].
  unfold of_ascii in Hab.
  rewrite <- (ascii_N_embedding a), <- (ascii_N_embedding b), Hab.
  reflexivity.
Qed.

Lemma to_uint_nonnil (n : nat) : Nat.to_uint n <> Decimal.Nil.
Proof.
  rewrite <- (DecimalNat.Unsigned.of_to n) at 1.
  rewrite DecimalNat.Unsigned.to_of. apply DecimalFacts.unorm_nonnil.
Qed.

Lemma of_nat_inj (n m : nat) : PyStr.of_nat n = PyStr.of_nat m -> n = m.
Proof.
  unfold PyStr.of_nat. intros H. apply of_string_inj in H.
  apply (f_equal NilZero.uint_of_string) in H.
  rewrite !NilZero.usu in H by apply to_uint_nonnil.
  injection H as H. apply DecimalNat.Unsigned.to_uint_inj. exact H.
Qed.

Lemma digits_of_uint (d : Decimal.uint) :
  Forall is_digit (of_string (NilEmpty.string_of_uint d)).
Proof.
  induction d; simpl; constructor; try exact IHd;
    unfold is_digit, of_ascii; simpl; lia.
Qed.

Lemma of_nat_digits (n : nat) : Forall is_digit (PyStr.of_nat n).
Proof.
  unfold PyStr.of_nat, NilZero.string_of_uint.
  destruct (Nat.to_uint n) eqn:E; try (rewrite <- E; apply digits_of_uint).
  constructor; [unfold is_digit, of_ascii; simpl; lia | constructor].
Qed.

Lemma split_at_first {A : Type} (x : A) :
  forall l1 l2 r1 r2,
    ~ In x l1 -> ~ In x l2 ->
    l1 ++ x :: r1 = l2 ++ x :: r2 -> l1 = l2 /\ r1 = r2.
Proof.
  induction l1 as [| a l1 IH]; intros [| b l2] r1 r2 H1 H2 H; simpl in *.
  - injection H as <-. split; reflexivity.
  - injection H as <- _. elim H2. left. reflexivity.
  - injection H as -> _. elim H1. left. reflexivity.
  - injection H as <- H.
    destruct (IH l2 r1 r2) as [-> ->]; [tauto | tauto | exact H |].
    split; reflexivity.
Qed.

Lemma chunk_id_parts (document_id : str) (i : Z) :
  0 <= i ->
  rev (chunk_id document_id i)
  = rev (PyStr.of_nat (Z.to_nat i))
    ++ 95%N :: ([107; 110; 117; 104; 99; 95]%N ++ rev document_id).
Proof.
  intros Hi. unfold chunk_id, str_of_int.
  destruct (Z.ltb_spec i 0); [lia |].
  rewrite !rev_app_distr. rewrite <- app_assoc. reflexivity.
Qed.

Lemma digits_no_underscore (n : nat) : ~ In 95%N (rev (PyStr.of_nat n)).
Proof.
  intros H. apply in_rev in H.
  pose proof (of_nat_digits n) as Hd. rewrite Forall_forall in Hd.
  specialize (Hd _ H). unfold is_digit in Hd. lia.
Qed.

(** X6.  A chunk id determines the document id and the index it was built
    from: two chunks, of one document or of two, never get the same id. *)
Theorem chunk_id_injective (document_id document_id' : str) (i i' : Z) :
  0 <= i -> 0 <= i' ->
  chunk_id document_id i = chunk_id document_id' i' ->
  document_id = document_id' /\ i = i'.
Proof.
  intros Hi Hi' Heq. apply (f_equal (@rev _)) in Heq.
  rewrite !chunk_id_parts in Heq by assumption.
  apply split_at_first in Heq; try apply digits_no_underscore.
  destruct Heq as [Hdigits Hrest].
  apply app_inv_head in Hrest.
  apply (f_equal (@rev _)) in Hrest, Hdigits.
  rewrite !rev_involutive in Hrest, Hdigits.
  split; [exact Hrest |]. apply of_nat_inj in Hdigits. lia.
Qed.

Lemma chunk_id_injective_witness :
  of_string "a_chunk_1" = of_string "a_chunk_1" /\ 0 = 0.
Proof.
  apply (@chunk_id_injective (of_string "a_chunk_1") (of_string "a_chunk_1")
           0 0); [lia | lia | reflexivity].
Defined.

Lemma enumerate_fst {A B : Type} (f : Z -> B) :
  forall n k (l : list A),
    length l = n ->
    map (fun ic => f (fst ic)) (combine (map Z.of_nat (seq k n)) l)
    = map f (map Z.of_nat (seq k n)).
Proof.
  induction n as [| n IH]; intros k [| a l] Hl; simpl in *; try discriminate;
    [reflexivity |].
  rewrite IH by lia. reflexivity.
Qed.

Lemma enumerate_snd {A : Type} :
  forall n k (l : list A),
    length l = n -> map snd (combine (map Z.of_nat (seq k n)) l) = l.
Proof.
  induction n as [| n IH]; intros k [| a l] Hl; simpl in *; try discriminate;
    [reflexivity |].
  rewrite IH by lia. reflexivity.
Qed.

Lemma NoDup_map_injective {A B : Type} (f : A -> B) (l : list A) :
  (forall x y, In x l -> In y l -> f x = f y -> x = y) ->
  NoDup l -> NoDup (map f l).
Proof.
  intros Hinj Hnd. induction Hnd as [| a l Ha Hnd IH]; simpl; constructor.
  - intros Hin. apply in_map_iff in Hin. destruct Hin as [y [Hy Hin]].
    assert (y = a) by (apply Hinj; [right; exact Hin | left; reflexivity | exact Hy]).
    subst y. contradiction.
  - apply IH. intros x y Hx Hy. apply Hinj; right; assumption.
Qed.

(** X7.  The batch [index_document] hands to [collection.add] is well formed:
    the documents are the chunks in their order, the id of chunk [i] is
    [document_id_chunk_i], the three lists have one entry per chunk, and no id
    occurs twice. *)
Theorem index_batch_well_formed (document_id : str) (chunks : list str)
  (metadata_ : option metadata) :
  batch_documents chunks = chunks /\
  batch_ids document_id chunks
  = map (chunk_id document_id) (range (length chunks)) /\
  length (batch_ids document_id chunks) = length chunks /\
  length (batch_metadatas document_id chunks metadata_) = length chunks /\
  NoDup (batch_ids document_id chunks).
Proof.
  assert (Hids : batch_ids document_id chunks
                 = map (chunk_id document_id) (range (length chunks))).
  { unfold batch_ids, enumerate, range. apply enumerate_fst. reflexivity. }
  split; [unfold batch_documents, enumerate, range; apply enumerate_snd;
          reflexivity |].
  split; [exact Hids |].
  split; [rewrite Hids; unfold range; rewrite !length_map, length_seq;
          reflexivity |].
  split.
  - unfold batch_metadatas, enumerate, range.
    rewrite length_map, length_combine, length_map, length_seq. lia.
  - rewrite Hids. unfold range. rewrite map_map.
    apply NoDup_map_injective; [| apply seq_NoDup].
    intros x y _ _ H. apply chunk_id_injective in H; lia.
Qed.

Lemma dict_get_update {V : Type} (e : dict V) :
  forall (d : dict V) (k : str),
    NoDup (dict_keys e) ->
    dict_get (dict_update d e) k
    = match dict_get e k with
      | Some v => Some v
      | None => dict_get d k
      end.
Proof.
  unfold dict_update.
  induction e as [| [k0 v0] e IH]; intros d k Hnd; simpl.
  - reflexivity.
  - inversion Hnd as [| ? ? Hk0 Hnd']; subst.
    rewrite IH by exact Hnd'.
    destruct (PyStr.eqb k0 k) eqn:E.
    + apply str_eqb_eq in E. subst k0.
      assert (Hnone : dict_get e k = None) by (apply dict_get_none; exact Hk0).
      rewrite Hnone. apply dict_get_set_same.
    + apply str_eqb_neq in E.
      rewrite (dict_get_set_other _ _ E). reflexivity.
Qed.

(** X8.  In the metadata stored with a chunk, an entry of the caller takes
    precedence over the entry [index_document] builds for the same key: a key
    the caller supplies has the caller's value, also for [document_id],
    [chunk_index] and [chunk_text]; any other key has the built-in value. *)
Theorem chunk_metadata_lookup (document_id : str) (i : Z) (chunk : str)
  (metadata_ : option metadata) (k : str) :
  is_dict metadata_ ->
  dict_get (chunk_metadata document_id i chunk metadata_) k
  = match caller_value metadata_ k with
    | Some v => Some v
    | None => dict_get (builtin_metadata document_id i chunk) k
    end.
Proof.
  intros Hdict. unfold chunk_metadata. fold (builtin_metadata document_id i chunk).
  destruct metadata_ as [m |]; cbn [caller_value is_dict] in *.
  - destruct m as [| kv m]; cbn [truthy].
    + reflexivity.
    + apply dict_get_update. exact Hdict.
  - reflexivity.
Qed.

Lemma chunk_metadata_lookup_witness :
  dict_get
    (chunk_metadata (of_string "a") 3 (of_string "text")
       (Some [(of_string "document_id", MStr (of_string "b"))]))
    (of_string "document_id")
  = Some (MStr (of_string "b")).
Proof.
  apply (@chunk_metadata_lookup (of_string "a") 3 (of_string "text")
           (Some [(of_string "document_id", MStr (of_string "b"))])
           (of_string "document_id")).
  repeat constructor. simpl. tauto.
Defined.

(** ** Failures of indexing, removal and semantic search *)

(** X9.  [index_document] does not undo and does not retry.  When the
    embedding call raises, the flag is [False] and the collection is left as
    it was; when [collection.add] raises, the flag is [False] and the
    collection is left as [add] left it. *)
Theorem index_document_failures {C : Type} {VI : VectorIndex C}
  {EM : EmbeddingModel} (c : C) (document_id text : str)
  (metadata_ : option metadata) (chunks : list str) :
  _split_text init text = Some (Returns chunks) ->
  (forall e,
     encode chunks = Raises e ->
     index_document init document_id text metadata_ c = Some (false, c)) /\
  (forall embeddings e c',
     chunks <> [] ->
     encode chunks = Returns embeddings ->
     collection_add c (batch_documents chunks)
       (batch_metadatas document_id chunks metadata_)
       (batch_ids document_id chunks) embeddings = (Raises e, c') ->
     index_document init document_id text metadata_ c = Some (false, c')).
Proof.
  intros Hsplit. unfold index_document. rewrite Hsplit.
  unfold try_exceptA, index_document_body, bindA, pure_, ret.
  split.
  - intros e Henc. destruct chunks; cbn [truthy negb]; [reflexivity |].
    rewrite Henc. reflexivity.
  - intros embeddings e c' Hne Henc Hadd.
    destruct chunks as [| ch chunks]; [congruence |]. cbn [truthy negb].
    rewrite Henc, Hadd. reflexivity.
Qed.

Lemma index_document_failures_witness :
  index_document (VI := MemIndex.index) (EM := MemIndex.failing_encoder) init
    (of_string "c") (of_string "hello") None MemIndex.sample
  = Some (false, MemIndex.sample) /\
  index_document (VI := MemIndex.index) (EM := empty_encoder) init
    (of_string "c") (of_string "hello") None MemIndex.sample
  = Some (false, MemIndex.sample).
Proof.
  split.
  - destruct (@index_document_failures _ MemIndex.index
                MemIndex.failing_encoder MemIndex.sample (of_string "c")
                (of_string "hello") None [of_string "hello"] eq_refl)
      as [Henc _].
    apply (Henc (CollaboratorError 4)). reflexivity.
  - destruct (@index_document_failures _ MemIndex.index empty_encoder
                MemIndex.sample (of_string "c") (of_string "hello") None
                [of_string "hello"] eq_refl)
      as [_ Hadd].
    apply (Hadd [] (CollaboratorError 1) MemIndex.sample);
      [discriminate | reflexivity | reflexivity].
Defined.

(** X10.  [remove_document] answers [True] exactly when the collection
    reported at least one id for the document and the one [delete] call for
    exactly those ids returned; the collection is then as [delete] left it. *)
Theorem remove_document_success {C : Type} {VI : VectorIndex C} (c c' : C)
  (document_id : str) :
  remove_document document_id c = (true, c') <->
  exists r,
    collection_get c (Some (WhereDocument document_id)) = Returns r /\
    get_ids r <> [] /\
    collection_delete c (get_ids r) = (Returns tt, c').
Proof.
  unfold remove_document, try_exceptA, bindA, read, ret.
  destruct (collection_get c (Some (WhereDocument document_id)))
    as [r | e] eqn:Hget.
  - destruct (get_ids r) as [| i ids] eqn:Hids; cbn [truthy].
    + split; [discriminate |]. intros [r' [Hr' [Hne _]]].
      injection Hr' as <-. congruence.
    + destruct (collection_delete c (i :: ids)) as [[[] | e] c1] eqn:Hdel.
      * split.
        -- intros H. injection H as <-. exists r. rewrite Hids.
           split; [reflexivity |]. split; [discriminate | exact Hdel].
        -- intros [r' [Hr' [_ Hdel']]]. injection Hr' as <-.
           rewrite Hids, Hdel in Hdel'. congruence.
      * split; [discriminate |]. intros [r' [Hr' [_ Hdel']]].
        injection Hr' as <-. rewrite Hids, Hdel in Hdel'. discriminate Hdel'.
  - split; [discriminate |]. intros [r' [Hr' _]]. discriminate Hr'.
Qed.

Lemma getitem_raises {A : Type} (l : list A) (i : Z) (e : exn) :
  getitem l i = Raises e -> e = IndexError.
Proof.
  unfold getitem. destruct ((_ <? 0) || _); [congruence |].
  destruct (nth_error _ _); congruence.
Qed.

Lemma getitem_returns_range {A : Type} (l : list A) (i : Z) (x : A) :
  0 <= i -> getitem l i = Returns x -> i < len l.
Proof.
  intros Hi. unfold getitem. destruct (Z.ltb_spec i 0); [lia |].
  destruct (Z.ltb_spec i 0); [lia |].
  destruct (Z.leb_spec (len l) i); [discriminate | lia].
Qed.

Section QueryFailure.

Context {C : Type} {VI : VectorIndex C} {EM : EmbeddingModel}.

Lemma process_results_raises (results : QueryResult) (min_confidence : Q) :
  forall idx acc e,
    process_results results min_confidence idx acc = Raises e ->
    e = IndexError.
Proof.
  induction idx as [| i idx IH]; intros acc e; cbn [process_results];
    [discriminate |].
  destruct (getitem (qr_ids results) i) eqn:H1; cbn [bind];
    [| intros H; injection H as <-; exact (getitem_raises _ _ H1)].
  destruct (getitem (qr_documents results) i) eqn:H2; cbn [bind];
    [| intros H; injection H as <-; exact (getitem_raises _ _ H2)].
  destruct (getitem (qr_metadatas results) i) eqn:H3; cbn [bind];
    [| intros H; injection H as <-; exact (getitem_raises _ _ H3)].
  destruct (getitem (qr_distances results) i) eqn:H4; cbn [bind];
    [| intros H; injection H as <-; exact (getitem_raises _ _ H4)].
  apply IH.
Qed.

Lemma process_results_returns (results : QueryResult) (min_confidence : Q) :
  forall idx acc out,
    process_results results min_confidence idx acc = Returns out ->
    forall i, In i idx -> 0 <= i ->
              i < len (qr_documents results) /\
              i < len (qr_metadatas results) /\
              i < len (qr_distances results).
Proof.
  induction idx as [| i0 idx IH]; intros acc out Hrun i Hin Hi;
    [contradiction |].
  cbn [process_results] in Hrun.
  destruct (getitem (qr_ids results) i0) eqn:H1; cbn [bind] in Hrun;
    [| discriminate].
  destruct (getitem (qr_documents results) i0) eqn:H2; cbn [bind] in Hrun;
    [| discriminate].
  destruct (getitem (qr_metadatas results) i0) eqn:H3; cbn [bind] in Hrun;
    [| discriminate].
  destruct (getitem (qr_distances results) i0) eqn:H4; cbn [bind] in Hrun;
    [| discriminate].
  destruct Hin as [<- | Hin].
  - repeat split; eapply getitem_returns_range; eassumption.
  - exact (IH _ _ Hrun i Hin Hi).
Qed.

(** X11.  [query] turns every failure into the error answer with no results
    and [total_found = 0]: when the embedding call raises, when the
    collection raises, and when the collection answers with fewer documents,
    metadatas or distances than ids, in which case even the results that were
    complete are not returned. *)
Theorem query_failure_answer (c : C) (query_text : str) (n_results : Z)
  (document_ids : option (list str)) (min_confidence : Q) :
  (forall e,
     encode [query_text] = Raises e ->
     query c query_text n_results document_ids min_confidence
     = QueryFailure query_text [] 0 e) /\
  (forall query_embedding e,
     encode [query_text] = Returns query_embedding ->
     collection_query c query_embedding n_results (where_of document_ids)
     = Raises e ->
     query c query_text n_results document_ids min_confidence
     = QueryFailure query_text [] 0 e) /\
  (forall query_embedding results,
     encode [query_text] = Returns query_embedding ->
     collection_query c query_embedding n_results (where_of document_ids)
     = Returns results ->
     (length (qr_documents results) < length (qr_ids results))%nat \/
     (length (qr_metadatas results) < length (qr_ids results))%nat \/
     (length (qr_distances results) < length (qr_ids results))%nat ->
     query c query_text n_results document_ids min_confidence
     = QueryFailure query_text [] 0 IndexError).
Proof.
  split; [| split].
  - intros e Henc. unfold query. rewrite Henc. reflexivity.
  - intros emb e Henc Hq. unfold query. rewrite Henc. cbn [bind].
    rewrite Hq. reflexivity.
  - intros emb results Henc Hq Hshort. unfold query. rewrite Henc.
    cbn [bind]. rewrite Hq. cbn [bind].
    destruct (process_results results min_confidence
                (range (length (qr_ids results))) []) as [out | e] eqn:Hrun.
    + exfalso.
      assert (Hall : forall k, (k < length (qr_ids results))%nat ->
                (k < length (qr_documents results))%nat /\
                (k < length (qr_metadatas results))%nat /\
                (k < length (qr_distances results))%nat).
      { intros k Hk.
        assert (Hin : In (Z.of_nat k) (range (length (qr_ids results))))
          by (unfold range; apply in_map; apply in_seq; lia).
        pose proof (Nat2Z.is_nonneg k) as Hk0.
        destruct (@process_results_returns results min_confidence _ _ _ Hrun
                    _ Hin Hk0) as [H1 [H2 H3]].
        unfold len in *. lia. }
      destruct Hshort as [H | [H | H]];
        [destruct (Hall _ H) as [H' _] |
         destruct (Hall _ H) as [_ [H' _]] |
         destruct (Hall _ H) as [_ [_ H']]]; lia.
    + cbn [bind try_except]. rewrite (process_results_raises _ _ _ _ Hrun).
      reflexivity.
Qed.

End QueryFailure.

Lemma query_failure_answer_witness :
  query (VI := MemIndex.index) (EM := MemIndex.failing_encoder)
    MemIndex.sample (of_string "cat") 5 None (1 # 2)
  = QueryFailure (of_string "cat") [] 0 (CollaboratorError 4).
Proof.
  destruct (@query_failure_answer _ MemIndex.index MemIndex.failing_encoder
              MemIndex.sample (of_string "cat") 5 None (1 # 2)) as [Henc _].
  apply Henc. reflexivity.
Defined.

(** ** The chunks of a document *)

Lemma build_chunks_pack (docs : list StoredDoc) :
  forall n k acc,
    (k + n = length docs)%nat ->
    build_chunks (pack_docs docs) (map Z.of_nat (seq k n)) acc
    = Returns (acc ++ map document_chunk (skipn k docs)).
Proof.
  induction n as [| n IH]; intros k acc Hk.
  - rewrite skipn_all2 by lia. simpl. rewrite app_nil_r. reflexivity.
  - destruct (nth_error docs k) as [d |] eqn:Hd;
      [| apply nth_error_None in Hd; lia].
    cbn [seq map build_chunks pack_docs get_ids get_documents get_metadatas].
    rewrite (getitem_map_nth st_id _ _ Hd). cbn [bind].
    rewrite (getitem_map_nth st_document _ _ Hd). cbn [bind].
    rewrite (getitem_map_nth st_metadata _ _ Hd). cbn [bind].
    fold (pack_docs docs). rewrite IH by lia.
    rewrite (skipn_nth_cons _ _ Hd). cbn [map].
    rewrite <- app_assoc. reflexivity.
Qed.

Lemma chunk_index_keys_int (chunks : list DocumentChunk) :
  (forall ch, In ch chunks -> exists i, chunk_index_of ch = Some i) ->
  exists keyed,
    chunk_index_keys chunks = Some keyed /\
    int_keys keyed = Some (map (fun ch => (chunk_index_value ch, ch)) chunks).
Proof.
  induction chunks as [| ch chunks IH]; intros Hall.
  - exists []. split; reflexivity.
  - destruct IH as [keyed [Hkeys Hints]];
      [intros x Hx; apply Hall; right; exact Hx |].
    destruct (Hall ch (in_eq ch chunks)) as [i Hi].
    assert (G : dict_get (dc_metadata ch) (of_string "chunk_index")
                = Some (MInt i)).
    { unfold chunk_index_of in Hi.
      destruct (dict_get (dc_metadata ch) (of_string "chunk_index"))
        as [[s | j] |]; congruence. }
    exists ((MInt i, ch) :: keyed). split.
    + cbn [chunk_index_keys]. rewrite G, Hkeys. reflexivity.
    + cbn [int_keys map]. rewrite Hints.
      replace (chunk_index_value ch) with i
        by (unfold chunk_index_value; rewrite Hi; reflexivity).
      reflexivity.
Qed.

Lemma chunk_index_keys_missing (chunks : list DocumentChunk)
  (ch : DocumentChunk) :
  In ch chunks ->
  dict_get (dc_metadata ch) (of_string "chunk_index") = None ->
  chunk_index_keys chunks = None.
Proof.
  intros Hin Hnone. induction chunks as [| x chunks IH]; [contradiction |].
  cbn [chunk_index_keys]. destruct Hin as [-> | Hin].
  - rewrite Hnone. reflexivity.
  - rewrite (IH Hin).
    destruct (dict_get (dc_metadata x) (of_string "chunk_index")); reflexivity.
Qed.

Lemma insert_desc_keyed {A K : Type} (ltb : K -> K -> bool) (key : A -> K)
  (x : A) (ps : list (K * A)) :
  Forall (fun p => fst p = key (snd p)) ps ->
  map snd (insert_desc ltb fst (key x, x) ps)
  = insert_desc ltb key x (map snd ps).
Proof.
  induction 1 as [| [k y] ps Hk Hps IH]; [reflexivity |].
  cbn [insert_desc map fst snd] in *. subst k.
  destruct (ltb (key x) (key y)); cbn [map snd]; [rewrite IH |]; reflexivity.
Qed.

Lemma sort_desc_keyed {A K : Type} (ltb : K -> K -> bool) (key : A -> K)
  (l : list A) :
  map snd (sort_desc ltb fst (map (fun a => (key a, a)) l))
  = sort_desc ltb key l.
Proof.
  induction l as [| x l IH]; [reflexivity |].
  cbn [map sort_desc fold_right].
  fold (sort_desc ltb fst (map (fun a => (key a, a)) l)).
  fold (sort_desc ltb key l). rewrite <- IH.
  apply insert_desc_keyed.
  apply Forall_forall. intros p Hp. apply sort_desc_member in Hp.
  apply in_map_iff in Hp. destruct Hp as [a [<- _]]. reflexivity.
Qed.

Lemma sort_asc_ascending (l : list DocumentChunk) :
  StronglySorted (fun a b => chunk_index_value a <= chunk_index_value b)
    (sort_asc Z.ltb chunk_index_value l).
Proof.
  unfold sort_asc.
  eapply StronglySorted_weaken; [| apply sort_desc_sorted].
  - intros a b Hab. apply Z.ltb_ge in Hab. exact Hab.
  - intros a b Hab. apply Z.ltb_lt in Hab. apply Z.ltb_ge. lia.
  - intros a b c0 Hab Hbc. apply Z.ltb_ge in Hab, Hbc. apply Z.ltb_ge. lia.
Qed.

Section DocumentChunks.

Context {C : Type} {VI : VectorIndex C}.

Lemma get_document_chunks_pack (c : C) (document_id : str)
  (docs : list StoredDoc) :
  collection_get c (Some (WhereDocument document_id))
  = Returns (pack_docs docs) ->
  get_document_chunks_body c document_id
  = match chunk_index_keys (map document_chunk docs) with
    | Some keyed => sort_keyed keyed
    | None => None
    end.
Proof.
  intros Hget. unfold get_document_chunks_body. rewrite Hget.
  unfold range. change (get_ids (pack_docs docs)) with (map st_id docs).
  rewrite length_map.
  rewrite (build_chunks_pack docs (length docs) 0 []) by reflexivity.
  rewrite skipn_0. reflexivity.
Qed.

(** X12.  When every stored chunk of the document has an integer
    [chunk_index], [get_document_chunks] returns all the chunks the
    collection reports for the document, each once, in ascending order of
    [chunk_index]; chunks of equal index keep the order of the collection. *)
Theorem get_document_chunks_sorted (c : C) (document_id : str)
  (docs : list StoredDoc) :
  collection_get c (Some (WhereDocument document_id))
  = Returns (pack_docs docs) ->
  (forall d, In d docs -> exists i, chunk_index_of (document_chunk d) = Some i) ->
  let chunks := get_document_chunks c document_id in
  Permutation chunks (map document_chunk docs) /\
  StronglySorted (fun a b => chunk_index_value a <= chunk_index_value b)
    chunks /\
  (forall i,
     filter (fun ch => chunk_index_value ch =? i) chunks
     = filter (fun ch => chunk_index_value ch =? i) (map document_chunk docs)).
Proof.
  intros Hget Hint chunks.
  assert (Hrun : chunks
                 = sort_asc Z.ltb chunk_index_value (map document_chunk docs)).
  { unfold chunks, get_document_chunks.
    rewrite (get_document_chunks_pack _ _ Hget).
    destruct (chunk_index_keys_int (map document_chunk docs))
      as [keyed [Hkeys Hints]].
    - intros ch Hch. apply in_map_iff in Hch. destruct Hch as [d [<- Hd]].
      apply Hint. exact Hd.
    - rewrite Hkeys. unfold sort_keyed. rewrite Hints.
      unfold sort_asc. rewrite sort_desc_keyed. reflexivity. }
  rewrite Hrun. split; [apply sort_desc_perm |].
  split; [apply sort_asc_ascending |].
  intros i. unfold sort_asc. apply sort_desc_stable.
  intros a b Ha Hb. apply Z.eqb_eq in Ha, Hb. apply Z.ltb_ge. lia.
Qed.

(** X13.  When a stored chunk of the document has no [chunk_index] in its
    metadata, [get_document_chunks] returns the empty list: the [KeyError] of
    the sort key is caught, and the chunks that have an index are not
    returned either. *)
Theorem get_document_chunks_missing_index (c : C) (document_id : str)
  (docs : list StoredDoc) (d : StoredDoc) :
  collection_get c (Some (WhereDocument document_id))
  = Returns (pack_docs docs) ->
  In d docs ->
  dict_get (st_metadata d) (of_string "chunk_index") = None ->
  get_document_chunks c document_id = [].
Proof.
  intros Hget Hd Hnone. unfold get_document_chunks.
  rewrite (get_document_chunks_pack _ _ Hget).
  rewrite (@chunk_index_keys_missing _ (document_chunk d));
    [reflexivity | apply in_map; exact Hd | exact Hnone].
Qed.

(** X14.  For a collection that keeps the contract of [delete], once
    [remove_document] has answered [True] for a document,
    [get_document_chunks] returns the empty list for it. *)
Theorem removed_document_has_no_chunks (c c' : C) (document_id : str) :
  delete_contract VI ->
  remove_document document_id c = (true, c') ->
  get_document_chunks c' document_id = [].
Proof.
  intros Hcontract Hremove.
  unfold remove_document, try_exceptA, bindA, read, ret in Hremove.
  destruct (collection_get c (Some (WhereDocument document_id)))
    as [r | e] eqn:Hget; [| discriminate].
  destruct (get_ids r) as [| i ids] eqn:Hids; cbn [truthy] in Hremove;
    [discriminate |].
  destruct (collection_delete c (i :: ids)) as [[[] | e] c1] eqn:Hdel;
    [| discriminate].
  injection Hremove as <-. rewrite <- Hids in Hdel.
  unfold get_document_chunks, get_document_chunks_body.
  destruct (collection_get c1 (Some (WhereDocument document_id)))
    as [r' | e'] eqn:Hget'; [| reflexivity].
  rewrite (Hcontract _ _ _ _ _ Hget Hdel Hget'). reflexivity.
Qed.

End DocumentChunks.

Lemma get_document_chunks_sorted_witness :
  map dc_id (get_document_chunks (VI := MemIndex.index) shuffled (of_string "d"))
  = [of_string "d_chunk_0"; of_string "d_chunk_1"] /\
  Permutation (get_document_chunks (VI := MemIndex.index) shuffled (of_string "d"))
    (map document_chunk (map stored shuffled)).
Proof.
  split; [reflexivity |].
  apply (@get_document_chunks_sorted _ MemIndex.index shuffled (of_string "d")
           (map stored shuffled)).
  - reflexivity.
  - intros d [<- | [<- | []]]; eexists; reflexivity.
Defined.

Lemma get_document_chunks_missing_index_witness :
  get_document_chunks (VI := MemIndex.index) MemIndex.sample (of_string "a") = [].
Proof.
  apply (@get_document_chunks_missing_index _ MemIndex.index MemIndex.sample
           (of_string "a") (firstn 2 sample_docs) (hd (stored (hd
              (MemIndex.chunk "" "" "" []) MemIndex.sample)) sample_docs)).
  - reflexivity.
  - left. reflexivity.
  - reflexivity.
Defined.

Lemma removed_document_has_no_chunks_witness :
  get_document_chunks (VI := MemIndex.index)
    (snd (remove_document (VI := MemIndex.index) (of_string "d") shuffled))
    (of_string "d")
  = [].
Proof.
  apply (@removed_document_has_no_chunks _ MemIndex.index shuffled _
           (of_string "d") mem_index_contract).
  reflexivity.
Defined.

(** ** Keyword search, continued *)

Lemma contains_count_from (t : str) :
  t <> [] -> forall s, contains s t = true -> 0 < count_from s t 0.
Proof.
  intros Ht. induction s as [| c s IH]; intros Hc.
  - destruct t; [congruence | discriminate Hc].
  - cbn [contains] in Hc. cbn [count_from].
    destruct (startswith (c :: s) t) eqn:E.
    + pose proof (count_from_nonneg t s (length t - 1)). lia.
    + apply IH. exact Hc.
Qed.

Lemma contains_count (s t : str) : contains s t = true <-> 0 < count s t.
Proof.
  split.
  - intros Hc. destruct t as [| b t].
    + unfold count. pose proof (len_nonneg s). lia.
    + unfold count. apply contains_count_from; [discriminate | exact Hc].
  - intros Hpos. destruct (contains s t) eqn:E; [reflexivity |].
    rewrite (contains_false_count _ _ E) in Hpos. lia.
Qed.

Lemma occurrences_positive (doc_lower : str) (query_terms : list str) :
  0 < occurrences doc_lower query_terms <->
  exists t, In t query_terms /\ contains doc_lower t = true.
Proof.
  unfold occurrences. induction query_terms as [| t ts IH]; simpl.
  - split; [lia | intros [t [[] _]]].
  - pose proof (count_nonneg doc_lower t) as Hc.
    pose proof (occurrences_nonneg doc_lower ts) as Ho.
    unfold occurrences in Ho. split.
    + intros Hpos. destruct (contains doc_lower t) eqn:E.
      * exists t. split; [left; reflexivity | exact E].
      * rewrite (contains_false_count _ _ E) in Hpos.
        destruct IH as [IH _]. destruct IH as [t' [Hin Ht']]; [lia |].
        exists t'. split; [right; exact Hin | exact Ht'].
    + intros [t' [[<- | Hin] Ht']].
      * apply contains_count in Ht'. lia.
      * destruct IH as [_ IH]. specialize (IH (ex_intro _ t' (conj Hin Ht'))).
        lia.
Qed.

Lemma slice_to_length {A : Type} (l : list A) (n : Z) :
  0 <= n -> len (slice_to l n) <= n.
Proof.
  intros Hn. rewrite slice_to_firstn by exact Hn. unfold len.
  rewrite length_firstn. lia.
Qed.

Section KeywordMatches.

Context {C : Type} {VI : VectorIndex C} {CM : CaseMapping}.

Lemma keyword_search_pack (c : C) (query_text : str) (n_results : Z)
  (document_ids : option (list str)) (docs : list StoredDoc) :
  collection_get c (where_of document_ids) = Returns (pack_docs docs) ->
  _keyword_search c query_text n_results document_ids
  = slice_to
      (sort_desc Z.ltb kw_score
         (map (keyword_hit (split (lower query_text)))
            (filter (fun d => 0 <? doc_score (split (lower query_text)) d)
               docs)))
      n_results.
Proof.
  intros Hget. unfold _keyword_search, keyword_search_body. rewrite Hget.
  cbn [bind]. unfold enumerate, range.
  change (get_documents (pack_docs docs)) with (map st_document docs).
  rewrite length_map.
  destruct (split (lower query_text)) as [| t ts] eqn:Hterms.
  - rewrite keyword_scan_no_terms. cbn [bind try_except].
    replace (filter (fun d => 0 <? doc_score [] d) docs) with (@nil StoredDoc);
      [reflexivity |].
    symmetry. clear Hget. induction docs as [| d docs IH]; [reflexivity |].
    cbn [filter]. change (doc_score [] d) with 0. exact IH.
  - pose proof (@keyword_scan_pack CM docs (t :: ts)) as Hscan.
    specialize (Hscan ltac:(discriminate) (length docs) 0%nat []).
    rewrite skipn_0 in Hscan. rewrite Hscan by reflexivity. reflexivity.
Qed.

(** X15.  Keyword search matches by substring.  When [n_results] is at least
    the number of stored chunks, so that nothing is cut off, a chunk is among
    the results exactly when its lower-cased text contains at least one of
    the lower-cased query terms. *)
Theorem keyword_search_matches (c : C) (query_text : str) (n_results : Z)
  (document_ids : option (list str)) (docs : list StoredDoc) :
  collection_get c (where_of document_ids) = Returns (pack_docs docs) ->
  len docs <= n_results ->
  forall r,
    In r (_keyword_search c query_text n_results document_ids) <->
    exists d,
      In d docs /\
      (exists t, In t (split (lower query_text)) /\
                 contains (lower (st_document d)) t = true) /\
      r = keyword_hit (split (lower query_text)) d.
Proof.
  intros Hget Hn r. rewrite (keyword_search_pack _ _ _ _ Hget).
  pose proof (len_nonneg docs) as Hdocs.
  rewrite slice_to_firstn by lia. rewrite firstn_all2.
  - rewrite sort_desc_member, in_map_iff. split.
    + intros [d [<- Hd]]. apply filter_In in Hd. destruct Hd as [Hd Hs].
      apply Z.ltb_lt in Hs. exists d. split; [exact Hd |].
      split; [apply occurrences_positive; exact Hs | reflexivity].
    + intros [d [Hd [Hmatch ->]]]. exists d. split; [reflexivity |].
      apply filter_In. split; [exact Hd |]. apply Z.ltb_lt.
      apply occurrences_positive. exact Hmatch.
  - rewrite sort_desc_length, length_map.
    pose proof (filter_length_le
                  (fun d => 0 <? doc_score (split (lower query_text)) d) docs).
    unfold len in Hn. lia.
Qed.

End KeywordMatches.

Lemma keyword_search_matches_witness :
  exists d,
    In d sample_docs /\
    (exists t, In t [of_string "bark"] /\
               contains (lower (CaseMapping := MemIndex.ascii_lower)
                           (st_document d)) t = true) /\
    nth 0 (_keyword_search (VI := MemIndex.index) (CM := MemIndex.ascii_lower)
             MemIndex.sample (of_string "BARK") 3 None)
      (keyword_hit (CM := MemIndex.ascii_lower) [] (stored (MemIndex.chunk "" "" "" [])))
    = keyword_hit (CM := MemIndex.ascii_lower) [of_string "bark"] d.
Proof.
  assert (Hget : collection_get (VectorIndex := MemIndex.index)
                   MemIndex.sample (where_of None)
                 = Returns (pack_docs sample_docs)) by reflexivity.
  assert (Hlen : len sample_docs <= 3) by (vm_compute; discriminate).
  destruct (@keyword_search_matches _ MemIndex.index MemIndex.ascii_lower
              MemIndex.sample (of_string "BARK") 3 None sample_docs Hget Hlen
              (nth 0 (_keyword_search (VI := MemIndex.index)
                        (CM := MemIndex.ascii_lower) MemIndex.sample
                        (of_string "BARK") 3 None)
                 (keyword_hit (CM := MemIndex.ascii_lower) []
                    (stored (MemIndex.chunk "" "" "" [])))))
    as [Hfound _].
  apply Hfound. vm_compute. left. reflexivity.
Defined.

(** X16.  For a non-negative [n_results], keyword search and hybrid search
    return at most [n_results] results, whatever the collaborators answer. *)
Theorem search_result_count {C : Type} {VI : VectorIndex C}
  {EM : EmbeddingModel} {CM : CaseMapping} (c : C) (query_text : str)
  (n_results : Z) (document_ids : option (list str))
  (keyword_weight semantic_weight : Q) :
  0 <= n_results ->
  len (_keyword_search c query_text n_results document_ids) <= n_results /\
  len (hybrid_results
         (hybrid_search c query_text n_results document_ids keyword_weight
            semantic_weight)) <= n_results.
Proof.
  intros Hn. split.
  - unfold _keyword_search, keyword_search_body.
    destruct (collection_get c (where_of document_ids)) as [all_docs | e];
      cbn [bind try_except]; [| exact Hn].
    destruct (keyword_scan all_docs _ _ []) as [out | e];
      cbn [bind try_except]; [| exact Hn].
    apply slice_to_length. exact Hn.
  - unfold hybrid_search. cbv zeta.
    destruct (_combine_search_results _ _ keyword_weight semantic_weight)
      as [out | e]; cbn [bind try_except hybrid_results]; [| exact Hn].
    apply slice_to_length. exact Hn.
Qed.

Lemma search_result_count_witness :
  len (_keyword_search (VI := MemIndex.index) (CM := MemIndex.ascii_lower)
         MemIndex.sample (of_string "cat dog") 1 None) <= 1.
Proof.
  apply (@search_result_count _ MemIndex.index MemIndex.unit_encoder
           MemIndex.ascii_lower MemIndex.sample (of_string "cat dog") 1 None
           (3 # 10) (7 # 10)).
  lia.
Defined.

(** ** Fusion, continued *)

Lemma fused_weighted_sum (keyword_weight semantic_weight : Q)
  (s : option SemanticResult) (k : option KeywordResult) (id_ : str)
  (v : CombinedResult) :
  fused keyword_weight semantic_weight s k id_ (Some v) ->
  semantic_confidence v
  = match s with Some s0 => sem_confidence s0 | None => 0%Q end /\
  keyword_confidence v
  = match k with Some k0 => kw_confidence k0 | None => 0%Q end /\
  (combined_confidence v
   == semantic_confidence v * semantic_weight
      + keyword_confidence v * keyword_weight)%Q.
Proof.
  destruct s as [s0 |], k as [k0 |]; cbn; try contradiction;
    intros [_ [Hs [Hk Hc]]]; (split; [exact Hs | split; [exact Hk |]]);
    rewrite Hc, Hs, Hk; ring.
Qed.






(** ** Hybrid search *)

Section HybridSearch.

Context {C : Type} {VI : VectorIndex C} {EM : EmbeddingModel} {CM : CaseMapping}.

(** X20.  The only error [hybrid_search] reports is the division by a zero
    sum of the weights: then, and only then, it answers with the error dict,
    which has no results, [total_found = 0] and the [ZeroDivisionError].  In
    every other case it returns an answer whose [total_found] is the number
    of its results. *)
Theorem hybrid_search_error (c : C) (query_text : str) (n_results : Z)
  (document_ids : option (list str)) (keyword_weight semantic_weight : Q) :
  ((keyword_weight + semantic_weight == 0)%Q ->
   hybrid_search c query_text n_results document_ids keyword_weight
     semantic_weight
   = HybridFailure query_text [] 0 ZeroDivisionError) /\
  (~ (keyword_weight + semantic_weight == 0)%Q ->
   exists results semantic_count keyword_count,
     hybrid_search c query_text n_results document_ids keyword_weight
       semantic_weight
     = HybridAnswer query_text results (len results) semantic_count
         keyword_count).
Proof.
  split.
  - intros Hzero. unfold hybrid_search, _combine_search_results, fdiv.
    cbv zeta. apply Qeq_bool_iff in Hzero. rewrite Hzero. reflexivity.
  - intros Hsum. unfold hybrid_search. cbv zeta.
    rewrite combine_returns by exact Hsum. cbn [bind try_except].
    eexists. eexists. eexists. reflexivity.
Qed.

(** X21.  [hybrid_search] does not report a failure of the embedding model:
    [query] has caught it, so the answer is built from the keyword results
    alone, with [semantic_count = 0] and a semantic confidence of 0 in every
    result. *)
Theorem hybrid_search_without_embeddings (c : C) (query_text : str)
  (n_results : Z) (document_ids : option (list str))
  (keyword_weight semantic_weight : Q) (e : exn) :
  encode [query_text] = Raises e ->
  ~ (keyword_weight + semantic_weight == 0)%Q ->
  exists results,
    hybrid_search c query_text n_results document_ids keyword_weight
      semantic_weight
    = HybridAnswer query_text results (len results) 0
        (len (_keyword_search c query_text (n_results * 2) document_ids)) /\
    forall v,
      In v results ->
      semantic_confidence v = 0%Q /\
      exists k,
        base v = inr k /\
        In k (_keyword_search c query_text (n_results * 2) document_ids).
Proof.
  intros Henc Hsum.
  assert (Hquery : query c query_text (n_results * 2) document_ids (1 # 2)
                   = QueryFailure query_text [] 0 e).
  { unfold query. rewrite Henc. reflexivity. }
  unfold hybrid_search. cbv zeta. rewrite Hquery.
  cbn [response_results]. rewrite combine_returns by exact Hsum.
  cbn [bind try_except]. eexists. split; [reflexivity |].
  intros v Hv. apply slice_member in Hv. apply sort_desc_member in Hv.
  split.
  - pose proof (@fuse_entry _ _ _ _ v Hv) as Hf.
    destruct (@fused_weighted_sum _ _ _ _ _ _ Hf) as [Hs _].
    rewrite Hs. reflexivity.
  - pose proof (@fuse_bases (fun _ => False)
                  (fun k => In k (_keyword_search c query_text (n_results * 2)
                                    document_ids))
                  (keyword_weight / (keyword_weight + semantic_weight))
                  (semantic_weight / (keyword_weight + semantic_weight))
                  []
                  (_keyword_search c query_text (n_results * 2) document_ids))
      as Hall.
    rewrite Forall_forall in Hall.
    specialize (Hall ltac:(intros s []) ltac:(intros k Hk; exact Hk) v Hv).
    destruct (base v) as [s | k]; [contradiction |].
    exists k. split; [reflexivity | exact Hall].
Qed.

End HybridSearch.

Lemma hybrid_search_without_embeddings_witness :
  exists results,
    hybrid_search (VI := MemIndex.index) (EM := MemIndex.failing_encoder)
      (CM := MemIndex.ascii_lower) MemIndex.sample (of_string "cat") 5 None
      (3 # 10) (7 # 10)
    = HybridAnswer (of_string "cat") results (len results) 0 2.
Proof.
  destruct (@hybrid_search_without_embeddings _ MemIndex.index
              MemIndex.failing_encoder MemIndex.ascii_lower MemIndex.sample
              (of_string "cat") 5 None (3 # 10) (7 # 10)
              (CollaboratorError 4)) as [results [Hrun _]].
  - reflexivity.
  - discriminate.
  - exists results. exact Hrun.
Defined.

Lemma hybrid_search_error_witness :
  hybrid_search (VI := MemIndex.index) (EM := MemIndex.unit_encoder)
    (CM := MemIndex.ascii_lower) MemIndex.sample (of_string "cat") 5 None 0 0
  = HybridFailure (of_string "cat") [] 0 ZeroDivisionError.
Proof.
  destruct (@hybrid_search_error _ MemIndex.index MemIndex.unit_encoder
              MemIndex.ascii_lower MemIndex.sample (of_string "cat") 5 None
              0 0) as [Hzero _].
  apply Hzero. reflexivity.
Defined.

Lemma remove_document_success_witness :
  exists r,
    collection_get (VectorIndex := MemIndex.index) shuffled
      (Some (WhereDocument (of_string "d"))) = Returns r /\
    get_ids r <> [] /\
    collection_delete (VectorIndex := MemIndex.index) shuffled (get_ids r)
    = (Returns tt, []).
Proof.
  apply (@remove_document_success _ MemIndex.index shuffled []
           (of_string "d")).
  reflexivity.
Defined.
